(** * Effect relay server (standalone bridge): a shallow embedding

    The bridge script keeps a roster of WebSocket connections, counts
    inbound messages, renders the "fire tornado" particle effect on request
    and relays a reduced notification to the other open connections.

    Conventions of the embedding:
    - a JavaScript number is a [num]: a rational, or one of the three IEEE
      special values.  The operators of [JS] are exact; those of [B64]
      round every result to binary64 and overflow to the infinities.  The
      generator is given in both readings: [generateTornadoEffect] with the
      exact operators, for the properties that are about counts, layers,
      identifiers, colour bands and ranges that rounding respects, and
      [Tornado64.generateTornadoEffect] with the rounded ones, for the
      properties that rounding decides (the order of the radii, the
      heights).  The bridge's running average is rounded.  The sign of
      zero is not represented;
    - [Math.random] and [Date.now] read from tapes held in a [Host] record
      that is threaded through the code by a small state monad;
    - [Math.cos], [Math.sin] and [JSON.parse] belong to the runtime and are
      section variables;
    - [ws.send (JSON.stringify v)] is recorded as the output [Send ws v],
      and a console line as the output [Console line];
    - where two objects of the script have a field of the same name, the
      record fields carry a prefix ([re_] for the rendered effect, [rr_],
      [bc_] and [echo_] for the three outbound messages);
    - the heartbeat timer and the SIGINT handler only print and exit, and
      are left out. *)

From Stdlib Require Import ZArith QArith Qcanon Qpower Qround Qabs Lqa.
From Stdlib Require Import String List Lia.
From Stdlib Require Floats Uint63.
From stdpp Require Import base decidable list gmap.
Import ListNotations.

#[local] Set Warnings "-clear-no-such-hyp".

Local Open Scope Z_scope.

(** ** JavaScript numbers *)

Inductive num : Type :=
| Fin (q : Q)
| NaN
| PosInf
| NegInf.

Definition of_Z (z : Z) : num := Fin (inject_Z z).
Definition of_nat (n : nat) : num := of_Z (Z.of_nat n).

(** A decimal literal of the source, stored in lowest terms. *)
Definition lit (q : Q) : num := Fin (Qred q).

Definition Qsign (q : Q) : comparison := Z.compare (Qnum q) 0.

Definition inf_of_sign (c : comparison) : num :=
  match c with
  | Gt => PosInf
  | Lt => NegInf
  | Eq => NaN
  end.

Definition num_sign (a : num) : option comparison :=
  match a with
  | Fin q => Some (Qsign q)
  | NaN => None
  | PosInf => Some Gt
  | NegInf => Some Lt
  end.

Definition sign_mul (c d : comparison) : comparison :=
  match c with
  | Eq => Eq
  | Gt => d
  | Lt => CompOpp d
  end.

(** Truncation toward zero, as used by the remainder operator. *)
Definition Qtrunc (q : Q) : Z := Z.quot (Qnum q) (Zpos (Qden q)).

Module JS.

(** [a + b] *)
Definition add (a b : num) : num :=
  match a, b with
  | NaN, _ | _, NaN => NaN
  | Fin p, Fin q => Fin (Qred (p + q))
  | PosInf, NegInf | NegInf, PosInf => NaN
  | PosInf, _ | _, PosInf => PosInf
  | NegInf, _ | _, NegInf => NegInf
  end.

(** unary [-a] *)
Definition neg (a : num) : num :=
  match a with
  | Fin p => Fin (Qred (- p))
  | NaN => NaN
  | PosInf => NegInf
  | NegInf => PosInf
  end.

(** [a - b] *)
Definition sub (a b : num) : num :=
  match a, b with
  | NaN, _ | _, NaN => NaN
  | Fin p, Fin q => Fin (Qred (p - q))
  | PosInf, PosInf | NegInf, NegInf => NaN
  | PosInf, _ | _, NegInf => PosInf
  | NegInf, _ | _, PosInf => NegInf
  end.

(** [a * b]: zero times an infinity is NaN. *)
Definition mul (a b : num) : num :=
  match a, b with
  | Fin p, Fin q => Fin (Qred (p * q))
  | _, _ =>
      match num_sign a, num_sign b with
      | Some c, Some d => inf_of_sign (sign_mul c d)
      | _, _ => NaN
      end
  end.

(** [a / b]: a finite non-zero value over zero is an infinity, zero over
    zero is NaN. *)
Definition div (a b : num) : num :=
  match a, b with
  | NaN, _ | _, NaN => NaN
  | Fin p, Fin q =>
      if Qeq_bool q 0 then inf_of_sign (Qsign p) else Fin (Qred (p / q))
  | Fin _, _ => Fin 0
  | _, Fin q =>
      match Qsign q with
      | Lt => neg a
      | _ => a
      end
  | _, _ => NaN
  end.

(** [a % b]: the remainder has the sign of the dividend; NaN when the
    divisor is zero or the dividend is infinite. *)
Definition rem (a b : num) : num :=
  match a, b with
  | Fin p, Fin q =>
      if Qeq_bool q 0 then NaN
      else Fin (Qred (p - q * inject_Z (Qtrunc (p / q))))
  | Fin p, PosInf | Fin p, NegInf => Fin p
  | _, _ => NaN
  end.

(** [a < b] and [a > b]: false as soon as one side is NaN. *)
Definition lt (a b : num) : bool :=
  match a, b with
  | NaN, _ | _, NaN => false
  | Fin p, Fin q => match Qcompare p q with Lt => true | _ => false end
  | NegInf, NegInf => false
  | NegInf, _ => true
  | _, PosInf => match a with PosInf => false | _ => true end
  | _, _ => false
  end.

Definition gt (a b : num) : bool := lt b a.

End JS.

Declare Scope js_scope.
Delimit Scope js_scope with js.
Bind Scope js_scope with num.
Infix "+" := JS.add : js_scope.
Infix "-" := JS.sub : js_scope.
Infix "*" := JS.mul : js_scope.
Infix "/" := JS.div : js_scope.
Infix "mod" := JS.rem : js_scope.
Notation "- a" := (JS.neg a) : js_scope.

(** [Math.PI], the binary64 value nearest to pi. *)
Definition Math_PI : num := lit (884279719003555 # 281474976710656).

(** ** Binary64 rounding

    The operators of [JS] compute with exact rationals.  The engine rounds
    the result of every operation to the nearest binary64 value, ties to
    even, and lets it overflow to an infinity; [round64] is that rounding,
    and an operator of [B64] is the operator of [JS] followed by it.  The
    sign of zero is not represented: both zeros are [Fin 0]. *)

(** [2^e], for an exponent of either sign. *)
Definition pow2 (e : Z) : Q := Qpower 2 e.

(** For a positive rational, the largest [e] with [2^e <= q]. *)
Definition ilog2 (q : Q) : Z :=
  let e := Z.log2 (Qnum q) - Z.log2 (Zpos (Qden q)) in
  if Qle_bool (pow2 e) q then e else e - 1.

(** The nearest integer, ties to even. *)
Definition rne (q : Q) : Z :=
  let f := Qfloor q in
  match Qcompare (q - inject_Z f) (1 # 2) with
  | Lt => f
  | Gt => f + 1
  | Eq => if Z.even f then f else f + 1
  end.

(** The exponent that binary64 gives a positive rational: that of its
    binade, and -1022 for every subnormal value. *)
Definition expo (a : Q) : Z := Z.max (ilog2 a) (-1022).

(** The nearest multiple of [2^(e - 52)], [e] being the exponent: the value
    is cut to 53 significant bits (fewer for a subnormal).  The result may
    be [2^1024], which no binary64 value is: that is overflow. *)
Definition round_pos (a : Q) : Q :=
  let e := expo a in
  inject_Z (rne (a * pow2 (52 - e))) * pow2 (e - 52).

Definition round64 (q : Q) : num :=
  match Qsign q with
  | Eq => Fin 0
  | Gt =>
      let r := round_pos q in
      if Qle_bool (pow2 1024) r then PosInf else Fin (Qred r)
  | Lt =>
      let r := round_pos (- q) in
      if Qle_bool (pow2 1024) r then NegInf else Fin (Qred (- r))
  end.

(** [Number.MAX_VALUE] *)
Definition Number_MAX_VALUE : Q := inject_Z ((2 ^ 53 - 1) * 2 ^ 971).

Module B64.

Definition rnd (a : num) : num :=
  match a with
  | Fin q => round64 q
  | _ => a
  end.

Definition add (a b : num) : num := rnd (JS.add a b).
Definition sub (a b : num) : num := rnd (JS.sub a b).
Definition mul (a b : num) : num := rnd (JS.mul a b).
Definition div (a b : num) : num := rnd (JS.div a b).
Definition rem (a b : num) : num := rnd (JS.rem a b).

(** A decimal literal of the source, as the engine reads it. *)
Definition lit (q : Q) : num := round64 q.

End B64.

(** ** Decoded JSON *)

#[local] Set Warnings "-register-all".

Inductive JValue : Type :=
| JNull
| JBool (b : bool)
| JNum (n : num)
| JStr (s : string)
| JArr (items : list JValue)
| JObj (fields : list (string * JValue)).

(** Property read [v.key].  [None] at the outer level is the TypeError
    raised on [null]; [Some None] is [undefined]. *)
Fixpoint assoc (key : string) (fields : list (string * JValue)) : option JValue :=
  match fields with
  | [] => None
  | (k, v) :: rest => if String.eqb k key then Some v else assoc key rest
  end.

Definition prop (v : JValue) (key : string) : option (option JValue) :=
  match v with
  | JNull => None
  | JObj fields => Some (assoc key fields)
  | _ => Some None
  end.

(** [v === 'text'] for a value that may be undefined. *)
Definition strict_eq_str (v : option JValue) (text : string) : bool :=
  match v with
  | Some (JStr s) => String.eqb s text
  | _ => false
  end.

(** ** The host runtime: random samples and the clock *)

Record Host : Type := mkHost {
  random_tape : nat -> num;   (* the successive results of Math.random() *)
  random_calls : nat;
  clock_tape : nat -> num;    (* the successive results of Date.now() *)
  clock_calls : nat
}.

Definition M (A : Type) : Type := Host -> A * Host.

Definition ret {A : Type} (a : A) : M A := fun h => (a, h).

Definition bind {A B : Type} (c : M A) (k : A -> M B) : M B :=
  fun h => let (a, h') := c h in k a h'.

Notation "x <- c ;; k" := (bind c (fun x => k))
  (at level 100, c at next level, right associativity).

Definition Math_random : M num :=
  fun h =>
    (random_tape h (random_calls h),
     mkHost (random_tape h) (S (random_calls h)) (clock_tape h) (clock_calls h)).

Definition Date_now : M num :=
  fun h =>
    (clock_tape h (clock_calls h),
     mkHost (random_tape h) (random_calls h) (clock_tape h) (S (clock_calls h))).

(** ** Data model of the effect *)

Record Position : Type := mkPosition {
  pos_x : num;
  pos_y : num
}.

Record Parameters : Type := mkParameters {
  particleCount : Z;
  spiralLayers : Z;
  duration : option JValue;
  colorScheme : option JValue
}.

Record EffectConfig : Type := mkConfig {
  position : Position;
  parameters : Parameters
}.

Record Particle : Type := mkParticle {
  id : num;
  x : num;
  y : num;
  z : num;
  vx : num;
  vy : num;
  vz : num;
  ax : num;
  ay : num;
  az : num;
  radius : num;
  color : string;
  life : num;
  layer : num;
  turbulence : num;
  rotation : num;
  rotationSpeed : num
}.

Record AdvancedPhysics : Type := mkAdvancedPhysics {
  gravity : num;
  windForce : num;
  vortexStrength : num;
  turbulenceScale : num
}.

Record RenderedEffect : Type := mkRendered {
  re_position : Position;
  re_particles : list Particle;
  re_duration : option JValue;
  re_spiralLayers : Z;
  re_particleCount : Z;
  re_colorScheme : option JValue;
  re_physics : bool;
  re_lighting : bool;
  re_renderQuality : string;
  re_gpuAccelerated : bool;
  re_serverRendered : bool;
  re_renderTime : num;
  re_advancedPhysics : AdvancedPhysics
}.

(** ** generateTornadoEffect *)

(** The colour ladder of the loop body (the [if]/[else if] chain on
    [colorRand]). *)
Definition pick_color (colorRand : num) : string :=
  if JS.gt colorRand (lit 0.85) then "#ffffff"
  else if JS.gt colorRand (lit 0.7) then "#ffff99"
  else if JS.gt colorRand (lit 0.5) then "#ffaa00"
  else if JS.gt colorRand (lit 0.3) then "#ff6600"
  else "#cc3300".

Section Generator.

Variables Math_cos Math_sin : num -> num.

Local Open Scope js_scope.

Definition layerIndex_of (i : nat) (parameters : Parameters) : num :=
  of_nat i mod of_Z (spiralLayers parameters).

Definition angle_of (i : nat) (parameters : Parameters) : num :=
  (of_nat i / of_Z (particleCount parameters)) * Math_PI * of_Z 2.

Definition radiusScale_of (layerIndex : num) (parameters : Parameters) : num :=
  layerIndex / of_Z (spiralLayers parameters).

Definition spiralRadius_of (layerIndex : num) : num :=
  of_Z 40 + (layerIndex * of_Z 60).

Definition rotationOffset_of (layerIndex : num) (parameters : Parameters) : num :=
  layerIndex * (Math_PI * of_Z 2 / of_Z (spiralLayers parameters)).

(** One pass through the body of the [for] loop, for index [i]. *)
Definition tornado_particle (position : Position) (parameters : Parameters)
    (i : nat) : M Particle :=
  let layerIndex := layerIndex_of i parameters in
  let angle := angle_of i parameters in
  let radiusScale := radiusScale_of layerIndex parameters in
  let spiralRadius := spiralRadius_of layerIndex in
  r1 <- Math_random ;;
  let heightVariance := r1 * of_Z 150 - of_Z 75 in
  let rotationOffset := rotationOffset_of layerIndex parameters in
  r2 <- Math_random ;;
  let baseSpeed := of_Z 150 + (r2 * of_Z 100) in
  let velocityX := Math_cos (angle + rotationOffset) * baseSpeed in
  let velocityY := heightVariance * of_Z 30 in
  let velocityZ := Math_sin (angle + rotationOffset) * baseSpeed in
  let centerPull := lit 0.3 in
  let turbulence := lit 0.8 in
  colorRand <- Math_random ;;
  let color := pick_color colorRand in
  r4 <- Math_random ;;
  r5 <- Math_random ;;
  ret {| id := of_nat i;
         x := pos_x position + Math_cos angle * spiralRadius;
         y := pos_y position + heightVariance;
         z := Math_sin angle * spiralRadius;
         vx := velocityX;
         vy := velocityY;
         vz := velocityZ;
         ax := - Math_cos angle * centerPull;
         ay := of_Z 50;
         az := - Math_sin angle * centerPull;
         radius := of_Z 8 - (radiusScale * of_Z 4);
         color := color;
         life := lit 1.0;
         layer := layerIndex;
         turbulence := turbulence;
         rotation := r4 * Math_PI * of_Z 2;
         rotationSpeed := (r5 - lit 0.5) * of_Z 10 |}.

(** The [for] loop.  The guard [i < parameters.particleCount] holds for
    exactly the indices below [Z.to_nat particleCount] (lemma
    [loop_guard] below), so [todo] counts the passes that remain. *)
Fixpoint tornado_loop (position : Position) (parameters : Parameters)
    (todo : nat) (i : nat) (particles : list Particle) : M (list Particle) :=
  match todo with
  | O => ret particles
  | S todo' =>
      p <- tornado_particle position parameters i ;;
      tornado_loop position parameters todo' (S i) (particles ++ [p])
  end.

Definition generateTornadoEffect (config : EffectConfig) : M RenderedEffect :=
  let position := position config in
  let parameters := parameters config in
  startTime <- Date_now ;;
  particles <-
    tornado_loop position parameters
      (Z.to_nat (particleCount parameters)) 0 [] ;;
  endTime <- Date_now ;;
  let renderTime := endTime - startTime in
  ret {| re_position := position;
         re_particles := particles;
         re_duration := duration parameters;
         re_spiralLayers := spiralLayers parameters;
         re_particleCount := particleCount parameters;
         re_colorScheme := colorScheme parameters;
         re_physics := true;
         re_lighting := true;
         re_renderQuality := "ultra";
         re_gpuAccelerated := true;
         re_serverRendered := true;
         re_renderTime := renderTime;
         re_advancedPhysics :=
           {| gravity := lit (-9.81);
              windForce := lit 0.5;
              vortexStrength := lit 2.0;
              turbulenceScale := lit 0.8 |} |}.

End Generator.

(** ** generateTornadoEffect, rounded

    The same function with the operators of [B64]: every arithmetic result
    is a binary64 value, as in the engine.  The counts are integers that
    binary64 represents, and so are the loop counter and the identifiers
    for any list that fits in memory. *)

Module Tornado64.

Definition pick_color (colorRand : num) : string :=
  if JS.gt colorRand (B64.lit 0.85) then "#ffffff"
  else if JS.gt colorRand (B64.lit 0.7) then "#ffff99"
  else if JS.gt colorRand (B64.lit 0.5) then "#ffaa00"
  else if JS.gt colorRand (B64.lit 0.3) then "#ff6600"
  else "#cc3300".

Section Generator.

Variables Math_cos Math_sin : num -> num.

Definition layerIndex_of (i : nat) (parameters : Parameters) : num :=
  B64.rem (of_nat i) (of_Z (spiralLayers parameters)).

Definition angle_of (i : nat) (parameters : Parameters) : num :=
  B64.mul
    (B64.mul (B64.div (of_nat i) (of_Z (particleCount parameters))) Math_PI)
    (of_Z 2).

Definition radiusScale_of (layerIndex : num) (parameters : Parameters) : num :=
  B64.div layerIndex (of_Z (spiralLayers parameters)).

Definition spiralRadius_of (layerIndex : num) : num :=
  B64.add (of_Z 40) (B64.mul layerIndex (of_Z 60)).

Definition rotationOffset_of (layerIndex : num) (parameters : Parameters) : num :=
  B64.mul layerIndex
    (B64.div (B64.mul Math_PI (of_Z 2)) (of_Z (spiralLayers parameters))).

(** One pass through the body of the [for] loop, for index [i]. *)
Definition tornado_particle (position : Position) (parameters : Parameters)
    (i : nat) : M Particle :=
  let layerIndex := layerIndex_of i parameters in
  let angle := angle_of i parameters in
  let radiusScale := radiusScale_of layerIndex parameters in
  let spiralRadius := spiralRadius_of layerIndex in
  r1 <- Math_random ;;
  let heightVariance := B64.sub (B64.mul r1 (of_Z 150)) (of_Z 75) in
  let rotationOffset := rotationOffset_of layerIndex parameters in
  r2 <- Math_random ;;
  let baseSpeed := B64.add (of_Z 150) (B64.mul r2 (of_Z 100)) in
  let velocityX := B64.mul (Math_cos (B64.add angle rotationOffset)) baseSpeed in
  let velocityY := B64.mul heightVariance (of_Z 30) in
  let velocityZ := B64.mul (Math_sin (B64.add angle rotationOffset)) baseSpeed in
  let centerPull := B64.lit 0.3 in
  let turbulence := B64.lit 0.8 in
  colorRand <- Math_random ;;
  let color := pick_color colorRand in
  r4 <- Math_random ;;
  r5 <- Math_random ;;
  ret {| id := of_nat i;
         x := B64.add (pos_x position) (B64.mul (Math_cos angle) spiralRadius);
         y := B64.add (pos_y position) heightVariance;
         z := B64.mul (Math_sin angle) spiralRadius;
         vx := velocityX;
         vy := velocityY;
         vz := velocityZ;
         ax := B64.mul (JS.neg (Math_cos angle)) centerPull;
         ay := of_Z 50;
         az := B64.mul (JS.neg (Math_sin angle)) centerPull;
         radius := B64.sub (of_Z 8) (B64.mul radiusScale (of_Z 4));
         color := color;
         life := B64.lit 1.0;
         layer := layerIndex;
         turbulence := turbulence;
         rotation := B64.mul (B64.mul r4 Math_PI) (of_Z 2);
         rotationSpeed := B64.mul (B64.sub r5 (B64.lit 0.5)) (of_Z 10) |}.

Fixpoint tornado_loop (position : Position) (parameters : Parameters)
    (todo : nat) (i : nat) (particles : list Particle) : M (list Particle) :=
  match todo with
  | O => ret particles
  | S todo' =>
      p <- tornado_particle position parameters i ;;
      tornado_loop position parameters todo' (S i) (particles ++ [p])
  end.

Definition generateTornadoEffect (config : EffectConfig) : M RenderedEffect :=
  let position := position config in
  let parameters := parameters config in
  startTime <- Date_now ;;
  particles <-
    tornado_loop position parameters
      (Z.to_nat (particleCount parameters)) 0 [] ;;
  endTime <- Date_now ;;
  let renderTime := B64.sub endTime startTime in
  ret {| re_position := position;
         re_particles := particles;
         re_duration := duration parameters;
         re_spiralLayers := spiralLayers parameters;
         re_particleCount := particleCount parameters;
         re_colorScheme := colorScheme parameters;
         re_physics := true;
         re_lighting := true;
         re_renderQuality := "ultra";
         re_gpuAccelerated := true;
         re_serverRendered := true;
         re_renderTime := renderTime;
         re_advancedPhysics :=
           {| gravity := B64.lit (-9.81);
              windForce := B64.lit 0.5;
              vortexStrength := B64.lit 2.0;
              turbulenceScale := B64.lit 0.8 |} |}.

End Generator.

End Tornado64.

(** ** The relay server *)

(** A connection is identified by a number; [ws._socket.remoteAddress] is
    only ever printed, and the identifier stands for it in the log. *)
Abbreviation Conn := nat (only parsing).

(** [ws.readyState]: the constants 0 to 3 of the [ws] package. *)
Inductive ReadyState : Type :=
| CONNECTING
| OPEN
| CLOSING
| CLOSED.

#[global] Instance ReadyState_eq_dec : EqDecision ReadyState.
Proof. solve_decision. Defined.

(** The script's two globals, [clients] and [messageCount], and the part of
    the [ws] package's state that the script reads: the set [wss.clients]
    (iterated in insertion order) and each socket's [readyState]. *)
Record Server : Type := mkServer {
  clients : gset nat;
  messageCount : nat;
  wss_clients : list nat;
  readyState : nat -> ReadyState
}.

Definition initial : Server :=
  {| clients := ∅;
     messageCount := 0;
     wss_clients := [];
     readyState := fun _ => CONNECTING |}.

(** *** Outbound messages *)

Record RenderedReply : Type := mkRenderedReply {
  rr_type : string;
  rr_effectType : string;
  rr_effectId : option JValue;
  rr_renderTime : num;
  rr_data : RenderedEffect;
  rr_timestamp : num
}.

Record Broadcast : Type := mkBroadcast {
  bc_type : string;
  bc_effectType : string;
  bc_position : Position;
  bc_config : Parameters;
  bc_timestamp : num
}.

Record Echo : Type := mkEcho {
  echo_type : string;
  echo_original : JValue;
  echo_processed : bool;
  echo_port : JValue;
  echo_timestamp : num
}.

Inductive Message : Type :=
| MRendered (m : RenderedReply)
| MBroadcast (m : Broadcast)
| MEcho (m : Echo).

Inductive LogLine : Type :=
| ClientConnected (ws : Conn)
| TornadoRendered (x y : num)
| ParseError
| ClientDisconnected (ws : Conn)
| WebSocketError.

Inductive Output : Type :=
| Send (to : Conn) (m : Message)
| Console (line : LogLine).

(** What a handler run produced.  [NotEmbedded] marks a render request
    whose [config] does not have the shape of [EffectConfig]: its course
    depends on JavaScript coercions that this development does not
    represent; [message_sends] below says what it can send. *)
Inductive Outcome : Type :=
| Outputs (out : list Output)
| NotEmbedded.

(** *** Reading the configuration of a render request *)

Inductive ConfigView : Type :=
| NoConfig          (* [config] undefined or null: TypeError at the destructuring *)
| NoParameters      (* [parameters] undefined or null: TypeError at the loop guard *)
| Typed (config : EffectConfig)
| Untyped.

Definition as_integer (v : option JValue) : option Z :=
  match v with
  | Some (JNum (Fin q)) =>
      if Qeq_bool q (inject_Z (Qtrunc q)) then Some (Qtrunc q) else None
  | _ => None
  end.

Definition as_number (v : option JValue) : option num :=
  match v with
  | Some (JNum n) => Some n
  | _ => None
  end.

Definition as_position (v : option JValue) : option Position :=
  match v with
  | Some (JObj fields) =>
      match as_number (assoc "x" fields), as_number (assoc "y" fields) with
      | Some px, Some py => Some {| pos_x := px; pos_y := py |}
      | _, _ => None
      end
  | _ => None
  end.

Definition as_parameters (fields : list (string * JValue)) : option Parameters :=
  match as_integer (assoc "particleCount" fields),
        as_integer (assoc "spiralLayers" fields) with
  | Some n, Some l =>
      Some {| particleCount := n;
              spiralLayers := l;
              duration := assoc "duration" fields;
              colorScheme := assoc "colorScheme" fields |}
  | _, _ => None
  end.

Definition view_config (config : option JValue) : ConfigView :=
  match config with
  | None | Some JNull => NoConfig
  | Some (JObj fields) =>
      match assoc "parameters" fields with
      | None | Some JNull => NoParameters
      | Some (JObj pfields) =>
          match as_position (assoc "position" fields), as_parameters pfields with
          | Some pos, Some par => Typed {| position := pos; parameters := par |}
          | _, _ => Untyped
          end
      | Some _ => Untyped
      end
  | Some _ => NoParameters
  end.

(** *** The handlers *)

Section Relay.

Variable JSON_parse : string -> option JValue.   (* [None]: SyntaxError *)
Variables Math_cos Math_sin : num -> num.
Variable env_PORT : option string.               (* [process.env.PORT] *)

(** [process.env.PORT || 8765]: the empty string is falsy. *)
Definition PORT : JValue :=
  match env_PORT with
  | Some s => if String.eqb s "" then JNum (of_Z 8765) else JStr s
  | None => JNum (of_Z 8765)
  end.

(** A property read on a value already known not to be null. *)
Definition get (v : JValue) (key : string) : option JValue :=
  match prop v key with
  | Some r => r
  | None => None
  end.

Definition count_message (st : Server) : Server :=
  {| clients := clients st;
     messageCount := S (messageCount st);
     wss_clients := wss_clients st;
     readyState := readyState st |}.

(** The [forEach] over [wss.clients]. *)
Definition broadcast_all (st : Server) (ws : Conn) (broadcast : Broadcast)
    : list Output :=
  flat_map
    (fun client =>
       if bool_decide (client ≠ ws) && bool_decide (readyState st client = OPEN)
       then [Send client (MBroadcast broadcast)]
       else [])
    (wss_clients st).

(** The [render_effect]/[fire_tornado] branch, for a configuration of the
    expected shape. *)
Definition render_branch (st : Server) (ws : Conn) (parsed : JValue)
    (config : EffectConfig) : M (list Output) :=
  effectData <- generateTornadoEffect Math_cos Math_sin config ;;
  t1 <- Date_now ;;
  let reply :=
    {| rr_type := "effect_rendered";
       rr_effectType := "fire_tornado";
       rr_effectId := get parsed "effectId";
       rr_renderTime := re_renderTime effectData;
       rr_data := effectData;
       rr_timestamp := t1 |} in
  let line :=
    TornadoRendered (pos_x (position config)) (pos_y (position config)) in
  t2 <- Date_now ;;
  let broadcast :=
    {| bc_type := "effect_broadcast";
       bc_effectType := "fire_tornado";
       bc_position := position config;
       bc_config := parameters config;
       bc_timestamp := t2 |} in
  ret ([Send ws (MRendered reply); Console line]
         ++ broadcast_all st ws broadcast).

(** The echo branch. *)
Definition echo_branch (ws : Conn) (parsed : JValue) : M (list Output) :=
  t <- Date_now ;;
  ret [Send ws (MEcho {| echo_type := "response";
                         echo_original := parsed;
                         echo_processed := true;
                         echo_port := PORT;
                         echo_timestamp := t |})].

(** The [catch] block. *)
Definition caught : Outcome := Outputs [Console ParseError].

(** [ws.on('message', ...)] *)
Definition on_message (st : Server) (ws : Conn) (data : string)
    : M (Server * Outcome) :=
  let st := count_message st in
  match JSON_parse data with
  | None => ret (st, caught)
  | Some parsed =>
      match prop parsed "command" with
      | None => ret (st, caught)
      | Some command =>
          if strict_eq_str command "render_effect"
             && strict_eq_str (get parsed "effectType") "fire_tornado"
          then
            match view_config (get parsed "config") with
            | NoConfig => ret (st, caught)
            | NoParameters => _ <- Date_now ;; ret (st, caught)
            | Typed config =>
                out <- render_branch st ws parsed config ;;
                ret (st, Outputs out)
            | Untyped => ret (st, NotEmbedded)
            end
          else
            out <- echo_branch ws parsed ;;
            ret (st, Outputs out)
      end
  end.

(** [wss.on('connection', ...)]: the socket joins the roster. *)
Definition on_connection (st : Server) (ws : Conn) : Server * Outcome :=
  ({| clients := {[ws]} ∪ clients st;
      messageCount := messageCount st;
      wss_clients := wss_clients st;
      readyState := readyState st |},
   Outputs [Console (ClientConnected ws)]).

(** [ws.on('close', ...)] *)
Definition on_close (st : Server) (ws : Conn) : Server * Outcome :=
  ({| clients := clients st ∖ {[ws]};
      messageCount := messageCount st;
      wss_clients := wss_clients st;
      readyState := readyState st |},
   Outputs [Console (ClientDisconnected ws)]).

(** [ws.on('error', ...)] *)
Definition on_error (st : Server) (ws : Conn) : Server * Outcome :=
  (st, Outputs [Console WebSocketError]).

(** *** The transport

    The [ws] package is not part of the script.  What the script relies on
    is written out here: a socket is in [wss.clients] and [OPEN] when its
    'connection' event is emitted, [CLOSING] once a closing handshake has
    started, and [CLOSED] and out of [wss.clients] when its 'close' event is
    emitted. *)

Definition set_ready (st : Server) (ws : Conn) (r : ReadyState) (members : list nat)
    : Server :=
  {| clients := clients st;
     messageCount := messageCount st;
     wss_clients := members;
     readyState := fun c => if bool_decide (c = ws) then r else readyState st c |}.

Definition ws_opened (st : Server) (ws : Conn) : Server :=
  set_ready st ws OPEN
    (if bool_decide (ws ∈ wss_clients st) then wss_clients st
     else wss_clients st ++ [ws]).

Definition ws_closing (st : Server) (ws : Conn) : Server :=
  set_ready st ws CLOSING (wss_clients st).

Definition ws_closed (st : Server) (ws : Conn) : Server :=
  set_ready st ws CLOSED (filter (fun c => c ≠ ws) (wss_clients st)).

Inductive Event : Type :=
| Connection (ws : Conn)
| Incoming (ws : Conn) (data : string)
| Closing (ws : Conn)
| Close (ws : Conn)
| Error (ws : Conn).

Definition step (st : Server) (ev : Event) : M (Server * Outcome) :=
  match ev with
  | Connection ws => ret (on_connection (ws_opened st ws) ws)
  | Incoming ws data => on_message st ws data
  | Closing ws => ret (ws_closing st ws, Outputs [])
  | Close ws => ret (on_close (ws_closed st ws) ws)
  | Error ws => ret (on_error st ws)
  end.

Fixpoint run (st : Server) (evs : list Event) : M (Server * list Outcome) :=
  match evs with
  | [] => ret (st, [])
  | ev :: rest =>
      r <- step st ev ;;
      r' <- run (fst r) rest ;;
      ret (fst r', snd r :: snd r')
  end.

End Relay.

(** ** Vocabulary of the properties *)

(** The messages that a list of outputs sends to connection [c], in order. *)
Definition received (out : list Output) (c : Conn) : list Message :=
  flat_map
    (fun o =>
       match o with
       | Send to m => if bool_decide (to = c) then [m] else []
       | Console _ => []
       end)
    out.

(** The particle data that a message carries, if any. *)
Definition particles_in (m : Message) : option (list Particle) :=
  match m with
  | MRendered r => Some (re_particles (rr_data r))
  | MBroadcast _ => None
  | MEcho _ => None
  end.

(** The test of the render branch, on a decoded payload. *)
Definition is_render_request (parsed : JValue) : bool :=
  match prop parsed "command", prop parsed "effectType" with
  | Some command, Some effectType =>
      strict_eq_str command "render_effect"
      && strict_eq_str effectType "fire_tornado"
  | _, _ => false
  end.

(** The discipline of the transport's events: a socket is announced once,
    and it starts closing or closes only between its announcement and its
    close.  [live] holds the sockets announced and not closed, [gone] the
    closed ones. *)
Fixpoint ws_protocol (live gone : gset nat) (evs : list Event) : bool :=
  match evs with
  | [] => true
  | Connection ws :: rest =>
      bool_decide (ws ∉ live) && bool_decide (ws ∉ gone)
      && ws_protocol ({[ws]} ∪ live) gone rest
  | Close ws :: rest =>
      bool_decide (ws ∈ live)
      && ws_protocol (live ∖ {[ws]}) ({[ws]} ∪ gone) rest
  | Closing ws :: rest => bool_decide (ws ∈ live) && ws_protocol live gone rest
  | Incoming ws _ :: rest => ws_protocol live gone rest
  | Error ws :: rest => ws_protocol live gone rest
  end.

Definition is_connection (ev : Event) : bool :=
  match ev with
  | Connection _ => true
  | _ => false
  end.

Definition is_close (ev : Event) : bool :=
  match ev with
  | Close _ => true
  | _ => false
  end.

Definition accepts (evs : list Event) : nat :=
  length (List.filter is_connection evs).

Definition closes (evs : list Event) : nat :=
  length (List.filter is_close evs).

Definition accepted_in (evs : list Event) (c : Conn) : Prop := Connection c ∈ evs.

Definition closed_in (evs : list Event) (c : Conn) : Prop := Close c ∈ evs.

(** A sample of [Math.random]: a finite value in [0, 1). *)
Definition unit_sample (r : num) : Prop :=
  exists q, r = Fin q /\ (0 <= q)%Q /\ (q < 1)%Q.

(** Advancing the tape of random samples by [k] reads. *)
Definition skip_random (k : nat) (h : Host) : Host :=
  mkHost (random_tape h) (k + random_calls h) (clock_tape h) (clock_calls h).

Definition skip_clock (k : nat) (h : Host) : Host :=
  mkHost (random_tape h) (random_calls h) (clock_tape h) (k + clock_calls h).

(** The five colours of the ladder, hottest first. *)
Definition five_colors : list string :=
  ["#ffffff"%string; "#ffff99"%string; "#ffaa00"%string; "#ff6600"%string; "#cc3300"%string].

(** A band of samples: above [lo], up to and including [hi]. *)
Definition band (lo hi : Q) (q : Q) : Prop := (lo < q)%Q /\ (q <= hi)%Q.

(** The state that one event leads to. *)
Definition next_state (st : Server) (ev : Event) : Server :=
  match ev with
  | Connection ws => fst (on_connection (ws_opened st ws) ws)
  | Incoming _ _ => count_message st
  | Closing ws => ws_closing st ws
  | Close ws => fst (on_close (ws_closed st ws) ws)
  | Error _ => st
  end.

(** The roster agrees with the transport's history: it holds the live
    sockets, and so does [wss.clients], without repetition; the closed ones
    are [CLOSED], and no socket is both live and closed. *)
Definition roster_inv (st : Server) (live gone : gset nat) : Prop :=
  clients st = live /\
  (forall c, c ∈ wss_clients st <-> c ∈ live) /\
  NoDup (wss_clients st) /\
  (forall c, c ∈ gone -> readyState st c = CLOSED) /\
  live ## gone.

(** The state reached from [st] by a list of events. *)
Definition state_after (JSON_parse : string -> option JValue)
    (Math_cos Math_sin : num -> num) (env_PORT : option string)
    (st : Server) (evs : list Event) (h : Host) : Server :=
  fst (fst (run JSON_parse Math_cos Math_sin env_PORT st evs h)).

(** What the handler of 'message' produces. *)
Definition outcome_of (JSON_parse : string -> option JValue)
    (Math_cos Math_sin : num -> num) (env_PORT : option string)
    (st : Server) (ws : Conn) (data : string) (h : Host) : Outcome :=
  snd (fst (on_message JSON_parse Math_cos Math_sin env_PORT st ws data h)).

(** The two objects that the render branch builds when it starts in host
    [h]. *)
Definition reply_of (Math_cos Math_sin : num -> num) (parsed : JValue)
    (config : EffectConfig) (h : Host) : RenderedReply :=
  let g := generateTornadoEffect Math_cos Math_sin config h in
  {| rr_type := "effect_rendered";
     rr_effectType := "fire_tornado";
     rr_effectId := get parsed "effectId";
     rr_renderTime := re_renderTime (fst g);
     rr_data := fst g;
     rr_timestamp := fst (Date_now (snd g)) |}.

Definition broadcast_of (Math_cos Math_sin : num -> num)
    (config : EffectConfig) (h : Host) : Broadcast :=
  let g := generateTornadoEffect Math_cos Math_sin config h in
  {| bc_type := "effect_broadcast";
     bc_effectType := "fire_tornado";
     bc_position := position config;
     bc_config := parameters config;
     bc_timestamp := fst (Date_now (snd (Date_now (snd g)))) |}.

(** The [k]-th sample that [Math.random] will return from host [h]. *)
Definition sample (h : Host) (k : nat) : num :=
  random_tape h (k + random_calls h).

(** The particle that pass [i] of the loop builds when the loop starts in
    host [h]: pass [i] begins after [5 * i] reads of the random tape. *)
Definition particle_at (Math_cos Math_sin : num -> num) (config : EffectConfig)
    (h : Host) (i : nat) : Particle :=
  fst (tornado_particle Math_cos Math_sin (position config) (parameters config)
         i (skip_random (5 * i) h)).

(** ** The browser side

    The second script holds the two classes that talk to the relay from the
    browser: [DualVQConnector] opens the sockets, [VortexQuantumBridge]
    keeps a registry of modules, an event log and a list of instances over
    which it balances requests.  Console output and the timers are left
    out; a [Date] is represented by its time value, a function object and
    an instance's [ref] by a handle. *)

(** [Array.prototype.slice(start)] for an integer [start]: a negative
    [start] counts from the end. *)
Definition slice_from {A : Type} (start : Z) (l : list A) : list A :=
  if start <? 0 then drop (Z.to_nat (Z.of_nat (length l) + start)) l
  else drop (Z.to_nat start) l.

(** [Array.prototype.slice(start, stop)] for indices that are not
    negative. *)
Definition slice {A : Type} (start stop : nat) (l : list A) : list A :=
  take (stop - start) (drop start l).

(** [s.includes(part)] *)
Definition includes (s part : string) : bool :=
  match String.index 0 part s with
  | Some _ => true
  | None => false
  end.

Module Connector.

(** The two sockets of [DualVQConnector]. *)
Inductive Socket : Type :=
| VQ1
| VQ2.

Record Stats : Type := mkStats {
  vq1Connected : bool;
  vq2Connected : bool;
  vq1Messages : nat;
  vq2Messages : nat;
  startTime : num
}.

Definition count_frame (which : Socket) (stats : Stats) : Stats :=
  match which with
  | VQ1 =>
      {| vq1Connected := vq1Connected stats;
         vq2Connected := vq2Connected stats;
         vq1Messages := S (vq1Messages stats);
         vq2Messages := vq2Messages stats;
         startTime := startTime stats |}
  | VQ2 =>
      {| vq1Connected := vq1Connected stats;
         vq2Connected := vq2Connected stats;
         vq1Messages := vq1Messages stats;
         vq2Messages := S (vq2Messages stats);
         startTime := startTime stats |}
  end.

(** The object that [logSecurityEvent] serialises. *)
Definition security_event (event : JValue) : JValue :=
  JObj [("type"%string, JStr "security-event"); ("data"%string, event)].

(** [vq.logSecurityEvent(event)]: counts the frame, then hands the object
    to [ws.send (JSON.stringify ...)]. *)
Definition logSecurityEvent (which : Socket) (stats : Stats) (event : JValue)
    : Stats * (Socket * JValue) :=
  (count_frame which stats, (which, security_event event)).

(** [vq.send(data)] *)
Definition send (which : Socket) (stats : Stats) (data : JValue)
    : Stats * (Socket * JValue) :=
  (count_frame which stats, (which, data)).

End Connector.

Module Bridge.

(** An entry of [eventLog]. *)
Record LogEntry : Type := mkLogEntry {
  timestamp : num;
  type : string;
  data : JValue
}.

(** A registered module ([moduleContext]). *)
Record ModuleContext : Type := mkModuleContext {
  id : string;
  name : string;
  registered : num;
  callbacks : nat;
  events : list LogEntry
}.

(** An entry of [vqInstances]. *)
Record VQInstance : Type := mkVQInstance {
  inst_name : string;
  inst_ref : nat;
  inst_version : string;
  inst_connected : bool;
  healthy : bool;
  lastHealthCheck : num;
  requestCount : nat;
  inst_avgResponseTime : num;
  failureCount : nat;
  inst_timestamp : num
}.

Record Metrics : Type := mkMetrics {
  requestsProcessed : nat;
  avgResponseTime : num;
  vq1Requests : nat;
  vq2Requests : nat;
  failovers : nat;
  parallelBoost : num
}.

Record T : Type := mkBridge {
  modulesConnected : list ModuleContext;
  eventLog : list LogEntry;
  vqInstances : list VQInstance;
  currentInstanceIndex : nat;
  loadBalanceMode : string;
  performanceMetrics : Metrics
}.

(** The constructor. *)
Definition fresh : T :=
  {| modulesConnected := [];
     eventLog := [];
     vqInstances := [];
     currentInstanceIndex := 0;
     loadBalanceMode := "round-robin";
     performanceMetrics :=
       {| requestsProcessed := 0;
          avgResponseTime := of_Z 0;
          vq1Requests := 0;
          vq2Requests := 0;
          failovers := 0;
          parallelBoost := of_Z 0 |} |}.

Definition set_eventLog (b : T) (log : list LogEntry) : T :=
  {| modulesConnected := modulesConnected b;
     eventLog := log;
     vqInstances := vqInstances b;
     currentInstanceIndex := currentInstanceIndex b;
     loadBalanceMode := loadBalanceMode b;
     performanceMetrics := performanceMetrics b |}.

Definition set_modulesConnected (b : T) (modules : list ModuleContext) : T :=
  {| modulesConnected := modules;
     eventLog := eventLog b;
     vqInstances := vqInstances b;
     currentInstanceIndex := currentInstanceIndex b;
     loadBalanceMode := loadBalanceMode b;
     performanceMetrics := performanceMetrics b |}.

Definition set_currentInstanceIndex (b : T) (index : nat) : T :=
  {| modulesConnected := modulesConnected b;
     eventLog := eventLog b;
     vqInstances := vqInstances b;
     currentInstanceIndex := index;
     loadBalanceMode := loadBalanceMode b;
     performanceMetrics := performanceMetrics b |}.

Definition set_performanceMetrics (b : T) (metrics : Metrics) : T :=
  {| modulesConnected := modulesConnected b;
     eventLog := eventLog b;
     vqInstances := vqInstances b;
     currentInstanceIndex := currentInstanceIndex b;
     loadBalanceMode := loadBalanceMode b;
     performanceMetrics := metrics |}.

(** [logEvent(eventType, eventData)]: the entry is pushed, and a log that
    has grown beyond 1000 entries is cut to its last 500. *)
Definition logEvent (b : T) (eventType : string) (eventData : JValue) : M T :=
  now <- Date_now ;;
  let event := {| timestamp := now; type := eventType; data := eventData |} in
  let log := eventLog b ++ [event] in
  ret (set_eventLog b
         (if (1000 <? length log)%nat then slice_from (-500) log else log)).

(** The argument of [getEventLog]; an absent field is [undefined]. *)
Record LogFilter : Type := mkLogFilter {
  filter_type : option string;
  filter_moduleId : option string;
  filter_limit : option Z
}.

(** Truthiness of a string and of an integer that may be undefined. *)
Definition truthy_string (v : option string) : bool :=
  match v with
  | Some s => negb (String.eqb s "")
  | None => false
  end.

Definition truthy_integer (v : option Z) : bool :=
  match v with
  | Some k => negb (k =? 0)
  | None => false
  end.

(** [getEventLog(filter)] *)
Definition getEventLog (b : T) (filter : LogFilter) : list LogEntry :=
  let log := eventLog b in
  let log :=
    if truthy_string (filter_type filter)
    then List.filter
           (fun e => String.eqb (type e) (default ""%string (filter_type filter)))
           log
    else log in
  let log :=
    if truthy_string (filter_moduleId filter)
    then List.filter
           (fun e => strict_eq_str (get (data e) "moduleId")
                       (default ""%string (filter_moduleId filter)))
           log
    else log in
  if truthy_integer (filter_limit filter)
  then slice_from (- default 0 (filter_limit filter)) log
  else log.

(** [registerModule(moduleId, moduleName, callbacks)] *)
Definition registerModule (b : T) (moduleId moduleName : string)
    (callbacks : nat) : M (T * ModuleContext) :=
  now <- Date_now ;;
  let moduleContext :=
    {| id := moduleId;
       name := moduleName;
       registered := now;
       callbacks := callbacks;
       events := [] |} in
  let b := set_modulesConnected b (modulesConnected b ++ [moduleContext]) in
  b <- logEvent b "MODULE_REGISTERED"
         (JObj [("moduleId"%string, JStr moduleId);
                ("moduleName"%string, JStr moduleName)]) ;;
  ret (b, moduleContext).

(** [unregisterModule(moduleId)] *)
Definition unregisterModule (b : T) (moduleId : string) : M T :=
  let b :=
    set_modulesConnected b
      (List.filter (fun m => negb (String.eqb (id m) moduleId))
         (modulesConnected b)) in
  logEvent b "MODULE_UNREGISTERED" (JObj [("moduleId"%string, JStr moduleId)]).

(** [getModuleContext(moduleId)]: [None] is [undefined]. *)
Definition getModuleContext (b : T) (moduleId : string) : option ModuleContext :=
  List.find (fun m => String.eqb (id m) moduleId) (modulesConnected b).

(** [getHealthyInstances()] *)
Definition getHealthyInstances (b : T) : list VQInstance :=
  List.filter healthy (vqInstances b).

(** [getNextInstance()]: [None] is [null]. *)
Definition getNextInstance (b : T) : T * option VQInstance :=
  let healthyInstances := List.filter healthy (vqInstances b) in
  if (length healthyInstances =? 0)%nat then (b, None)
  else
    let index := ((currentInstanceIndex b + 1) mod length healthyInstances)%nat in
    (set_currentInstanceIndex b index, healthyInstances !! index).

(** The loop at the end of [updateMetrics]: an instance that has served
    requests reports its count under [vq1Requests] or [vq2Requests],
    according to its name. *)
Definition report_instance (metrics : Metrics) (inst : VQInstance) : Metrics :=
  if (0 <? requestCount inst)%nat then
    if includes (inst_name inst) "1" || includes (inst_name inst) "Primary" then
      {| requestsProcessed := requestsProcessed metrics;
         avgResponseTime := avgResponseTime metrics;
         vq1Requests := requestCount inst;
         vq2Requests := vq2Requests metrics;
         failovers := failovers metrics;
         parallelBoost := parallelBoost metrics |}
    else if includes (inst_name inst) "2" || includes (inst_name inst) "Secondary" then
      {| requestsProcessed := requestsProcessed metrics;
         avgResponseTime := avgResponseTime metrics;
         vq1Requests := vq1Requests metrics;
         vq2Requests := requestCount inst;
         failovers := failovers metrics;
         parallelBoost := parallelBoost metrics |}
    else metrics
  else metrics.

(** [updateMetrics(duration, success)]; the average is computed in
    binary64. *)
Definition updateMetrics (b : T) (duration : num) (success : bool) : T :=
  let metrics := performanceMetrics b in
  let count := S (requestsProcessed metrics) in
  let prevAvg := avgResponseTime metrics in
  let metrics :=
    {| requestsProcessed := count;
       avgResponseTime :=
         B64.div
           (B64.add (B64.mul prevAvg (B64.sub (of_nat count) (of_Z 1))) duration)
           (of_nat count);
       vq1Requests := vq1Requests metrics;
       vq2Requests := vq2Requests metrics;
       failovers := failovers metrics;
       parallelBoost := parallelBoost metrics |} in
  set_performanceMetrics b (fold_left report_instance (vqInstances b) metrics).

(** In [executeSharded]: [Math.ceil(shards.length / instances.length)],
    which for a positive number of instances is the integer quotient of
    [length + instances - 1] by [instances], and the slice of the shards
    that the instance of index [idx] is given. *)
Definition shardsPerInstance {A : Type} (shards : list A) (instances : nat) : nat :=
  ((length shards + instances - 1) / instances)%nat.

Definition instanceShards {A : Type} (shards : list A) (instances idx : nat)
    : list A :=
  slice (idx * shardsPerInstance shards instances)
        ((idx + 1) * shardsPerInstance shards instances) shards.

(** A call of one of the methods above. *)
Inductive Call : Type :=
| CallLogEvent (eventType : string) (eventData : JValue)
| CallRegisterModule (moduleId moduleName : string) (callbacks : nat)
| CallUnregisterModule (moduleId : string)
| CallGetNextInstance
| CallUpdateMetrics (duration : num) (success : bool).

Definition call (b : T) (c : Call) : M T :=
  match c with
  | CallLogEvent eventType eventData => logEvent b eventType eventData
  | CallRegisterModule moduleId moduleName callbacks =>
      r <- registerModule b moduleId moduleName callbacks ;; ret (fst r)
  | CallUnregisterModule moduleId => unregisterModule b moduleId
  | CallGetNextInstance => ret (fst (getNextInstance b))
  | CallUpdateMetrics duration success => ret (updateMetrics b duration success)
  end.

Fixpoint calls (b : T) (cs : list Call) : M T :=
  match cs with
  | [] => ret b
  | c :: rest => b' <- call b c ;; calls b' rest
  end.

End Bridge.

(** ** Further vocabulary *)

Definition is_incoming (ev : Event) : bool :=
  match ev with
  | Incoming _ _ => true
  | _ => false
  end.

(** The number of 'message' events of a history. *)
Definition incoming (evs : list Event) : nat :=
  length (List.filter is_incoming evs).

(** The members of [wss.clients] other than [ws] that are [OPEN], in the
    order of iteration. *)
Definition open_others (st : Server) (ws : Conn) : list nat :=
  filter (fun c => c ≠ ws /\ readyState st c = OPEN) (wss_clients st).

#[global] Instance Q_eq_dec : EqDecision Q.
Proof. solve_decision. Defined.

#[global] Instance num_eq_dec : EqDecision num.
Proof. solve_decision. Defined.

(** The particles of a list that lie on layer [l]. *)
Definition on_layer (l : Z) (particles : list Particle) : list Particle :=
  filter (fun p => layer p = of_Z l) particles.

(** [k] successive calls of [getNextInstance], with what each returned. *)
Fixpoint take_turns (k : nat) (b : Bridge.T)
    : Bridge.T * list (option Bridge.VQInstance) :=
  match k with
  | O => (b, [])
  | S k' =>
      let r := Bridge.getNextInstance b in
      let r' := take_turns k' (fst r) in
      (fst r', snd r :: snd r')
  end.

(** [updateMetrics] called once for each of a list of finite durations. *)
Definition record_durations (b : Bridge.T) (durations : list Q) : Bridge.T :=
  fold_left (fun b d => Bridge.updateMetrics b (Fin d) true) durations b.

Definition Qsum (l : list Q) : Q := fold_right Qplus 0%Q l.

(** A bridge with two instances, both healthy. *)
Definition sample_instance (name : string) (ref : nat) : Bridge.VQInstance :=
  {| Bridge.inst_name := name;
     Bridge.inst_ref := ref;
     Bridge.inst_version := "3.0.0";
     Bridge.inst_connected := true;
     Bridge.healthy := true;
     Bridge.lastHealthCheck := of_Z 1700000000000;
     Bridge.requestCount := 0;
     Bridge.inst_avgResponseTime := of_Z 0;
     Bridge.failureCount := 0;
     Bridge.inst_timestamp := of_Z 1700000000000 |}.

Definition sample_bridge : Bridge.T :=
  {| Bridge.modulesConnected := [];
     Bridge.eventLog := [];
     Bridge.vqInstances := [sample_instance "VQ1" 1; sample_instance "VQ2" 2];
     Bridge.currentInstanceIndex := 0;
     Bridge.loadBalanceMode := "round-robin";
     Bridge.performanceMetrics := Bridge.performanceMetrics Bridge.fresh |}.

(** The particle that pass [i] of the rounded loop builds when the loop
    starts in host [h]. *)
Definition particle_at64 (Math_cos Math_sin : num -> num) (config : EffectConfig)
    (h : Host) (i : nat) : Particle :=
  fst (Tornado64.tornado_particle Math_cos Math_sin (position config)
         (parameters config) i (skip_random (5 * i) h)).

(** The durations all lie between two whole numbers of milliseconds. *)
Definition durations_within (lo hi : Z) (durations : list Q) : Prop :=
  Forall (fun d => (inject_Z lo <= d)%Q /\ (d <= inject_Z hi)%Q) durations.

(** The expression that [updateMetrics] assigns to [avgResponseTime]. *)
Definition next_average (prevAvg duration : num) (count : nat) : num :=
  B64.div
    (B64.add (B64.mul prevAvg (B64.sub (of_nat count) (of_Z 1))) duration)
    (of_nat count).

(** *** What a message makes the handler send

    The [type] field of an outbound message, and the sends of a list of
    outputs: destination and kind, in order. *)
Inductive Kind : Type :=
| EffectRendered
| EffectBroadcast
| Response.

#[global] Instance Kind_eq_dec : EqDecision Kind.
Proof. solve_decision. Defined.

Definition kind_of (m : Message) : Kind :=
  match m with
  | MRendered _ => EffectRendered
  | MBroadcast _ => EffectBroadcast
  | MEcho _ => Response
  end.

Definition sends_of (out : list Output) : list (nat * Kind) :=
  flat_map
    (fun o =>
       match o with
       | Send to m => [(to, kind_of m)]
       | Console _ => []
       end)
    out.

(** A render request whose [config] does not have the shape of
    [EffectConfig] still runs the render branch, and how far it gets is
    decided by coercions of the field values.  The branch has two places
    that can raise: the call of [generateTornadoEffect], before anything is
    sent (it may also never return, for a count that coerces to
    [Infinity]), and the console line, which calls [toFixed] on
    [position.x] and [position.y] after the reply has been sent and before
    the broadcast loop.  The loop itself does not raise. *)
Inductive Course : Type :=
| RaisesBeforeReply
| RaisesAfterReply
| Completes.

Definition sends_of_course (st : Server) (ws : Conn) (course : Course)
    : list (nat * Kind) :=
  match course with
  | RaisesBeforeReply => []
  | RaisesAfterReply => [(ws, EffectRendered)]
  | Completes =>
      (ws, EffectRendered)
      :: map (fun client => (client, EffectBroadcast)) (open_others st ws)
  end.

Section AnyMessage.

Variable JSON_parse : string -> option JValue.
Variables Math_cos Math_sin : num -> num.
Variable env_PORT : option string.

(** The course of the render branch on a request that is not embedded. *)
Variable render_course : JValue -> Course.

(** The sends of the 'message' handler, for every message. *)
Definition message_sends (st : Server) (ws : Conn) (data : string) (h : Host)
    : list (nat * Kind) :=
  match outcome_of JSON_parse Math_cos Math_sin env_PORT st ws data h with
  | Outputs out => sends_of out
  | NotEmbedded =>
      match JSON_parse data with
      | Some parsed => sends_of_course st ws (render_course parsed)
      | None => []
      end
  end.

End AnyMessage.


(** *** Rocq's primitive floats

    The kernel computes with binary64 numbers of its own.  They are used
    here for one thing only: to compare [round64] with them on samples. *)
Definition num_of_float (f : PrimFloat.float) : num :=
  match FloatOps.Prim2SF f with
  | SpecFloat.S754_zero _ => Fin 0
  | SpecFloat.S754_infinity false => PosInf
  | SpecFloat.S754_infinity true => NegInf
  | SpecFloat.S754_nan => NaN
  | SpecFloat.S754_finite s m e =>
      Fin (Qred ((if s then -1 else 1) * inject_Z (Zpos m) * pow2 e))
  end.

Definition float_of_Z (z : Z) : PrimFloat.float :=
  if z <? 0 then PrimFloat.opp (PrimFloat.of_uint63 (Uint63.of_Z (- z)))
  else PrimFloat.of_uint63 (Uint63.of_Z z).

Definition num_eqb (a b : num) : bool :=
  match a, b with
  | Fin p, Fin q => Qeq_bool p q
  | NaN, NaN | PosInf, PosInf | NegInf, NegInf => true
  | _, _ => false
  end.

(** The four operators agree on a pair of operands. *)
Definition agree (a b : PrimFloat.float) : bool :=
  num_eqb (num_of_float (PrimFloat.add a b))
    (B64.add (num_of_float a) (num_of_float b))
  && num_eqb (num_of_float (PrimFloat.sub a b))
       (B64.sub (num_of_float a) (num_of_float b))
  && num_eqb (num_of_float (PrimFloat.mul a b))
       (B64.mul (num_of_float a) (num_of_float b))
  && num_eqb (num_of_float (PrimFloat.div a b))
       (B64.div (num_of_float a) (num_of_float b)).

(** Integers, fractions that are not dyadic, the end of the integer range,
    the last sample below 1, the largest number, the smallest one and
    [Math.PI]. *)
Definition float_samples : list PrimFloat.float :=
  let f := float_of_Z in
  [f 0; f 1; f 3; f 75; f (-7);
   PrimFloat.div (f 1) (f 3); PrimFloat.div (f 1) (f 10);
   f (2 ^ 53);
   PrimFloat.div (f (2 ^ 53 - 1)) (f (2 ^ 53));
   FloatOps.Z.ldexp (f (2 ^ 53 - 1)) 971;
   FloatOps.Z.ldexp (f 1) (-1074);
   FloatOps.Z.ldexp (f 884279719003555) (-48)].

(** ** Sample inputs *)

Local Open Scope string_scope.

(** A host whose random tape cycles through 0, 1/7, ..., 6/7 and whose
    clock advances by three milliseconds per reading. *)
Definition sample_host : Host :=
  {| random_tape := fun k => Fin (Z.of_nat (k mod 7) # 7);
     random_calls := 0;
     clock_tape := fun k => of_Z (1700000000000 + 3 * Z.of_nat k);
     clock_calls := 0 |}.

Definition sample_config (n l : Z) : EffectConfig :=
  {| position := {| pos_x := of_Z 10; pos_y := of_Z 20 |};
     parameters := {| particleCount := n;
                      spiralLayers := l;
                      duration := Some (JNum (of_Z 3000));
                      colorScheme := Some (JStr "fire") |} |}.

(** The decoded render request for [n] particles on [l] layers. *)
Definition render_request (n l : Z) : JValue :=
  JObj [("command", JStr "render_effect");
        ("effectType", JStr "fire_tornado");
        ("effectId", JStr "tornado-1");
        ("config",
         JObj [("position", JObj [("x", JNum (of_Z 10)); ("y", JNum (of_Z 20))]);
               ("parameters",
                JObj [("particleCount", JNum (of_Z n));
                      ("spiralLayers", JNum (of_Z l));
                      ("duration", JNum (of_Z 3000));
                      ("colorScheme", JStr "fire")])])].

(** A render request that carries no [config]. *)
Definition bare_render_request : JValue :=
  JObj [("command", JStr "render_effect"); ("effectType", JStr "fire_tornado")].

(** A render request with the wrong effect type, and a payload without a
    command. *)
Definition other_effect_request : JValue :=
  JObj [("command", JStr "render_effect"); ("effectType", JStr "ice_storm")].

Definition ping_payload : JValue := JObj [("ping", JBool true)].

(** A parser that knows the text [null] and nothing else. *)
Definition parse_null_only (data : string) : option JValue :=
  if String.eqb data "null" then Some JNull else None.

(** Three sockets: 1 and 2 open, 3 closing. *)
Definition sample_server : Server :=
  {| clients := {[1%nat; 2%nat; 3%nat]};
     messageCount := 41;
     wss_clients := [1%nat; 2%nat; 3%nat];
     readyState := fun c =>
       if bool_decide (c = 1%nat) || bool_decide (c = 2%nat) then OPEN
       else if bool_decide (c = 3%nat) then CLOSING
       else CONNECTING |}.

Definition sample_trace : list Event :=
  [Connection 1%nat; Connection 2%nat; Incoming 1%nat "a"; Closing 2%nat;
   Close 2%nat; Connection 3%nat; Error 3%nat; Close 1%nat].

(** Two particles on [2^53] layers. *)
Definition many_layers : Z := 2 ^ 53.

(** The largest sample that [Math.random] can return, [1 - 2^-53], and a
    host that returns it every time. *)
Definition last_sample : Q := 9007199254740991 # 9007199254740992.

Definition top_host : Host :=
  {| random_tape := fun _ => Fin last_sample;
     random_calls := 0;
     clock_tape := fun k => of_Z (1700000000000 + 3 * Z.of_nat k);
     clock_calls := 0 |}.

Definition config_at_height (py : Z) (n l : Z) : EffectConfig :=
  {| position := {| pos_x := of_Z 10; pos_y := of_Z py |};
     parameters := {| particleCount := n;
                      spiralLayers := l;
                      duration := None;
                      colorScheme := None |} |}.

(** Eight durations whose mean is 31.25. *)
Definition eight_durations : list Q := [28; 43; 2; 27; 38; 42; 50; 20]%Q.

(** A render request for two and a half particles. *)
Definition fractional_request : JValue :=
  JObj [("command", JStr "render_effect");
        ("effectType", JStr "fire_tornado");
        ("config",
         JObj [("position", JObj [("x", JNum (of_Z 10)); ("y", JNum (of_Z 20))]);
               ("parameters",
                JObj [("particleCount", JNum (Fin (5 # 2)));
                      ("spiralLayers", JNum (of_Z 2))])])].

Local Close Scope string_scope.

(** ** Facts about the number operators *)

Lemma Qred_inject_Z (z : Z) : Qred (inject_Z z) = inject_Z z.
Proof.
  apply Qred_identity. simpl. apply Z.gcd_1_r.
Qed.

Lemma Qred_eq_inject_Z (q : Q) (z : Z) : q == inject_Z z -> Qred q = inject_Z z.
Proof.
  intros H. rewrite <- (Qred_inject_Z z). now apply Qred_complete.
Qed.

Lemma Qeq_bool_inject_Z_0 (b : Z) : b <> 0 -> Qeq_bool (inject_Z b) 0 = false.
Proof.
  intros Hb. destruct (Qeq_bool (inject_Z b) 0) eqn:E; [|reflexivity].
  apply Qeq_bool_eq in E. unfold Qeq in E. simpl in E. lia.
Qed.

Lemma Qtrunc_div_inject_Z (a b : Z) :
  b <> 0 -> Qtrunc (inject_Z a / inject_Z b) = Z.quot a b.
Proof.
  intros Hb. unfold Qtrunc, Qdiv, Qinv, Qmult, inject_Z. simpl.
  destruct b as [|p|p]; [congruence| |]; simpl.
  - now rewrite Z.mul_1_r.
  - rewrite <- (Z.quot_opp_opp a (Z.neg p)) by discriminate.
    simpl. f_equal. lia.
Qed.

Lemma add_of_Z (a b : Z) : JS.add (of_Z a) (of_Z b) = of_Z (a + b).
Proof.
  unfold of_Z. simpl. f_equal. apply Qred_eq_inject_Z.
  now rewrite inject_Z_plus.
Qed.

Lemma mul_of_Z (a b : Z) : JS.mul (of_Z a) (of_Z b) = of_Z (a * b).
Proof.
  unfold of_Z. simpl. f_equal. apply Qred_eq_inject_Z.
  now rewrite inject_Z_mult.
Qed.

(** On integers with a non-zero divisor, [%] is the truncated remainder. *)
Lemma rem_of_Z (a b : Z) : b <> 0 -> JS.rem (of_Z a) (of_Z b) = of_Z (Z.rem a b).
Proof.
  intros Hb. unfold of_Z, JS.rem.
  rewrite Qeq_bool_inject_Z_0 by assumption. f_equal.
  rewrite Qtrunc_div_inject_Z by assumption.
  apply Qred_eq_inject_Z.
  rewrite <- inject_Z_mult. unfold Qminus.
  rewrite <- inject_Z_opp, <- inject_Z_plus.
  replace (a + - (b * Z.quot a b)) with (Z.rem a b); [reflexivity|].
  rewrite (Z.quot_rem' a b) at 2. ring.
Qed.

(** A zero divisor makes [%] NaN, whatever the dividend. *)
Lemma rem_by_zero (a : num) : JS.rem a (of_Z 0) = NaN.
Proof. destruct a; reflexivity. Qed.

Lemma lt_Fin (p q : Q) : JS.lt (Fin p) (Fin q) = true <-> (p < q)%Q.
Proof.
  simpl. rewrite Qlt_alt. destruct (p ?= q)%Q; split; congruence.
Qed.

Lemma lt_of_Z (a b : Z) : JS.lt (of_Z a) (of_Z b) = true <-> a < b.
Proof.
  unfold of_Z. rewrite lt_Fin. unfold Qlt. simpl. lia.
Qed.

Lemma of_Z_inj (a b : Z) : of_Z a = of_Z b -> a = b.
Proof. unfold of_Z, inject_Z. congruence. Qed.

Lemma of_nat_inj (a b : nat) : of_nat a = of_nat b -> a = b.
Proof. unfold of_nat. intros H. apply of_Z_inj in H. lia. Qed.

(** The loop guard [i < particleCount] holds exactly below
    [Z.to_nat particleCount]. *)
Lemma loop_guard (i : nat) (N : Z) :
  JS.lt (of_nat i) (of_Z N) = true <-> (i < Z.to_nat N)%nat.
Proof.
  unfold of_nat. rewrite lt_of_Z. lia.
Qed.

(** ** Binary64 rounding: facts *)

(** *** Powers of two *)

Lemma pow2_pos (e : Z) : (0 < pow2 e)%Q.
Proof. apply Qpower_0_lt. reflexivity. Qed.

Lemma pow2_add (a b : Z) : (pow2 (a + b) == pow2 a * pow2 b)%Q.
Proof. apply Qpower_plus. discriminate. Qed.

Lemma pow2_le (a b : Z) : a <= b -> (pow2 a <= pow2 b)%Q.
Proof. intros H. apply Qpower_le_compat_l; [assumption|discriminate]. Qed.

Lemma pow2_lt (a b : Z) : a < b -> (pow2 a < pow2 b)%Q.
Proof. intros H. apply Qpower_lt_compat_l; [assumption|reflexivity]. Qed.

Lemma pow2_lt_inv (a b : Z) : (pow2 a < pow2 b)%Q -> a < b.
Proof.
  intros H. destruct (Z_lt_ge_dec a b) as [|Hge]; [assumption|].
  assert (pow2 b <= pow2 a)%Q by (apply pow2_le; lia). lra.
Qed.

Lemma pow2_Z (e : Z) : 0 <= e -> (pow2 e == inject_Z (2 ^ e))%Q.
Proof. intros H. unfold pow2. now rewrite Zpower_Qpower. Qed.

Lemma pow2_0 : (pow2 0 == 1)%Q.
Proof. reflexivity. Qed.

Lemma pow2_S (e : Z) : (pow2 (e + 1) == 2 * pow2 e)%Q.
Proof. rewrite pow2_add. change (pow2 1) with 2%Q. ring. Qed.

Lemma pow2_cancel (e : Z) : (pow2 e * pow2 (- e) == 1)%Q.
Proof. rewrite <- pow2_add. now replace (e + - e) with 0 by lia. Qed.

(** *** The binary logarithm *)

(** [ilog2 q] is the exponent of the binade of [q]. *)
Lemma ilog2_spec (q : Q) :
  (0 < q)%Q -> (pow2 (ilog2 q) <= q)%Q /\ (q < pow2 (ilog2 q + 1))%Q.
Proof.
  intros Hq. destruct q as [n d]. unfold ilog2. cbn [Qnum Qden].
  assert (Hn : 0 < n) by (unfold Qlt in Hq; simpl in Hq; lia).
  set (ln := Z.log2 n). set (ld := Z.log2 (Zpos d)).
  destruct (Z.log2_spec n Hn) as [Hn1 Hn2]. fold ln in Hn1, Hn2.
  destruct (Z.log2_spec (Zpos d) eq_refl) as [Hd1 Hd2]. fold ld in Hd1, Hd2.
  assert (Hln : 0 <= ln) by apply Z.log2_nonneg.
  assert (Hld : 0 <= ld) by apply Z.log2_nonneg.
  assert (Hqd : (n # d == inject_Z n * / inject_Z (Zpos d))%Q) by apply Qmake_Qdiv.
  assert (Hdpos : (0 < inject_Z (Zpos d))%Q) by reflexivity.
  assert (Hmul : ((n # d) * inject_Z (Zpos d) == inject_Z n)%Q).
  { rewrite Hqd. field. discriminate. }
  (* bounds in Q *)
  assert (B1 : (pow2 ln <= inject_Z n)%Q).
  { rewrite pow2_Z by assumption. rewrite <- Zle_Qle. assumption. }
  assert (B2 : (inject_Z n < pow2 (ln + 1))%Q).
  { rewrite pow2_Z by lia. rewrite <- Zlt_Qlt. replace (ln + 1) with (Z.succ ln) by lia. assumption. }
  assert (B3 : (pow2 ld <= inject_Z (Zpos d))%Q).
  { rewrite pow2_Z by assumption. rewrite <- Zle_Qle. assumption. }
  assert (B4 : (inject_Z (Zpos d) < pow2 (ld + 1))%Q).
  { rewrite pow2_Z by lia. rewrite <- Zlt_Qlt. replace (ld + 1) with (Z.succ ld) by lia. assumption. }
  (* lower: pow2 (ln - ld - 1) <= q ; upper: q < pow2 (ln - ld + 1) *)
  assert (L : (pow2 (ln - ld - 1) <= n # d)%Q).
  { apply Qmult_le_r with (z := pow2 (ld + 1)); [apply pow2_pos|].
    rewrite <- pow2_add. replace (ln - ld - 1 + (ld + 1)) with ln by lia.
    apply Qle_trans with (inject_Z n); [assumption|].
    rewrite <- Hmul. apply Qmult_le_l; [assumption|]. apply Qlt_le_weak. assumption. }
  assert (U : (n # d < pow2 (ln - ld + 1))%Q).
  { apply Qmult_lt_r with (z := inject_Z (Zpos d)); [assumption|].
    rewrite Hmul. apply Qlt_le_trans with (pow2 (ln + 1)); [assumption|].
    replace (ln + 1) with ((ln - ld + 1) + ld) by lia. rewrite pow2_add.
    apply Qmult_le_l; [apply pow2_pos|assumption]. }
  destruct (Qle_bool (pow2 (ln - ld)) (n # d)) eqn:E.
  - apply Qle_bool_iff in E. split; assumption.
  - split; [assumption|].
    replace (ln - ld - 1 + 1) with (ln - ld) by lia.
    apply Qnot_le_lt. intros H. apply Qle_bool_iff in H. congruence.
Qed.

Lemma ilog2_unique (q : Q) (e : Z) :
  (pow2 e <= q)%Q -> (q < pow2 (e + 1))%Q -> ilog2 q = e.
Proof.
  intros H1 H2.
  assert (Hq : (0 < q)%Q) by (pose proof (pow2_pos e); lra).
  destruct (ilog2_spec q Hq) as [S1 S2].
  assert (ilog2 q < e + 1) by (apply pow2_lt_inv; lra).
  assert (e < ilog2 q + 1) by (apply pow2_lt_inv; lra).
  lia.
Qed.

Lemma ilog2_comp (p q : Q) : (0 < p)%Q -> (p == q)%Q -> ilog2 p = ilog2 q.
Proof.
  intros Hp Hpq. destruct (ilog2_spec p Hp) as [S1 S2].
  symmetry. apply ilog2_unique; rewrite <- Hpq; assumption.
Qed.

Lemma ilog2_le (p q : Q) : (0 < p)%Q -> (p <= q)%Q -> ilog2 p <= ilog2 q.
Proof.
  intros Hp Hpq.
  destruct (ilog2_spec p Hp) as [S1 S2].
  destruct (ilog2_spec q) as [T1 T2]; [lra|].
  assert (ilog2 p < ilog2 q + 1) by (apply pow2_lt_inv; lra). lia.
Qed.

Lemma ilog2_lt_pow2 (q : Q) (k : Z) : (0 < q)%Q -> (q < pow2 k)%Q -> ilog2 q < k.
Proof.
  intros Hq Hk. destruct (ilog2_spec q Hq) as [S1 S2].
  apply pow2_lt_inv. lra.
Qed.

Lemma ilog2_ge_pow2 (q : Q) (k : Z) : (pow2 k <= q)%Q -> k <= ilog2 q.
Proof.
  intros Hk. assert (Hq : (0 < q)%Q) by (pose proof (pow2_pos k); lra).
  destruct (ilog2_spec q Hq) as [S1 S2].
  assert (k < ilog2 q + 1) by (apply pow2_lt_inv; lra). lia.
Qed.

(** *** Rounding to the nearest integer *)

Lemma rne_cases (q : Q) :
  let f := Qfloor q in
  (rne q = f /\ (q - inject_Z f <= 1 # 2)%Q) \/
  (rne q = f + 1 /\ (1 # 2 <= q - inject_Z f)%Q).
Proof.
  intros f. unfold rne. fold f.
  destruct (Qcompare (q - inject_Z f) (1 # 2)) eqn:E.
  - apply Qeq_alt in E. destruct (Z.even f); [left|right]; split; try reflexivity; lra.
  - apply Qlt_alt in E. left. split; [reflexivity|lra].
  - apply Qgt_alt in E. right. split; [reflexivity|lra].
Qed.

(** [rne] moves a value by at most one half, keeps the integers and keeps
    the order. *)
Lemma rne_lower (q : Q) : (inject_Z (rne q) - (1 # 2) <= q)%Q.
Proof.
  pose proof (Qfloor_le q) as F1.
  destruct (rne_cases q) as [[-> H]|[-> H]].
  - lra.
  - rewrite inject_Z_plus. change (inject_Z 1) with 1%Q. lra.
Qed.

Lemma rne_upper (q : Q) : (q <= inject_Z (rne q) + (1 # 2))%Q.
Proof.
  pose proof (Qlt_floor q) as F2. rewrite inject_Z_plus in F2.
  change (inject_Z 1) with 1%Q in F2.
  destruct (rne_cases q) as [[-> H]|[-> H]].
  - lra.
  - rewrite inject_Z_plus. change (inject_Z 1) with 1%Q. lra.
Qed.

Lemma rne_comp (p q : Q) : (p == q)%Q -> rne p = rne q.
Proof.
  intros H. unfold rne. rewrite (Qfloor_comp _ _ H).
  assert (E : (p - inject_Z (Qfloor q) == q - inject_Z (Qfloor q))%Q) by (rewrite H; reflexivity).
  now rewrite (Qcompare_comp _ _ E (1#2) (1#2) (Qeq_refl _)).
Qed.

Lemma rne_Z (z : Z) : rne (inject_Z z) = z.
Proof.
  unfold rne. rewrite Qfloor_Z.
  assert (E : (inject_Z z - inject_Z z ?= 1 # 2)%Q = Lt).
  { rewrite <- Qlt_alt. ring_simplify (inject_Z z - inject_Z z)%Q. reflexivity. }
  now rewrite E.
Qed.

Lemma rne_le (p q : Q) : (p <= q)%Q -> rne p <= rne q.
Proof.
  intros H. pose proof (Qfloor_resp_le _ _ H) as Hf.
  destruct (Z.eq_dec (Qfloor p) (Qfloor q)) as [E|NE].
  - unfold rne. rewrite E.
    destruct (Qcompare_spec (p - inject_Z (Qfloor q)) (1 # 2));
    destruct (Qcompare_spec (q - inject_Z (Qfloor q)) (1 # 2));
    try (exfalso; lra); destruct (Z.even (Qfloor q)); lia.
  - assert (Qfloor p + 1 <= Qfloor q) by lia.
    destruct (rne_cases p) as [[-> _]|[-> _]];
    destruct (rne_cases q) as [[-> _]|[-> _]]; lia.
Qed.

(** *** Rounding a positive value *)

Lemma round_pos_unfold (a : Q) :
  round_pos a = (inject_Z (rne (a * pow2 (52 - expo a))) * pow2 (expo a - 52))%Q.
Proof. reflexivity. Qed.

Lemma rescale (a : Q) (e : Z) : (a == a * pow2 (52 - e) * pow2 (e - 52))%Q.
Proof.
  rewrite <- Qmult_assoc, <- pow2_add.
  replace (52 - e + (e - 52)) with 0 by lia. rewrite pow2_0. ring.
Qed.

Lemma half_pow2 (e : Z) : ((1 # 2) * pow2 (e - 52) == pow2 (e - 53))%Q.
Proof.
  replace (e - 52) with ((e - 53) + 1) by lia. rewrite pow2_S. field.
Qed.

Lemma round_pos_comp (a b : Q) : (0 < a)%Q -> (a == b)%Q -> round_pos a = round_pos b.
Proof.
  intros Ha Hab. unfold round_pos, expo.
  rewrite (ilog2_comp a b Ha Hab).
  erewrite rne_comp; [reflexivity|]. now rewrite Hab.
Qed.

(** The rounding error is at most half a unit in the last place. *)
Lemma round_pos_lo (a : Q) : (a - pow2 (expo a - 53) <= round_pos a)%Q.
Proof.
  rewrite round_pos_unfold. set (e := expo a).
  pose proof (rne_upper (a * pow2 (52 - e))) as H.
  pose proof (pow2_pos (e - 52)) as Hp.
  pose proof (rescale a e) as Hr. pose proof (half_pow2 e) as Hh.
  set (m := inject_Z (rne (a * pow2 (52 - e)))) in *.
  set (s := (a * pow2 (52 - e))%Q) in *.
  assert ((s - m) * pow2 (e - 52) <= (1 # 2) * pow2 (e - 52))%Q.
  { apply Qmult_le_compat_r; lra. }
  lra.
Qed.

Lemma round_pos_hi (a : Q) : (round_pos a <= a + pow2 (expo a - 53))%Q.
Proof.
  rewrite round_pos_unfold. set (e := expo a).
  pose proof (rne_lower (a * pow2 (52 - e))) as H.
  pose proof (pow2_pos (e - 52)) as Hp.
  pose proof (rescale a e) as Hr. pose proof (half_pow2 e) as Hh.
  set (m := inject_Z (rne (a * pow2 (52 - e)))) in *.
  set (s := (a * pow2 (52 - e))%Q) in *.
  assert ((m - s) * pow2 (e - 52) <= (1 # 2) * pow2 (e - 52))%Q.
  { apply Qmult_le_compat_r; lra. }
  lra.
Qed.

Lemma scaled_lt (a : Q) : (0 < a)%Q -> (a * pow2 (52 - expo a) < pow2 53)%Q.
Proof.
  intros Ha. destruct (ilog2_spec a Ha) as [_ H2].
  assert (He : ilog2 a + 1 <= expo a + 1) by (unfold expo; lia).
  pose proof (pow2_le _ _ He) as H3.
  replace 53 with ((expo a + 1) + (52 - expo a)) by lia.
  rewrite pow2_add. apply Qmult_lt_compat_r; [apply pow2_pos|lra].
Qed.

Lemma scaled_ge (a : Q) :
  (0 < a)%Q -> -1022 <= ilog2 a -> (pow2 52 <= a * pow2 (52 - expo a))%Q.
Proof.
  intros Ha Hn. destruct (ilog2_spec a Ha) as [H1 _].
  assert (He : expo a = ilog2 a) by (unfold expo; lia).
  rewrite He. replace 52 with (ilog2 a + (52 - ilog2 a)) at 1 by lia.
  rewrite pow2_add. apply Qmult_le_compat_r; [assumption|].
  apply Qlt_le_weak, pow2_pos.
Qed.

Lemma round_pos_upper (a : Q) : (0 < a)%Q -> (round_pos a <= pow2 (expo a + 1))%Q.
Proof.
  intros Ha. rewrite round_pos_unfold.
  pose proof (scaled_lt a Ha) as Hs.
  assert (Hm : rne (a * pow2 (52 - expo a)) <= 2 ^ 53).
  { rewrite <- (rne_Z (2 ^ 53)). apply rne_le.
    rewrite <- pow2_Z by lia. lra. }
  replace (expo a + 1) with (53 + (expo a - 52)) by lia. rewrite pow2_add.
  apply Qmult_le_compat_r; [|apply Qlt_le_weak, pow2_pos].
  rewrite (pow2_Z 53) by lia. now rewrite <- Zle_Qle.
Qed.

Lemma round_pos_lower (a : Q) :
  (0 < a)%Q -> -1022 <= ilog2 a -> (pow2 (expo a) <= round_pos a)%Q.
Proof.
  intros Ha Hn. rewrite round_pos_unfold.
  pose proof (scaled_ge a Ha Hn) as Hs.
  assert (Hm : 2 ^ 52 <= rne (a * pow2 (52 - expo a))).
  { rewrite <- (rne_Z (2 ^ 52)). apply rne_le.
    rewrite <- pow2_Z by lia. lra. }
  replace (expo a) with (52 + (expo a - 52)) at 1 by lia. rewrite pow2_add.
  apply Qmult_le_compat_r; [|apply Qlt_le_weak, pow2_pos].
  rewrite (pow2_Z 52) by lia. now rewrite <- Zle_Qle.
Qed.

Lemma round_pos_nonneg (a : Q) : (0 < a)%Q -> (0 <= round_pos a)%Q.
Proof.
  intros Ha. rewrite round_pos_unfold.
  assert (Hm : 0 <= rne (a * pow2 (52 - expo a))).
  { rewrite <- (rne_Z 0). apply rne_le.
    pose proof (pow2_pos (52 - expo a)).
    apply Qlt_le_weak. apply Qmult_lt_0_compat; assumption. }
  apply Qmult_le_0_compat; [|apply Qlt_le_weak, pow2_pos].
  change 0%Q with (inject_Z 0). now rewrite <- Zle_Qle.
Qed.

(** Rounding keeps the order. *)
Lemma round_pos_le (a b : Q) :
  (0 < a)%Q -> (a <= b)%Q -> (round_pos a <= round_pos b)%Q.
Proof.
  intros Ha Hab. assert (Hb : (0 < b)%Q) by lra.
  pose proof (ilog2_le a b Ha Hab) as Hl.
  destruct (Z.eq_dec (expo a) (expo b)) as [E|NE].
  - rewrite !round_pos_unfold, E.
    apply Qmult_le_compat_r; [|apply Qlt_le_weak, pow2_pos].
    rewrite <- Zle_Qle. apply rne_le.
    apply Qmult_le_compat_r; [assumption|apply Qlt_le_weak, pow2_pos].
  - assert (Hlt : expo a + 1 <= expo b) by (unfold expo in *; lia).
    assert (Hn : -1022 <= ilog2 b) by (unfold expo in *; lia).
    pose proof (round_pos_upper a Ha). pose proof (round_pos_lower b Hb Hn).
    pose proof (pow2_le _ _ Hlt). lra.
Qed.

(** A value with at most 53 significant bits and an exponent in range is
    its own rounding. *)
Lemma round_pos_dyadic (m k : Z) :
  0 < m < 2 ^ 53 -> -1074 <= k ->
  (round_pos (inject_Z m * pow2 k) == inject_Z m * pow2 k)%Q.
Proof.
  intros Hm Hk. set (a := (inject_Z m * pow2 k)%Q).
  assert (Ha : (0 < a)%Q).
  { apply Qmult_lt_0_compat; [|apply pow2_pos].
    change 0%Q with (inject_Z 0). rewrite <- Zlt_Qlt. lia. }
  assert (Hlt : (a < pow2 (53 + k))%Q).
  { unfold a. rewrite pow2_add. apply Qmult_lt_compat_r; [apply pow2_pos|].
    rewrite (pow2_Z 53) by lia. rewrite <- Zlt_Qlt. lia. }
  pose proof (ilog2_lt_pow2 a (53 + k) Ha Hlt) as Hi.
  assert (He : 0 <= k + (52 - expo a)) by (unfold expo; lia).
  rewrite round_pos_unfold.
  assert (Hs : (a * pow2 (52 - expo a) == inject_Z (m * 2 ^ (k + (52 - expo a))))%Q).
  { unfold a. rewrite <- Qmult_assoc, <- pow2_add, pow2_Z by assumption.
    now rewrite inject_Z_mult. }
  rewrite (rne_comp _ _ Hs), rne_Z, <- Hs.
  symmetry. apply rescale.
Qed.

Lemma round_pos_Z (z : Z) :
  0 < z < 2 ^ 53 -> (round_pos (inject_Z z) == inject_Z z)%Q.
Proof.
  intros Hz. pose proof (round_pos_dyadic z 0 Hz ltac:(lia)) as H.
  assert (E : (inject_Z z * pow2 0 == inject_Z z)%Q) by (rewrite pow2_0; ring).
  assert (Hpos : (0 < inject_Z z * pow2 0)%Q).
  { rewrite E. change 0%Q with (inject_Z 0). rewrite <- Zlt_Qlt. lia. }
  rewrite <- (round_pos_comp _ _ Hpos E). rewrite H. exact E.
Qed.

Lemma round_pos_pow2 (k : Z) : -1074 <= k -> (round_pos (pow2 k) == pow2 k)%Q.
Proof.
  intros Hk. pose proof (round_pos_dyadic 1 k ltac:(lia) Hk) as H.
  assert (E : (inject_Z 1 * pow2 k == pow2 k)%Q) by ring.
  assert (Hpos : (0 < inject_Z 1 * pow2 k)%Q) by (rewrite E; apply pow2_pos).
  rewrite <- (round_pos_comp _ _ Hpos E). rewrite H. exact E.
Qed.

(** *** Rounding *)

Lemma Qsign_Gt (q : Q) : Qsign q = Gt <-> (0 < q)%Q.
Proof. unfold Qsign, Qlt. simpl. rewrite Z.compare_gt_iff. lia. Qed.

Lemma Qsign_Lt (q : Q) : Qsign q = Lt <-> (q < 0)%Q.
Proof. unfold Qsign, Qlt. simpl. rewrite Z.compare_lt_iff. lia. Qed.

Lemma Qsign_Eq (q : Q) : Qsign q = Eq <-> (q == 0)%Q.
Proof. unfold Qsign, Qeq. simpl. rewrite Z.compare_eq_iff. lia. Qed.

Lemma round64_pos (q : Q) :
  (0 < q)%Q ->
  round64 q = if Qle_bool (pow2 1024) (round_pos q) then PosInf
              else Fin (Qred (round_pos q)).
Proof. intros H. apply Qsign_Gt in H. unfold round64. now rewrite H. Qed.

Lemma round64_neg (q : Q) :
  (q < 0)%Q ->
  round64 q = if Qle_bool (pow2 1024) (round_pos (- q)) then NegInf
              else Fin (Qred (- round_pos (- q))).
Proof. intros H. apply Qsign_Lt in H. unfold round64. now rewrite H. Qed.

Lemma round64_zero (q : Q) : (q == 0)%Q -> round64 q = Fin 0.
Proof. intros H. apply Qsign_Eq in H. unfold round64. now rewrite H. Qed.

(** Equal rationals have the same rounding, whatever their fractions. *)
Lemma round64_comp (p q : Q) : (p == q)%Q -> round64 p = round64 q.
Proof.
  intros H. destruct (Qcompare_spec p 0) as [E|E|E].
  - rewrite !round64_zero; [reflexivity|now rewrite <- H|assumption].
  - rewrite (round64_neg p E), (round64_neg q) by (rewrite <- H; assumption).
    assert (Hn : (- p == - q)%Q) by (rewrite H; reflexivity).
    rewrite (round_pos_comp (- p) (- q)); [reflexivity|lra|assumption].
  - rewrite (round64_pos p E), (round64_pos q) by (rewrite <- H; assumption).
    rewrite (round_pos_comp p q); [reflexivity|assumption|assumption].
Qed.

Lemma not_Qle_bool (a b : Q) : (b < a)%Q -> Qle_bool a b = false.
Proof.
  intros H. destruct (Qle_bool a b) eqn:E; [|reflexivity].
  apply Qle_bool_iff in E. lra.
Qed.

Lemma expo_le (q : Q) (k : Z) :
  (0 < q)%Q -> (q <= pow2 k)%Q -> -1022 <= k -> expo q <= k.
Proof.
  intros Hq Hk Hn. unfold expo.
  destruct (Qlt_le_dec q (pow2 k)) as [Hlt|Hge].
  - pose proof (ilog2_lt_pow2 q k Hq Hlt). lia.
  - assert (E : (pow2 k == q)%Q) by lra.
    rewrite <- (ilog2_comp _ _ (pow2_pos k) E).
    rewrite (ilog2_unique (pow2 k) k); [lia|lra|apply pow2_lt; lia].
Qed.

Lemma round_pos_bounded (q : Q) (k : Z) :
  (0 < q)%Q -> (q <= pow2 k)%Q -> -1022 <= k ->
  (round_pos q <= pow2 k)%Q /\
  (q - pow2 (k - 53) <= round_pos q)%Q /\
  (round_pos q <= q + pow2 (k - 53))%Q.
Proof.
  intros Hq Hk Hn. pose proof (expo_le q k Hq Hk Hn) as He.
  assert (Hp : (pow2 (expo q - 53) <= pow2 (k - 53))%Q) by (apply pow2_le; lia).
  pose proof (round_pos_lo q). pose proof (round_pos_hi q).
  split; [|split; lra].
  rewrite <- (round_pos_pow2 k) by lia. now apply round_pos_le.
Qed.

(** A value of magnitude at most [2^k] rounds to a finite number of
    magnitude at most [2^k], off by at most [2^(k - 53)]. *)
Lemma round64_bounded (q : Q) (k : Z) :
  (- pow2 k <= q)%Q -> (q <= pow2 k)%Q -> -1022 <= k <= 1023 ->
  exists r,
    round64 q = Fin r /\
    (- pow2 k <= r)%Q /\ (r <= pow2 k)%Q /\
    (q - pow2 (k - 53) <= r)%Q /\ (r <= q + pow2 (k - 53))%Q.
Proof.
  intros Hlo Hhi Hk.
  assert (Hbig : (pow2 k < pow2 1024)%Q) by (apply pow2_lt; lia).
  pose proof (pow2_pos k) as Hpk. pose proof (pow2_pos (k - 53)) as Hpe.
  destruct (Qcompare_spec q 0) as [E|E|E].
  - exists 0%Q. rewrite (round64_zero q E). repeat split; lra.
  - destruct (round_pos_bounded (- q) k) as (B1 & B2 & B3); [lra|lra|lia|].
    assert (0 <= round_pos (- q))%Q by (apply round_pos_nonneg; lra).
    rewrite (round64_neg q E), not_Qle_bool by lra.
    eexists. split; [reflexivity|]. rewrite Qred_correct. repeat split; lra.
  - destruct (round_pos_bounded q k) as (B1 & B2 & B3); [lra|lra|lia|].
    pose proof (round_pos_nonneg q E).
    rewrite (round64_pos q E), not_Qle_bool by lra.
    eexists. split; [reflexivity|]. rewrite Qred_correct. repeat split; lra.
Qed.

Lemma Fin_inj (a b : Q) : Fin a = Fin b -> a = b.
Proof. now intros [= ->]. Qed.

Lemma round64_pos_fin (q r : Q) :
  (0 < q)%Q -> round64 q = Fin r -> (r == round_pos q)%Q.
Proof.
  intros Hq H. rewrite (round64_pos q Hq) in H.
  destruct (Qle_bool _ _); [discriminate|].
  apply Fin_inj in H. rewrite <- H. apply Qred_correct.
Qed.

Lemma round64_neg_fin (q r : Q) :
  (q < 0)%Q -> round64 q = Fin r -> (r == - round_pos (- q))%Q.
Proof.
  intros Hq H. rewrite (round64_neg q Hq) in H.
  destruct (Qle_bool _ _); [discriminate|].
  apply Fin_inj in H. rewrite <- H. apply Qred_correct.
Qed.

Lemma round64_zero_fin (q r : Q) :
  (q == 0)%Q -> round64 q = Fin r -> (r == 0)%Q.
Proof.
  intros Hq H. rewrite (round64_zero q Hq) in H.
  apply Fin_inj in H. rewrite <- H. reflexivity.
Qed.

(** Rounding keeps the order. *)
Lemma round64_mono (p q r r' : Q) :
  (p <= q)%Q -> round64 p = Fin r -> round64 q = Fin r' -> (r <= r')%Q.
Proof.
  intros Hpq Hp Hq.
  destruct (Qcompare_spec p 0) as [Ep|Ep|Ep];
  destruct (Qcompare_spec q 0) as [Eq|Eq|Eq]; try (exfalso; lra).
  - apply (round64_zero_fin _ _ Ep) in Hp. apply (round64_zero_fin _ _ Eq) in Hq. lra.
  - apply (round64_zero_fin _ _ Ep) in Hp. apply (round64_pos_fin _ _ Eq) in Hq.
    pose proof (round_pos_nonneg q Eq). lra.
  - apply (round64_neg_fin _ _ Ep) in Hp. apply (round64_zero_fin _ _ Eq) in Hq.
    assert (0 <= round_pos (- p))%Q by (apply round_pos_nonneg; lra). lra.
  - apply (round64_neg_fin _ _ Ep) in Hp. apply (round64_neg_fin _ _ Eq) in Hq.
    assert (round_pos (- q) <= round_pos (- p))%Q by (apply round_pos_le; lra). lra.
  - apply (round64_neg_fin _ _ Ep) in Hp. apply (round64_pos_fin _ _ Eq) in Hq.
    assert (0 <= round_pos (- p))%Q by (apply round_pos_nonneg; lra).
    pose proof (round_pos_nonneg q Eq). lra.
  - apply (round64_pos_fin _ _ Ep) in Hp. apply (round64_pos_fin _ _ Eq) in Hq.
    assert (round_pos p <= round_pos q)%Q by (apply round_pos_le; lra). lra.
Qed.

(** An integer of magnitude below [2^53] is its own rounding. *)
Lemma round64_Z (z : Z) :
  - 2 ^ 53 < z < 2 ^ 53 -> round64 (inject_Z z) = Fin (inject_Z z).
Proof.
  intros Hz.
  assert (Hbig : (inject_Z (2 ^ 53) < pow2 1024)%Q).
  { rewrite <- (pow2_Z 53) by lia. apply pow2_lt. lia. }
  destruct (Z.compare_spec z 0) as [E|E|E].
  - subst z. reflexivity.
  - assert (Hn : (inject_Z z < 0)%Q) by (change 0%Q with (inject_Z 0); rewrite <- Zlt_Qlt; lia).
    rewrite (round64_neg _ Hn).
    assert (Ez : (- inject_Z z == inject_Z (- z))%Q) by (rewrite inject_Z_opp; reflexivity).
    assert (Hp : (0 < - inject_Z z)%Q) by lra.
    rewrite (round_pos_comp _ _ Hp Ez).
    pose proof (round_pos_Z (- z) ltac:(lia)) as Hr.
    assert (inject_Z (- z) < inject_Z (2 ^ 53))%Q by (rewrite <- Zlt_Qlt; lia).
    rewrite not_Qle_bool by lra. f_equal.
    apply Qred_eq_inject_Z. rewrite Hr, inject_Z_opp. ring.
  - assert (Hp : (0 < inject_Z z)%Q) by (change 0%Q with (inject_Z 0); rewrite <- Zlt_Qlt; lia).
    rewrite (round64_pos _ Hp).
    pose proof (round_pos_Z z ltac:(lia)) as Hr.
    assert (inject_Z z < inject_Z (2 ^ 53))%Q by (rewrite <- Zlt_Qlt; lia).
    rewrite not_Qle_bool by lra. f_equal.
    now apply Qred_eq_inject_Z.
Qed.

(** Constant powers of two, evaluated.  *)
Ltac pow2_value e :=
  let e' := eval vm_compute in e in
  lazymatch e' with
  | Z0 => constr:(1%Q)
  | Zpos _ => eval vm_compute in (pow2 e')
  | Zneg _ => eval vm_compute in (pow2 e')
  end.

Ltac eval_pow2 :=
  repeat match goal with
  | |- context [pow2 ?e] => let v := pow2_value e in change (pow2 e) with v
  | H : context [pow2 ?e] |- _ =>
      let v := pow2_value e in change (pow2 e) with v in H
  end.

Lemma inject_Z_nonneg (z : Z) : 0 <= z -> (0 <= inject_Z z)%Q.
Proof. intros H. change 0%Q with (inject_Z 0). now rewrite <- Zle_Qle. Qed.

Lemma inject_Z_pos (z : Z) : 0 < z -> (0 < inject_Z z)%Q.
Proof. intros H. change 0%Q with (inject_Z 0). now rewrite <- Zlt_Qlt. Qed.

(** On finite operands an operator of [B64] is the rounding of the exact
    result. *)
Lemma add_fin (p q : Q) : B64.add (Fin p) (Fin q) = round64 (p + q).
Proof. unfold B64.add. cbn. apply round64_comp, Qred_correct. Qed.

Lemma sub_fin (p q : Q) : B64.sub (Fin p) (Fin q) = round64 (p - q).
Proof. unfold B64.sub. cbn. apply round64_comp, Qred_correct. Qed.

Lemma mul_fin (p q : Q) : B64.mul (Fin p) (Fin q) = round64 (p * q).
Proof. unfold B64.mul. cbn. apply round64_comp, Qred_correct. Qed.

Lemma div_fin (p q : Q) :
  ~ (q == 0)%Q -> B64.div (Fin p) (Fin q) = round64 (p / q).
Proof.
  intros Hq. unfold B64.div. cbn.
  destruct (Qeq_bool q 0) eqn:E.
  - apply Qeq_bool_eq in E. contradiction.
  - cbn. apply round64_comp, Qred_correct.
Qed.

(** Rounding a value that lies between two integers of magnitude below
    2^53 stays between them. *)
Lemma round64_between (q : Q) (lo hi : Z) :
  - 2 ^ 53 < lo -> hi < 2 ^ 53 ->
  (inject_Z lo <= q)%Q -> (q <= inject_Z hi)%Q ->
  exists r, round64 q = Fin r /\ (inject_Z lo <= r)%Q /\ (r <= inject_Z hi)%Q.
Proof.
  intros Hlo Hhi H1 H2.
  assert (Hz : lo <= hi) by (rewrite Zle_Qle; lra).
  assert (B : (inject_Z (2 ^ 53) == pow2 53)%Q) by (symmetry; apply pow2_Z; lia).
  assert (Blo : (- pow2 53 <= inject_Z lo)%Q).
  { rewrite <- B, <- inject_Z_opp, <- Zle_Qle. lia. }
  assert (Bhi : (inject_Z hi <= pow2 53)%Q).
  { rewrite <- B, <- Zle_Qle. lia. }
  destruct (round64_bounded q 53) as (r & Hr & _); [lra|lra|lia|].
  exists r. split; [exact Hr|]. split.
  - apply (round64_mono (inject_Z lo) q); [assumption| |assumption].
    apply round64_Z. lia.
  - apply (round64_mono q (inject_Z hi)); [assumption|assumption|].
    apply round64_Z. lia.
Qed.

(** Integer arithmetic is exact as long as the result stays below
    [2^53]. *)
Lemma mul_of_Z64 (a b : Z) :
  - 2 ^ 53 < a * b < 2 ^ 53 -> B64.mul (of_Z a) (of_Z b) = of_Z (a * b).
Proof.
  intros H. unfold B64.mul. rewrite mul_of_Z. unfold of_Z. cbn.
  now apply round64_Z.
Qed.

Lemma add_of_Z64 (a b : Z) :
  - 2 ^ 53 < a + b < 2 ^ 53 -> B64.add (of_Z a) (of_Z b) = of_Z (a + b).
Proof.
  intros H. unfold B64.add. rewrite add_of_Z. unfold of_Z. cbn.
  now apply round64_Z.
Qed.

Lemma rem_of_Z64 (a b : Z) :
  0 <= a -> 0 < b < 2 ^ 53 -> B64.rem (of_Z a) (of_Z b) = of_Z (a mod b).
Proof.
  intros Ha Hb. unfold B64.rem. rewrite rem_of_Z by lia.
  rewrite Z.rem_mod_nonneg by lia. unfold of_Z. cbn.
  apply round64_Z. pose proof (Z.mod_pos_bound a b). lia.
Qed.

(** A value within 75 of the finite range rounds to a finite number. *)
Lemma round64_finite (q : Q) :
  (- Number_MAX_VALUE - 75 <= q)%Q -> (q <= Number_MAX_VALUE + 75)%Q ->
  exists r, round64 q = Fin r.
Proof.
  intros Hlo Hhi.
  assert (Hmax : Qle_bool (pow2 1024) (round_pos (Number_MAX_VALUE + 75)) = false)
    by (vm_compute; reflexivity).
  assert (Hlt : (round_pos (Number_MAX_VALUE + 75) < pow2 1024)%Q).
  { apply Qnot_le_lt. intros H. apply Qle_bool_iff in H. congruence. }
  destruct (Qcompare_spec q 0) as [E|E|E].
  - exists 0%Q. now apply round64_zero.
  - assert (round_pos (- q) <= round_pos (Number_MAX_VALUE + 75))%Q
      by (apply round_pos_le; lra).
    rewrite (round64_neg q E), not_Qle_bool by lra. eauto.
  - assert (round_pos q <= round_pos (Number_MAX_VALUE + 75))%Q
      by (apply round_pos_le; lra).
    rewrite (round64_pos q E), not_Qle_bool by lra. eauto.
Qed.

(** Half a unit in the last place is at most the relative error [2^-53],
    or [2^-1075] for a subnormal value. *)
Lemma round_pos_ulp (q : Q) :
  (0 < q)%Q -> (pow2 (expo q - 53) <= pow2 (-53) * q + pow2 (-1075))%Q.
Proof.
  intros Hq. pose proof (pow2_pos (-53)) as Hu. pose proof (pow2_pos (-1075)) as Hd.
  destruct (Z_le_gt_dec (-1022) (ilog2 q)) as [Hn|Hs].
  - assert (He : expo q = ilog2 q) by (unfold expo; lia).
    destruct (ilog2_spec q Hq) as [H1 _].
    rewrite He. replace (ilog2 q - 53) with (-53 + ilog2 q) by lia.
    rewrite pow2_add.
    assert (pow2 (-53) * pow2 (ilog2 q) <= pow2 (-53) * q)%Q
      by (apply Qmult_le_l; assumption).
    lra.
  - assert (He : expo q = -1022) by (unfold expo; lia).
    rewrite He. change (-1022 - 53) with (-1075).
    assert (0 <= pow2 (-53) * q)%Q
      by (apply Qmult_le_0_compat; apply Qlt_le_weak; assumption).
    lra.
Qed.

(** Rounding a value between two non-negative integers below 2^53: the
    result stays between them, and is off by at most the relative error
    [2^-53] (plus [2^-1075] near zero). *)
Lemma round64_rel (q : Q) (lo hi : Z) :
  0 <= lo -> hi < 2 ^ 53 ->
  (inject_Z lo <= q)%Q -> (q <= inject_Z hi)%Q ->
  exists r,
    round64 q = Fin r /\
    (inject_Z lo <= r)%Q /\ (r <= inject_Z hi)%Q /\
    (q - (pow2 (-53) * q + pow2 (-1075)) <= r)%Q /\
    (r <= q + (pow2 (-53) * q + pow2 (-1075)))%Q.
Proof.
  intros Hlo Hhi H1 H2.
  destruct (round64_between q lo hi) as (r & Hr & R1 & R2); [lia|lia|assumption|assumption|].
  exists r. split; [exact Hr|]. split; [exact R1|]. split; [exact R2|].
  assert (H0 : (0 <= inject_Z lo)%Q)
    by (change 0%Q with (inject_Z 0); rewrite <- Zle_Qle; lia).
  pose proof (pow2_pos (-53)) as Hu. pose proof (pow2_pos (-1075)) as Hd.
  destruct (Qcompare_spec q 0) as [E|E|E].
  - apply (round64_zero_fin _ _ E) in Hr. rewrite E, Hr.
    split; lra.
  - lra.
  - apply (round64_pos_fin _ _ E) in Hr.
    pose proof (round_pos_ulp q E). pose proof (round_pos_lo q).
    pose proof (round_pos_hi q). rewrite Hr. split; lra.
Qed.

(** *** Agreement with the kernel's binary64

    On every pair of the samples, the four operators of [B64] return what
    the kernel's primitive floats return. *)
Lemma B64_agrees_with_primitive_floats :
  forallb (fun a => forallb (agree a) float_samples) float_samples = true.
Proof. vm_compute. reflexivity. Qed.

(** ** The generator *)

Section GeneratorFacts.

Variables Math_cos Math_sin : num -> num.
Variable config : EffectConfig.

Let pos := position config.
Let par := parameters config.

Lemma skip_random_add (j k : nat) (h : Host) :
  skip_random j (skip_random k h) = skip_random (j + k) h.
Proof.
  unfold skip_random. simpl. f_equal. lia.
Qed.

Lemma tornado_particle_host (i : nat) (h : Host) :
  snd (tornado_particle Math_cos Math_sin pos par i h) = skip_random 5 h.
Proof. reflexivity. Qed.

Lemma tornado_loop_spec (todo : nat) :
  forall (i : nat) (acc : list Particle) (h : Host),
    tornado_loop Math_cos Math_sin pos par todo i acc h =
    (acc ++ map (fun k => fst (tornado_particle Math_cos Math_sin pos par (i + k)
                                 (skip_random (5 * k) h)))
                (seq 0 todo),
     skip_random (5 * todo) h).
Proof.
  induction todo as [|todo IH]; intros i acc h.
  - simpl. unfold ret. rewrite app_nil_r. f_equal.
    destruct h; reflexivity.
  - cbn [tornado_loop]. unfold bind at 1.
    destruct (tornado_particle Math_cos Math_sin pos par i h) as [p h'] eqn:E.
    assert (Hh : h' = skip_random 5 h)
      by (rewrite <- (tornado_particle_host i h), E; reflexivity).
    assert (Hp : p = fst (tornado_particle Math_cos Math_sin pos par (i + 0)
                            (skip_random (5 * 0) h))).
    { rewrite Nat.add_0_r. replace (skip_random (5 * 0) h) with h
        by (destruct h; reflexivity).
      now rewrite E. }
    subst h'. rewrite IH, skip_random_add.
    replace (5 * todo + 5)%nat with (5 * S todo)%nat by lia.
    f_equal. rewrite <- app_assoc. f_equal.
    cbn [seq map app]. rewrite <- Hp. f_equal.
    rewrite <- seq_shift, map_map.
    apply map_ext. intros k.
    rewrite skip_random_add.
    replace (5 * k + 5)%nat with (5 * S k)%nat by lia.
    now replace (S i + k)%nat with (i + S k)%nat by lia.
Qed.

(** The particle list of a render is the list of the particles of passes
    [0], [1], ... up to the particle count. *)
Lemma generate_particles (h : Host) :
  re_particles (fst (generateTornadoEffect Math_cos Math_sin config h)) =
  map (particle_at Math_cos Math_sin config (skip_clock 1 h))
      (seq 0 (Z.to_nat (particleCount par))).
Proof.
  unfold generateTornadoEffect, bind. cbn [Date_now].
  fold pos par. rewrite tornado_loop_spec. reflexivity.
Qed.

Lemma generate_length (h : Host) :
  length (re_particles (fst (generateTornadoEffect Math_cos Math_sin config h))) =
  Z.to_nat (particleCount par).
Proof.
  rewrite generate_particles, length_map. apply length_seq.
Qed.

Lemma generate_lookup (h : Host) (i : nat) (p : Particle) :
  re_particles (fst (generateTornadoEffect Math_cos Math_sin config h)) !! i = Some p <->
  (i < Z.to_nat (particleCount par))%nat /\
  p = particle_at Math_cos Math_sin config (skip_clock 1 h) i.
Proof.
  rewrite generate_particles, list_lookup_fmap.
  destruct (decide (i < Z.to_nat (particleCount par))%nat) as [Hi|Hi].
  - rewrite (lookup_seq_lt _ _ _ Hi). simpl. split.
    + intros [= <-]. auto.
    + intros [_ ->]. reflexivity.
  - rewrite lookup_seq_ge by lia. simpl. split; [discriminate|tauto].
Qed.

Lemma particle_at_id (h : Host) (i : nat) :
  id (particle_at Math_cos Math_sin config h i) = of_nat i.
Proof. reflexivity. Qed.

Lemma particle_at_layer (h : Host) (i : nat) :
  layer (particle_at Math_cos Math_sin config h i) = layerIndex_of i par.
Proof. reflexivity. Qed.

Lemma particle_at_color (h : Host) (i : nat) :
  color (particle_at Math_cos Math_sin config h i) =
  pick_color (sample h (5 * i + 2)).
Proof.
  unfold particle_at, sample. cbn. f_equal. f_equal. lia.
Qed.

Lemma particle_at_radius (h : Host) (i : nat) :
  radius (particle_at Math_cos Math_sin config h i) =
  JS.sub (of_Z 8)
    (JS.mul (radiusScale_of (layerIndex_of i par) par) (of_Z 4)).
Proof. reflexivity. Qed.



(** For a positive layer count the layer index is the integer [i mod L]. *)
Lemma layerIndex_pos (i : nat) :
  0 < spiralLayers par ->
  layerIndex_of i par = of_Z (Z.of_nat i mod spiralLayers par).
Proof.
  intros HL. unfold layerIndex_of, of_nat.
  rewrite rem_of_Z by lia. f_equal.
  apply Z.rem_mod_nonneg; lia.
Qed.

(** For a zero layer count it is NaN. *)
Lemma layerIndex_zero (i : nat) :
  spiralLayers par = 0 -> layerIndex_of i par = NaN.
Proof.
  intros HL. unfold layerIndex_of. rewrite HL. apply rem_by_zero.
Qed.

End GeneratorFacts.

(** ** The rounded generator *)

Section Generator64Facts.

Variables Math_cos Math_sin : num -> num.
Variable config : EffectConfig.

Let pos := position config.
Let par := parameters config.

Lemma tornado_particle64_host (i : nat) (h : Host) :
  snd (Tornado64.tornado_particle Math_cos Math_sin pos par i h) = skip_random 5 h.
Proof. reflexivity. Qed.

(** The rounded loop makes the same passes as the exact one. *)
Lemma tornado_loop64_spec (todo : nat) :
  forall (i : nat) (acc : list Particle) (h : Host),
    Tornado64.tornado_loop Math_cos Math_sin pos par todo i acc h =
    (acc ++ map (fun k => fst (Tornado64.tornado_particle Math_cos Math_sin pos par
                                 (i + k) (skip_random (5 * k) h)))
                (seq 0 todo),
     skip_random (5 * todo) h).
Proof.
  induction todo as [|todo IH]; intros i acc h.
  - simpl. unfold ret. rewrite app_nil_r. f_equal.
    destruct h; reflexivity.
  - cbn [Tornado64.tornado_loop]. unfold bind at 1.
    destruct (Tornado64.tornado_particle Math_cos Math_sin pos par i h)
      as [p h'] eqn:E.
    assert (Hh : h' = skip_random 5 h)
      by (rewrite <- (tornado_particle64_host i h), E; reflexivity).
    assert (Hp : p = fst (Tornado64.tornado_particle Math_cos Math_sin pos par
                            (i + 0) (skip_random (5 * 0) h))).
    { rewrite Nat.add_0_r. replace (skip_random (5 * 0) h) with h
        by (destruct h; reflexivity).
      now rewrite E. }
    subst h'. rewrite IH, skip_random_add.
    replace (5 * todo + 5)%nat with (5 * S todo)%nat by lia.
    f_equal. rewrite <- app_assoc. f_equal.
    cbn [seq map app]. rewrite <- Hp. f_equal.
    rewrite <- seq_shift, map_map.
    apply map_ext. intros k.
    rewrite skip_random_add.
    replace (5 * k + 5)%nat with (5 * S k)%nat by lia.
    now replace (S i + k)%nat with (i + S k)%nat by lia.
Qed.

Lemma generate64_particles (h : Host) :
  re_particles (fst (Tornado64.generateTornadoEffect Math_cos Math_sin config h)) =
  map (particle_at64 Math_cos Math_sin config (skip_clock 1 h))
      (seq 0 (Z.to_nat (particleCount par))).
Proof.
  unfold Tornado64.generateTornadoEffect, bind. cbn [Date_now].
  fold pos par. rewrite tornado_loop64_spec. reflexivity.
Qed.

Lemma generate64_lookup (h : Host) (i : nat) (p : Particle) :
  re_particles (fst (Tornado64.generateTornadoEffect Math_cos Math_sin config h)) !! i
    = Some p <->
  (i < Z.to_nat (particleCount par))%nat /\
  p = particle_at64 Math_cos Math_sin config (skip_clock 1 h) i.
Proof.
  rewrite generate64_particles, list_lookup_fmap.
  destruct (decide (i < Z.to_nat (particleCount par))%nat) as [Hi|Hi].
  - rewrite (lookup_seq_lt _ _ _ Hi). simpl. split.
    + intros [= <-]. auto.
    + intros [_ ->]. reflexivity.
  - rewrite lookup_seq_ge by lia. simpl. split; [discriminate|tauto].
Qed.

Lemma particle64_layer (h : Host) (i : nat) :
  layer (particle_at64 Math_cos Math_sin config h i) =
  Tornado64.layerIndex_of i par.
Proof. reflexivity. Qed.

Lemma particle64_radius (h : Host) (i : nat) :
  radius (particle_at64 Math_cos Math_sin config h i) =
  B64.sub (of_Z 8)
    (B64.mul (Tornado64.radiusScale_of (Tornado64.layerIndex_of i par) par) (of_Z 4)).
Proof. reflexivity. Qed.

Lemma particle64_x (h : Host) (i : nat) :
  x (particle_at64 Math_cos Math_sin config h i) =
  B64.add (pos_x pos)
    (B64.mul (Math_cos (Tornado64.angle_of i par))
       (Tornado64.spiralRadius_of (Tornado64.layerIndex_of i par))).
Proof. reflexivity. Qed.

Lemma particle64_z (h : Host) (i : nat) :
  z (particle_at64 Math_cos Math_sin config h i) =
  B64.mul (Math_sin (Tornado64.angle_of i par))
    (Tornado64.spiralRadius_of (Tornado64.layerIndex_of i par)).
Proof. reflexivity. Qed.

Lemma particle64_y (h : Host) (i : nat) :
  y (particle_at64 Math_cos Math_sin config h i) =
  B64.add (pos_y pos)
    (B64.sub (B64.mul (sample h (5 * i)) (of_Z 150)) (of_Z 75)).
Proof. reflexivity. Qed.

Lemma particle64_vy (h : Host) (i : nat) :
  vy (particle_at64 Math_cos Math_sin config h i) =
  B64.mul (B64.sub (B64.mul (sample h (5 * i)) (of_Z 150)) (of_Z 75)) (of_Z 30).
Proof. reflexivity. Qed.

Lemma layerIndex64_pos (i : nat) :
  0 < spiralLayers par < 2 ^ 53 ->
  Tornado64.layerIndex_of i par = of_Z (Z.of_nat i mod spiralLayers par).
Proof.
  intros HL. unfold Tornado64.layerIndex_of, of_nat.
  apply rem_of_Z64; lia.
Qed.

End Generator64Facts.

(** On a layer count below [2^53] the two readings build lists of the same
    length, with the same identifiers and the same layers. *)
Lemma readings_agree_on_layers (Math_cos Math_sin : num -> num)
    (config : EffectConfig) (h : Host) :
  0 < spiralLayers (parameters config) < 2 ^ 53 ->
  map (fun p => (id p, layer p))
    (re_particles
       (fst (Tornado64.generateTornadoEffect Math_cos Math_sin config h))) =
  map (fun p => (id p, layer p))
    (re_particles (fst (generateTornadoEffect Math_cos Math_sin config h))).
Proof.
  intros HL. rewrite generate64_particles, generate_particles, !map_map.
  apply map_ext. intros i.
  rewrite particle64_layer, particle_at_layer.
  rewrite layerIndex64_pos, layerIndex_pos by lia. reflexivity.
Qed.

(** *** Particle count, layers and identifiers *)

(** Claim C1.  For a configuration with [particleCount = N > 0] and
    [spiralLayers = L > 0], the generator returns exactly [N] particles, and
    the particle at index [i] has [layer] equal to [i mod L], a value in
    [0, L). *)
Theorem C1_count_and_layers (Math_cos Math_sin : num -> num)
    (config : EffectConfig) (h : Host) (N L : Z) :
  particleCount (parameters config) = N ->
  spiralLayers (parameters config) = L ->
  0 < N ->
  0 < L ->
  let particles :=
    re_particles (fst (generateTornadoEffect Math_cos Math_sin config h)) in
  length particles = Z.to_nat N /\
  forall i : nat,
    (i < Z.to_nat N)%nat ->
    exists p,
      particles !! i = Some p /\
      layer p = of_Z (Z.of_nat i mod L) /\
      0 <= Z.of_nat i mod L < L.
Proof.
  intros HN HL HNpos HLpos particles. subst particles N L. split.
  - apply generate_length.
  - intros i Hi.
    exists (particle_at Math_cos Math_sin config (skip_clock 1 h) i).
    split; [|split].
    + apply generate_lookup. auto.
    + rewrite particle_at_layer. now apply layerIndex_pos.
    + apply Z.mod_pos_bound. assumption.
Qed.

(** Claim C10.  The particle at list position [i] has [id = i]; the
    identifiers are [0 .. N-1] in order, and pairwise distinct. *)
Theorem C10_ids_in_order (Math_cos Math_sin : num -> num)
    (config : EffectConfig) (h : Host) :
  let particles :=
    re_particles (fst (generateTornadoEffect Math_cos Math_sin config h)) in
  map id particles =
    map of_nat (seq 0 (Z.to_nat (particleCount (parameters config)))) /\
  NoDup (map id particles) /\
  forall (i : nat) (p : Particle), particles !! i = Some p -> id p = of_nat i.
Proof.
  intros particles. subst particles.
  assert (Hids : map id (re_particles
                   (fst (generateTornadoEffect Math_cos Math_sin config h))) =
                 map of_nat (seq 0 (Z.to_nat (particleCount (parameters config))))).
  { rewrite generate_particles, map_map. apply map_ext.
    intros i. apply particle_at_id. }
  split; [exact Hids|split].
  - rewrite Hids. apply NoDup_fmap_2.
    + intros a b. apply of_nat_inj.
    + apply NoDup_seq.
  - intros i p Hp. apply generate_lookup in Hp as [_ ->].
    apply particle_at_id.
Qed.

(** *** Radii *)

Lemma spiralRadius_of_Z (l : Z) : spiralRadius_of (of_Z l) = of_Z (40 + 60 * l).
Proof.
  unfold spiralRadius_of. rewrite mul_of_Z, add_of_Z. f_equal. ring.
Qed.

Lemma radius_of_layer (l L : Z) (parameters : Parameters) :
  spiralLayers parameters = L ->
  L <> 0 ->
  exists q,
    JS.sub (of_Z 8) (JS.mul (radiusScale_of (of_Z l) parameters) (of_Z 4)) = Fin q /\
    (q == 8 - 4 * (inject_Z l / inject_Z L))%Q.
Proof.
  intros HL HL0. unfold radiusScale_of, of_Z. rewrite HL.
  cbn [JS.div].
  rewrite Qeq_bool_inject_Z_0 by assumption.
  cbn [JS.mul JS.sub]. eexists. split; [reflexivity|].
  rewrite !Qred_correct. change (inject_Z 8) with 8%Q.
  change (inject_Z 4) with 4%Q. ring.
Qed.

Lemma fraction_of_layer (l L : Z) :
  0 <= l < L -> (0 <= inject_Z l / inject_Z L)%Q /\ (inject_Z l / inject_Z L < 1)%Q.
Proof.
  intros Hl.
  assert (HL : (0 < inject_Z L)%Q) by (unfold Qlt; simpl; lia).
  split.
  - apply Qle_shift_div_l; [assumption|]. unfold Qle. simpl. lia.
  - apply Qlt_shift_div_r; [assumption|]. unfold Qlt. simpl. lia.
Qed.

Lemma spiralRadius64_of_Z (l : Z) :
  0 <= l <= 2 ^ 46 -> Tornado64.spiralRadius_of (of_Z l) = of_Z (40 + 60 * l).
Proof.
  intros Hl. unfold Tornado64.spiralRadius_of.
  assert (H46 : 2 ^ 46 = 70368744177664) by reflexivity.
  assert (H53 : 2 ^ 53 = 9007199254740992) by reflexivity.
  rewrite mul_of_Z64 by lia. rewrite add_of_Z64 by lia. f_equal. ring.
Qed.

(** The radius of a particle of layer [l] out of [L]: the three roundings
    of [8 - (l / L) * 4] stay within [2^-49] of the exact value. *)
Lemma radius64_of_layer (l L : Z) (parameters : Parameters) :
  spiralLayers parameters = L ->
  0 <= l < L ->
  exists q,
    B64.sub (of_Z 8)
      (B64.mul (Tornado64.radiusScale_of (of_Z l) parameters) (of_Z 4)) = Fin q /\
    (8 - 4 * (inject_Z l / inject_Z L) - pow2 (-49) <= q)%Q /\
    (q <= 8 - 4 * (inject_Z l / inject_Z L) + pow2 (-49))%Q /\
    (4 <= q)%Q /\ (q <= 8)%Q.
Proof.
  intros HL Hl. unfold Tornado64.radiusScale_of, of_Z. rewrite HL.
  destruct (fraction_of_layer l L Hl) as [F0 F1].
  set (f := (inject_Z l / inject_Z L)%Q) in *.
  assert (HLq : ~ (inject_Z L == 0)%Q).
  { intros H. unfold Qeq in H. simpl in H. lia. }
  rewrite div_fin by assumption. fold f.
  (* the quotient *)
  destruct (round64_bounded f 0) as (a & Ha & _ & _ & A1 & A2);
    [eval_pow2; lra|eval_pow2; lra|lia|].
  destruct (round64_between f 0 1) as (a' & Ha' & A3 & A4);
    [lia|lia|exact F0|apply Qlt_le_weak; exact F1|].
  rewrite Ha in Ha'. apply Fin_inj in Ha'. subst a'.
  change (inject_Z 0) with 0%Q in A3. change (inject_Z 1) with 1%Q in A4.
  rewrite Ha, mul_fin. change (inject_Z 4) with 4%Q.
  (* times four *)
  destruct (round64_bounded (a * 4) 2) as (b & Hb & _ & _ & B1 & B2);
    [eval_pow2; lra|eval_pow2; lra|lia|].
  destruct (round64_between (a * 4) 0 4) as (b' & Hb' & B3 & B4);
    [lia|lia|change (inject_Z 0) with 0%Q; lra|change (inject_Z 4) with 4%Q; lra|].
  rewrite Hb in Hb'. apply Fin_inj in Hb'. subst b'.
  change (inject_Z 0) with 0%Q in B3. change (inject_Z 4) with 4%Q in B4.
  rewrite Hb, sub_fin. change (inject_Z 8) with 8%Q.
  (* eight minus *)
  destruct (round64_bounded (8 - b) 3) as (c & Hc & _ & _ & C1 & C2);
    [eval_pow2; lra|eval_pow2; lra|lia|].
  destruct (round64_between (8 - b) 4 8) as (c' & Hc' & C3 & C4);
    [lia|lia|change (inject_Z 4) with 4%Q; lra|change (inject_Z 8) with 8%Q; lra|].
  rewrite Hc in Hc'. apply Fin_inj in Hc'. subst c'.
  change (inject_Z 4) with 4%Q in C3. change (inject_Z 8) with 8%Q in C4.
  exists c. split; [exact Hc|].
  eval_pow2. repeat split; lra.
Qed.

(** On at most [2^46] layers, two layers differ by at least [2^-44] in
    [4 * (l / L)]. *)
Lemma layer_gap (l1 l2 L : Z) :
  0 < L -> L <= 2 ^ 46 -> l1 < l2 ->
  (4 * (inject_Z l1 / inject_Z L) + pow2 (-44) <= 4 * (inject_Z l2 / inject_Z L))%Q.
Proof.
  intros HL HL46 Hl.
  assert (HLq : (0 < inject_Z L)%Q) by (unfold Qlt; simpl; lia).
  assert (H : (pow2 (-46) <= (inject_Z l2 - inject_Z l1) / inject_Z L)%Q).
  { apply Qle_shift_div_l; [assumption|].
    apply Qle_trans with 1%Q.
    - assert (HQ : (inject_Z L <= inject_Z (2 ^ 46))%Q) by (rewrite <- Zle_Qle; lia).
      rewrite <- (pow2_Z 46) in HQ by lia.
      assert (E : (pow2 (-46) * pow2 46 == 1)%Q) by reflexivity.
      rewrite <- E. apply Qmult_le_l; [apply pow2_pos|assumption].
    - unfold Qminus. rewrite <- inject_Z_opp, <- inject_Z_plus.
      change 1%Q with (inject_Z 1). rewrite <- Zle_Qle. lia. }
  assert (E : ((inject_Z l2 - inject_Z l1) / inject_Z L ==
               inject_Z l2 / inject_Z L - inject_Z l1 / inject_Z L)%Q).
  { field. intros H0. rewrite H0 in HLq. lra. }
  rewrite E in H. eval_pow2. lra.
Qed.

(** Rounding keeps the order of the layers: a higher layer never has the
    larger radius. *)
Lemma radius64_antitone (l1 l2 L : Z) (parameters : Parameters) (q1 q2 : Q) :
  spiralLayers parameters = L ->
  0 <= l1 -> l1 <= l2 -> l2 < L ->
  B64.sub (of_Z 8)
    (B64.mul (Tornado64.radiusScale_of (of_Z l1) parameters) (of_Z 4)) = Fin q1 ->
  B64.sub (of_Z 8)
    (B64.mul (Tornado64.radiusScale_of (of_Z l2) parameters) (of_Z 4)) = Fin q2 ->
  (q2 <= q1)%Q.
Proof.
  intros HL H0 H12 H2. unfold Tornado64.radiusScale_of, of_Z. rewrite HL.
  destruct (fraction_of_layer l1 L ltac:(lia)) as [F10 F11].
  destruct (fraction_of_layer l2 L ltac:(lia)) as [F20 F21].
  assert (HLq : (0 < inject_Z L)%Q) by (apply inject_Z_pos; lia).
  assert (HLn : ~ (inject_Z L == 0)%Q) by lra.
  assert (Hf : (inject_Z l1 / inject_Z L <= inject_Z l2 / inject_Z L)%Q).
  { apply Qmult_le_compat_r; [rewrite <- Zle_Qle; assumption|].
    apply Qlt_le_weak, Qinv_lt_0_compat, HLq. }
  rewrite !div_fin by assumption.
  destruct (round64_between (inject_Z l1 / inject_Z L) 0 1) as (a1 & Ha1 & A11 & A12);
    [lia|lia|exact F10|apply Qlt_le_weak; exact F11|].
  destruct (round64_between (inject_Z l2 / inject_Z L) 0 1) as (a2 & Ha2 & A21 & A22);
    [lia|lia|exact F20|apply Qlt_le_weak; exact F21|].
  pose proof (round64_mono _ _ _ _ Hf Ha1 Ha2) as Ha.
  change (inject_Z 0) with 0%Q in *. change (inject_Z 1) with 1%Q in *.
  rewrite Ha1, Ha2, !mul_fin. change (inject_Z 4) with 4%Q.
  destruct (round64_between (a1 * 4) 0 4) as (b1 & Hb1 & B11 & B12);
    [lia|lia|change (inject_Z 0) with 0%Q; lra|change (inject_Z 4) with 4%Q; lra|].
  destruct (round64_between (a2 * 4) 0 4) as (b2 & Hb2 & B21 & B22);
    [lia|lia|change (inject_Z 0) with 0%Q; lra|change (inject_Z 4) with 4%Q; lra|].
  assert (Hb : (b1 <= b2)%Q) by (apply (round64_mono (a1 * 4) (a2 * 4)); [lra|assumption|assumption]).
  rewrite Hb1, Hb2, !sub_fin. change (inject_Z 8) with 8%Q.
  intros Hq1 Hq2.
  apply (round64_mono (8 - b2) (8 - b1)); [lra|assumption|assumption].
Qed.

(** Claim C8, in binary64.  A higher layer never has the larger visual
    radius.  With [spiralLayers = L] between 1 and [2^46], a particle of
    layer [l] is placed on the spiral radius [40 + 60 * l], exactly, and has
    the binary64 value of [8 - (l / L) * 4] as visual radius, which is
    within [2^-49] of [8 - 4 * (l / L)]; between two particles, the one of
    the higher layer has the larger spiral radius and the smaller visual
    radius. *)
Theorem C8_radii_by_layer (Math_cos Math_sin : num -> num)
    (config : EffectConfig) (h : Host) (L : Z) :
  spiralLayers (parameters config) = L ->
  0 < L ->
  L < 2 ^ 53 ->
  let particles :=
    re_particles (fst (Tornado64.generateTornadoEffect Math_cos Math_sin config h)) in
  (forall (i j : nat) (p1 p2 : Particle),
      particles !! i = Some p1 ->
      particles !! j = Some p2 ->
      JS.lt (layer p1) (layer p2) = true ->
      JS.lt (radius p1) (radius p2) = false) /\
  (L <= 2 ^ 46 ->
   (forall (i : nat) (p : Particle),
       particles !! i = Some p ->
       let l := Z.of_nat i mod L in
       let angle := Tornado64.angle_of i (parameters config) in
       layer p = of_Z l /\
       Tornado64.spiralRadius_of (layer p) = of_Z (40 + 60 * l) /\
       x p = B64.add (pos_x (position config))
               (B64.mul (Math_cos angle) (Tornado64.spiralRadius_of (layer p))) /\
       z p = B64.mul (Math_sin angle) (Tornado64.spiralRadius_of (layer p)) /\
       exists q,
         radius p = Fin q /\
         (8 - 4 * (inject_Z l / inject_Z L) - pow2 (-49) <= q)%Q /\
         (q <= 8 - 4 * (inject_Z l / inject_Z L) + pow2 (-49))%Q) /\
   (forall (i j : nat) (p1 p2 : Particle),
       particles !! i = Some p1 ->
       particles !! j = Some p2 ->
       JS.lt (layer p1) (layer p2) = true ->
       JS.lt (Tornado64.spiralRadius_of (layer p1))
             (Tornado64.spiralRadius_of (layer p2)) = true /\
       JS.lt (radius p2) (radius p1) = true)).
Proof.
  intros HL HLpos HL53 particles. subst particles.
  assert (H46 : 2 ^ 46 = 70368744177664) by reflexivity.
  assert (H53 : 2 ^ 53 = 9007199254740992) by reflexivity.
  assert (Hone : forall (i : nat) (p : Particle),
      re_particles (fst (Tornado64.generateTornadoEffect Math_cos Math_sin config h))
        !! i = Some p ->
      layer p = of_Z (Z.of_nat i mod L) /\
      radius p =
        B64.sub (of_Z 8)
          (B64.mul (Tornado64.radiusScale_of (of_Z (Z.of_nat i mod L))
                      (parameters config)) (of_Z 4)) /\
      exists q, radius p = Fin q /\
        (8 - 4 * (inject_Z (Z.of_nat i mod L) / inject_Z L) - pow2 (-49) <= q)%Q /\
        (q <= 8 - 4 * (inject_Z (Z.of_nat i mod L) / inject_Z L) + pow2 (-49))%Q).
  { intros i p Hp. apply generate64_lookup in Hp as [_ ->].
    rewrite particle64_layer, particle64_radius.
    rewrite layerIndex64_pos by lia. rewrite HL.
    split; [reflexivity|]. split; [reflexivity|].
    destruct (radius64_of_layer (Z.of_nat i mod L) L (parameters config) HL)
      as (q & Hq & Q1 & Q2 & _); [apply Z.mod_pos_bound; lia|].
    exists q. auto. }
  split; [|intros HL46; split].
  - intros i j p1 p2 H1 H2 Hlt.
    destruct (Hone i p1 H1) as (Hl1 & He1 & q1 & Hr1 & _).
    destruct (Hone j p2 H2) as (Hl2 & He2 & q2 & Hr2 & _).
    pose proof (Z.mod_pos_bound (Z.of_nat i) L HLpos) as Hb1.
    pose proof (Z.mod_pos_bound (Z.of_nat j) L HLpos) as Hb2.
    rewrite Hl1, Hl2 in Hlt. apply lt_of_Z in Hlt.
    rewrite Hr1 in He1. rewrite Hr2 in He2.
    assert (Hq : (q2 <= q1)%Q).
    { apply (radius64_antitone (Z.of_nat i mod L) (Z.of_nat j mod L) L
               (parameters config) q1 q2 HL); try lia; congruence. }
    rewrite Hr1, Hr2.
    destruct (JS.lt (Fin q1) (Fin q2)) eqn:E; [|reflexivity].
    apply lt_Fin in E. lra.
  - intros i p Hp l angle. destruct (Hone i p Hp) as (Hl & _ & Hr).
    pose proof (Z.mod_pos_bound (Z.of_nat i) L HLpos) as Hlb. fold l in Hlb.
    split; [exact Hl|]. split; [rewrite Hl; apply spiralRadius64_of_Z; lia|].
    apply generate64_lookup in Hp as [_ ->].
    rewrite particle64_x, particle64_z, particle64_layer.
    split; [reflexivity|]. split; [reflexivity|].
    destruct Hr as (q & Hq & Q1 & Q2). exists q.
    rewrite particle64_layer in Hl. auto.
  - intros i j p1 p2 H1 H2 Hlt.
    destruct (Hone i p1 H1) as (Hl1 & _ & q1 & Hr1 & Q11 & Q12).
    destruct (Hone j p2 H2) as (Hl2 & _ & q2 & Hr2 & Q21 & Q22).
    pose proof (Z.mod_pos_bound (Z.of_nat i) L HLpos) as Hb1.
    pose proof (Z.mod_pos_bound (Z.of_nat j) L HLpos) as Hb2.
    rewrite Hl1, Hl2 in Hlt |- *. apply lt_of_Z in Hlt. split.
    + rewrite !spiralRadius64_of_Z by lia. apply lt_of_Z. lia.
    + rewrite Hr1, Hr2. apply lt_Fin.
      pose proof (layer_gap _ _ L HLpos HL46 Hlt) as Hgap.
      eval_pow2. lra.
Qed.

(** Claim C8 fails as stated: on [2^53] layers the quotient [1 / L] is
    [2^-53], four times that is half the spacing of the binary64 values
    under 8, the tie goes to the even neighbour, and the particle of layer
    1 gets the radius 8 of the particle of layer 0. *)
Lemma C8_radii_equal_on_many_layers :
  exists p1 p2 : Particle,
    re_particles
      (fst (Tornado64.generateTornadoEffect (fun a => a) (fun a => a)
              (sample_config 2 many_layers) sample_host)) = [p1; p2] /\
    layer p1 = of_Z 0 /\ layer p2 = of_Z 1 /\
    JS.lt (layer p1) (layer p2) = true /\
    radius p1 = of_Z 8 /\ radius p2 = of_Z 8 /\
    JS.lt (radius p2) (radius p1) = false.
Proof.
  do 2 eexists. split; [vm_compute; reflexivity|]. repeat split.
Qed.

(** *** Colours *)

Lemma gt_lit (q t : Q) : JS.gt (Fin q) (lit t) = true <-> (t < q)%Q.
Proof.
  unfold JS.gt, lit. rewrite lt_Fin. now rewrite Qred_correct.
Qed.

Lemma gt_lit_false (q t : Q) : JS.gt (Fin q) (lit t) = false <-> (q <= t)%Q.
Proof.
  pose proof (gt_lit q t) as H.
  destruct (JS.gt (Fin q) (lit t)); split; intros H'.
  - discriminate.
  - assert (t < q)%Q by now apply H. lra.
  - apply Qnot_lt_le. intros Hlt. apply H in Hlt. discriminate.
  - reflexivity.
Qed.

(** The ladder, read as bands of the sample. *)
Lemma pick_color_bands (q : Q) :
  (pick_color (Fin q) = "#ffffff"%string /\ (0.85 < q)%Q) \/
  (pick_color (Fin q) = "#ffff99"%string /\ band 0.7 0.85 q) \/
  (pick_color (Fin q) = "#ffaa00"%string /\ band 0.5 0.7 q) \/
  (pick_color (Fin q) = "#ff6600"%string /\ band 0.3 0.5 q) \/
  (pick_color (Fin q) = "#cc3300"%string /\ (q <= 0.3)%Q).
Proof.
  unfold pick_color, band.
  destruct (JS.gt (Fin q) (lit 0.85)) eqn:E1.
  { left. apply gt_lit in E1. auto. }
  apply gt_lit_false in E1.
  destruct (JS.gt (Fin q) (lit 0.7)) eqn:E2.
  { right; left. apply gt_lit in E2. auto. }
  apply gt_lit_false in E2.
  destruct (JS.gt (Fin q) (lit 0.5)) eqn:E3.
  { right; right; left. apply gt_lit in E3. auto. }
  apply gt_lit_false in E3.
  destruct (JS.gt (Fin q) (lit 0.3)) eqn:E4.
  { right; right; right; left. apply gt_lit in E4. auto. }
  apply gt_lit_false in E4.
  right; right; right; right. auto.
Qed.

(** Claim C6.  Each particle's colour is one of the five fixed values.  It
    is chosen by one sample of [0, 1), the third of the five that the
    particle's pass draws, compared with 0.85, 0.7, 0.5 and 0.3; the bands
    of the sample that select the five colours have widths 0.15, 0.15, 0.2,
    0.2 and 0.3. *)
Theorem C6_color_of_particle (Math_cos Math_sin : num -> num)
    (config : EffectConfig) (h : Host) (i : nat) (p : Particle) :
  (forall k : nat, unit_sample (random_tape h k)) ->
  re_particles (fst (generateTornadoEffect Math_cos Math_sin config h)) !! i
    = Some p ->
  color p ∈ five_colors /\
  (exists q : Q,
      sample h (5 * i + 2) = Fin q /\
      (0 <= q)%Q /\ (q < 1)%Q /\
      color p = pick_color (Fin q) /\
      ((color p = "#ffffff"%string /\ band 0.85 1 q) \/
       (color p = "#ffff99"%string /\ band 0.7 0.85 q) \/
       (color p = "#ffaa00"%string /\ band 0.5 0.7 q) \/
       (color p = "#ff6600"%string /\ band 0.3 0.5 q) \/
       (color p = "#cc3300"%string /\ (0 <= q)%Q /\ (q <= 0.3)%Q))) /\
  (1 - 0.85 == 0.15 /\ 0.85 - 0.7 == 0.15 /\ 0.7 - 0.5 == 0.2 /\
   0.5 - 0.3 == 0.2 /\ 0.3 - 0 == 0.3)%Q.
Proof.
  intros Hunit Hp. apply generate_lookup in Hp as [_ ->].
  rewrite particle_at_color.
  assert (Hs : sample (skip_clock 1 h) (5 * i + 2) = sample h (5 * i + 2))
    by reflexivity.
  rewrite Hs.
  destruct (Hunit (5 * i + 2 + random_calls h)%nat) as (q & Hq & Hq0 & Hq1).
  fold (sample h (5 * i + 2)) in Hq. rewrite Hq.
  pose proof (pick_color_bands q) as Hb.
  split; [|split].
  - unfold five_colors.
    destruct Hb as [[-> _]|[[-> _]|[[-> _]|[[-> _]|[-> _]]]]]; set_solver.
  - exists q. split; [reflexivity|]. split; [assumption|]. split; [assumption|].
    split; [reflexivity|]. unfold band in *.
    destruct Hb as [[Hc Hb]|[[Hc Hb]|[[Hc Hb]|[[Hc Hb]|[Hc Hb]]]]]; rewrite Hc.
    + left. repeat split; [assumption|lra].
    + right; left. tauto.
    + right; right; left. tauto.
    + right; right; right; left. tauto.
    + right; right; right; right. tauto.
  - repeat split; reflexivity.
Qed.

(** ** The message handler *)

Lemma received_app (out1 out2 : list Output) (c : Conn) :
  received (out1 ++ out2) c = received out1 c ++ received out2 c.
Proof. unfold received. apply flat_map_app. Qed.

Section RelayFacts.

Variable JSON_parse : string -> option JValue.
Variables Math_cos Math_sin : num -> num.
Variable env_PORT : option string.

Lemma broadcast_skips (st : Server) (ws : Conn) (b : Broadcast) (c : Conn) :
  c = ws \/ c ∉ wss_clients st \/ readyState st c <> OPEN ->
  received (broadcast_all st ws b) c = [].
Proof.
  intros Hc. unfold broadcast_all.
  induction (wss_clients st) as [|d l IH]; [reflexivity|].
  cbn [flat_map]. rewrite received_app, IH.
  - rewrite app_nil_r.
    destruct (bool_decide (d ≠ ws)) eqn:E1; [|reflexivity].
    destruct (bool_decide (readyState st d = OPEN)) eqn:E2; [|reflexivity].
    apply bool_decide_eq_true in E1, E2. cbn.
    destruct (bool_decide (d = c)) eqn:E3; [|reflexivity].
    apply bool_decide_eq_true in E3. subst d.
    destruct Hc as [Hc|[Hc|Hc]]; [congruence| |congruence].
    exfalso. apply Hc. left.
  - destruct Hc as [Hc|[Hc|Hc]]; auto.
    right; left. intros Hin. apply Hc. now right.
Qed.

Lemma broadcast_reaches (st : Server) (ws : Conn) (b : Broadcast) (c : Conn) :
  NoDup (wss_clients st) ->
  c <> ws ->
  c ∈ wss_clients st ->
  readyState st c = OPEN ->
  received (broadcast_all st ws b) c = [MBroadcast b].
Proof.
  intros Hnd Hne Hin Hopen. unfold broadcast_all.
  induction (wss_clients st) as [|d l IH]; [inversion Hin|].
  apply NoDup_cons in Hnd as [Hd Hnd].
  cbn [flat_map]. rewrite received_app.
  destruct (decide (d = c)) as [->|Hdc].
  - rewrite bool_decide_eq_true_2 by assumption.
    rewrite bool_decide_eq_true_2 by assumption. cbn.
    rewrite bool_decide_eq_true_2 by reflexivity. cbn. f_equal.
    clear IH Hin Hnd. induction l as [|e l IH]; [reflexivity|].
    cbn [flat_map]. rewrite received_app, IH.
    + rewrite app_nil_r.
      destruct (bool_decide (e ≠ ws) && bool_decide (readyState st e = OPEN));
        [|reflexivity].
      cbn. rewrite bool_decide_eq_false_2; [reflexivity|].
      intros ->. apply Hd. left.
    + intros Hin. apply Hd. now right.
  - apply elem_of_cons in Hin as [Hin|Hin]; [congruence|].
    rewrite IH by assumption.
    destruct (bool_decide (d ≠ ws) && bool_decide (readyState st d = OPEN));
      [|reflexivity].
    cbn. now rewrite bool_decide_eq_false_2.
Qed.

Lemma broadcast_all_count (st : Server) (ws : Conn) (b : Broadcast) :
  broadcast_all (count_message st) ws b = broadcast_all st ws b.
Proof. reflexivity. Qed.

(** Every run of the handler ends in the state [count_message st]. *)
Lemma on_message_state (st : Server) (ws : Conn) (data : string) (h : Host) :
  fst (fst (on_message JSON_parse Math_cos Math_sin env_PORT st ws data h)) =
  count_message st.
Proof.
  unfold on_message.
  destruct (JSON_parse data) as [parsed|]; [|reflexivity].
  destruct (prop parsed "command") as [command|]; [|reflexivity].
  destruct (strict_eq_str command "render_effect"
            && strict_eq_str (get parsed "effectType") "fire_tornado").
  - destruct (view_config (get parsed "config")) as [| |config|];
      try reflexivity.
    unfold bind.
    destruct (render_branch Math_cos Math_sin (count_message st) ws parsed config h).
    reflexivity.
  - unfold bind. destruct (echo_branch env_PORT ws parsed h). reflexivity.
Qed.

(** What the handler produces does not depend on the message counter. *)
Lemma on_message_counter_blind (st : Server) (ws : Conn) (data : string) (h : Host) :
  let r := on_message JSON_parse Math_cos Math_sin env_PORT st ws data h in
  let r' :=
    on_message JSON_parse Math_cos Math_sin env_PORT (count_message st) ws data h in
  snd (fst r') = snd (fst r) /\ snd r' = snd r.
Proof.
  unfold on_message.
  destruct (JSON_parse data) as [parsed|]; [|split; reflexivity].
  destruct (prop parsed "command") as [command|]; [|split; reflexivity].
  destruct (strict_eq_str command "render_effect"
            && strict_eq_str (get parsed "effectType") "fire_tornado").
  - destruct (view_config (get parsed "config")) as [| |config|];
      try (split; reflexivity).
    unfold bind, render_branch, bind.
    destruct (generateTornadoEffect Math_cos Math_sin config h) as [e h1].
    split; reflexivity.
  - split; reflexivity.
Qed.

(** The render branch, spelled out. *)
Lemma on_message_render (st : Server) (ws : Conn) (data : string) (h : Host)
    (parsed : JValue) (config : EffectConfig) :
  JSON_parse data = Some parsed ->
  is_render_request parsed = true ->
  view_config (get parsed "config") = Typed config ->
  outcome_of JSON_parse Math_cos Math_sin env_PORT st ws data h =
  Outputs ([Send ws (MRendered (reply_of Math_cos Math_sin parsed config h));
            Console (TornadoRendered (pos_x (position config))
                       (pos_y (position config)))]
             ++ broadcast_all st ws (broadcast_of Math_cos Math_sin config h)).
Proof.
  intros Hparse Hreq Hcfg.
  unfold outcome_of, on_message. rewrite Hparse.
  unfold is_render_request in Hreq.
  destruct (prop parsed "command") as [command|] eqn:Ec; [|discriminate].
  assert (Het : prop parsed "effectType" = Some (get parsed "effectType")).
  { unfold get. destruct (prop parsed "effectType"); [reflexivity|discriminate]. }
  rewrite Het in Hreq. rewrite Hreq, Hcfg.
  unfold reply_of, broadcast_of, bind, render_branch, bind.
  destruct (generateTornadoEffect Math_cos Math_sin config h) as [e h1].
  reflexivity.
Qed.

(** A render request without [config], or without [config.parameters],
    raises inside [generateTornadoEffect] and ends in the [catch] block. *)
Lemma on_message_without_config (st : Server) (ws : Conn) (data : string)
    (h : Host) (parsed : JValue) :
  JSON_parse data = Some parsed ->
  is_render_request parsed = true ->
  view_config (get parsed "config") = NoConfig \/
  view_config (get parsed "config") = NoParameters ->
  outcome_of JSON_parse Math_cos Math_sin env_PORT st ws data h =
  Outputs [Console ParseError].
Proof.
  intros Hparse Hreq Hcfg.
  unfold outcome_of, on_message. rewrite Hparse.
  unfold is_render_request in Hreq.
  destruct (prop parsed "command") as [command|] eqn:Ec; [|discriminate].
  assert (Het : prop parsed "effectType" = Some (get parsed "effectType")).
  { unfold get. destruct (prop parsed "effectType"); [reflexivity|discriminate]. }
  rewrite Het in Hreq. rewrite Hreq.
  destruct Hcfg as [-> | ->]; reflexivity.
Qed.

(** The echo branch, spelled out: any decoded payload other than [null]
    that fails the render test is echoed. *)
Lemma on_message_echo (st : Server) (ws : Conn) (data : string) (h : Host)
    (parsed : JValue) :
  JSON_parse data = Some parsed ->
  parsed <> JNull ->
  is_render_request parsed = false ->
  outcome_of JSON_parse Math_cos Math_sin env_PORT st ws data h =
  Outputs [Send ws (MEcho {| echo_type := "response";
                             echo_original := parsed;
                             echo_processed := true;
                             echo_port := PORT env_PORT;
                             echo_timestamp := fst (Date_now h) |})].
Proof.
  intros Hparse Hnull Hreq. unfold outcome_of, on_message. rewrite Hparse.
  unfold is_render_request in Hreq.
  destruct (prop parsed "command") as [command|] eqn:Ec.
  - assert (Het : prop parsed "effectType" = Some (get parsed "effectType")).
    { unfold get. destruct parsed; try reflexivity. discriminate. }
    rewrite Het in Hreq. rewrite Hreq. reflexivity.
  - destruct parsed; try discriminate. congruence.
Qed.

End RelayFacts.

(** *** Frame of the handler *)

(** Claim C9.  Handling one inbound message, whatever it is, leaves the
    roster as it was; of the server state only the message counter changes,
    and it grows by one. *)
Theorem C9_message_frame (JSON_parse : string -> option JValue)
    (Math_cos Math_sin : num -> num) (env_PORT : option string)
    (st : Server) (ws : Conn) (data : string) (h : Host) :
  let st' :=
    fst (fst (on_message JSON_parse Math_cos Math_sin env_PORT st ws data h)) in
  clients st' = clients st /\
  messageCount st' = S (messageCount st) /\
  wss_clients st' = wss_clients st /\
  readyState st' = readyState st.
Proof.
  intros st'. subst st'. rewrite on_message_state. repeat split.
Qed.

(** *** Malformed input *)

(** Claim C4.  When the bytes are not valid JSON, nothing is sent to any
    connection, the message counter still grows by one, the connection's
    state is untouched, and a later message on the same connection is
    handled exactly as it would have been without the malformed one. *)
Theorem C4_malformed_dropped (JSON_parse : string -> option JValue)
    (Math_cos Math_sin : num -> num) (env_PORT : option string)
    (st : Server) (ws : Conn) (data : string) (h : Host) :
  JSON_parse data = None ->
  let r := on_message JSON_parse Math_cos Math_sin env_PORT st ws data h in
  let st' := fst (fst r) in
  (exists out, snd (fst r) = Outputs out /\ forall c, received out c = []) /\
  messageCount st' = S (messageCount st) /\
  clients st' = clients st /\
  wss_clients st' = wss_clients st /\
  readyState st' ws = readyState st ws /\
  snd r = h /\
  forall (data2 : string) (h2 : Host),
    outcome_of JSON_parse Math_cos Math_sin env_PORT st' ws data2 h2 =
    outcome_of JSON_parse Math_cos Math_sin env_PORT st ws data2 h2.
Proof.
  intros Hparse r st'.
  assert (Hst : st' = count_message st) by apply on_message_state.
  assert (Hr : r = (count_message st, Outputs [Console ParseError], h)).
  { subst r. unfold on_message. rewrite Hparse. reflexivity. }
  rewrite Hst, Hr. cbn [fst snd]. split.
  { eexists. split; [reflexivity|]. intros c. reflexivity. }
  repeat split.
  intros data2 h2. unfold outcome_of.
  apply (on_message_counter_blind JSON_parse Math_cos Math_sin env_PORT
           st ws data2 h2).
Qed.

Lemma C4_malformed_dropped_witness :
  messageCount
    (fst (fst (on_message (fun _ => None) (fun a => a) (fun a => a) None
                 sample_server 1%nat "{oops" sample_host))) = 42%nat.
Proof.
  pose proof (C4_malformed_dropped (fun _ => None) (fun a => a) (fun a => a)
                None sample_server 1%nat "{oops" sample_host eq_refl) as H.
  cbv zeta in H. destruct H as (_ & H2 & _). exact H2.
Defined.

(** *** The echo path *)

(** Claim C5, at the payload [null].  The text [null] is valid JSON and is
    not a render request, yet reading [parsed.command] raises, the [catch]
    block logs a parse error, and the sender receives nothing. *)
Theorem C5_null_payload_not_echoed (JSON_parse : string -> option JValue)
    (Math_cos Math_sin : num -> num) (env_PORT : option string)
    (st : Server) (ws : Conn) (data : string) (h : Host) :
  JSON_parse data = Some JNull ->
  is_render_request JNull = false /\
  outcome_of JSON_parse Math_cos Math_sin env_PORT st ws data h =
    Outputs [Console ParseError] /\
  forall c, received [Console ParseError] c = [].
Proof.
  intros Hparse. split; [reflexivity|]. split.
  - unfold outcome_of, on_message. rewrite Hparse. reflexivity.
  - intros c. reflexivity.
Qed.

Lemma C5_null_payload_not_echoed_witness :
  outcome_of parse_null_only (fun a => a) (fun a => a) None
    sample_server 1%nat "null" sample_host = Outputs [Console ParseError].
Proof.
  apply (C5_null_payload_not_echoed parse_null_only (fun a => a) (fun a => a)
           None sample_server 1%nat "null" sample_host eq_refl).
Defined.

(** *** The render path *)

Lemma generate_renderTime (Math_cos Math_sin : num -> num)
    (config : EffectConfig) (h : Host) :
  re_renderTime (fst (generateTornadoEffect Math_cos Math_sin config h)) =
  JS.sub (clock_tape h (1 + clock_calls h)) (clock_tape h (clock_calls h)).
Proof.
  unfold generateTornadoEffect, bind. cbn [Date_now].
  rewrite tornado_loop_spec. reflexivity.
Qed.

Lemma received_reply_head (ws c : Conn) (m : Message) (line : LogLine)
    (rest : list Output) :
  received ([Send ws m; Console line] ++ rest) c =
  (if bool_decide (ws = c) then [m] else []) ++ received rest c.
Proof.
  rewrite received_app. cbn. now rewrite app_nil_r.
Qed.

(** Claim C2, for requests that carry a configuration.  A render request
    from [ws] whose [config] has the shape of [EffectConfig] is answered by
    exactly one 'effect_rendered' message to [ws], carrying the whole
    particle list and the render time; every other open connection gets
    exactly one 'effect_broadcast' with the position and the parameters of
    the request and no particle data; [ws] gets no broadcast, and
    connections that are not open get nothing. *)
Theorem C2_reply_and_broadcast (JSON_parse : string -> option JValue)
    (Math_cos Math_sin : num -> num) (env_PORT : option string)
    (st : Server) (ws : Conn) (data : string) (h : Host)
    (parsed : JValue) (config : EffectConfig) :
  JSON_parse data = Some parsed ->
  is_render_request parsed = true ->
  view_config (get parsed "config") = Typed config ->
  NoDup (wss_clients st) ->
  exists (out : list Output) (reply : RenderedReply),
    outcome_of JSON_parse Math_cos Math_sin env_PORT st ws data h = Outputs out /\
    received out ws = [MRendered reply] /\
    rr_type reply = "effect_rendered"%string /\
    rr_effectType reply = "fire_tornado"%string /\
    rr_data reply = fst (generateTornadoEffect Math_cos Math_sin config h) /\
    length (re_particles (rr_data reply)) =
      Z.to_nat (particleCount (parameters config)) /\
    rr_renderTime reply = re_renderTime (rr_data reply) /\
    re_renderTime (rr_data reply) =
      JS.sub (clock_tape h (1 + clock_calls h)) (clock_tape h (clock_calls h)) /\
    (forall c : Conn,
        c <> ws -> c ∈ wss_clients st -> readyState st c = OPEN ->
        exists b : Broadcast,
          received out c = [MBroadcast b] /\
          bc_type b = "effect_broadcast"%string /\
          bc_effectType b = "fire_tornado"%string /\
          bc_position b = position config /\
          bc_config b = parameters config /\
          particles_in (MBroadcast b) = None) /\
    (forall c : Conn,
        c <> ws -> c ∉ wss_clients st \/ readyState st c <> OPEN ->
        received out c = []).
Proof.
  intros Hparse Hreq Hcfg Hnd.
  pose proof (on_message_render JSON_parse Math_cos Math_sin env_PORT
                st ws data h parsed config Hparse Hreq Hcfg) as Hout.
  eexists. exists (reply_of Math_cos Math_sin parsed config h).
  split; [exact Hout|].
  split; [|split; [reflexivity|split; [reflexivity|split; [reflexivity|]]]].
  { rewrite received_reply_head, bool_decide_eq_true_2 by reflexivity.
    rewrite broadcast_skips by auto. reflexivity. }
  unfold reply_of. cbn [rr_data rr_renderTime].
  split; [apply generate_length|]. split; [reflexivity|].
  split; [apply generate_renderTime|]. split.
  - intros c Hne Hin Hopen. eexists. split.
    + rewrite received_reply_head, bool_decide_eq_false_2 by congruence.
      cbn [app]. now apply broadcast_reaches.
    + repeat split.
  - intros c Hne Hc.
    rewrite received_reply_head, bool_decide_eq_false_2 by congruence.
    cbn [app]. apply broadcast_skips. tauto.
Qed.

Lemma C2_reply_and_broadcast_witness :
  exists (out : list Output) (reply : RenderedReply),
    outcome_of (fun _ => Some (render_request 3 2)) (fun a => a) (fun a => a)
      None sample_server 1%nat "render" sample_host = Outputs out /\
    received out 1%nat = [MRendered reply] /\
    length (re_particles (rr_data reply)) = 3%nat /\
    (exists b, received out 2%nat = [MBroadcast b]) /\
    received out 3%nat = [].
Proof.
  destruct (C2_reply_and_broadcast
              (fun _ => Some (render_request 3 2)) (fun a => a) (fun a => a)
              None sample_server 1%nat "render" sample_host
              (render_request 3 2) (sample_config 3 2)
              eq_refl eq_refl eq_refl)
    as (out & reply & Hout & Hws & _ & _ & _ & Hlen & _ & _ & Hb & Hskip).
  { unfold sample_server. cbn [wss_clients].
    apply (bool_decide_unpack (NoDup [1%nat; 2%nat; 3%nat])). vm_compute. exact I. }
  exists out, reply. split; [exact Hout|]. split; [exact Hws|].
  split; [exact Hlen|]. split.
  - destruct (Hb 2%nat) as (b & Hb2 & _);
      [discriminate|repeat constructor|reflexivity|].
    exists b. exact Hb2.
  - apply Hskip; [discriminate|]. right. discriminate.
Defined.

(** Claim C2 fails as stated: a well-formed message with the render
    command and the tornado effect type, but no [config], raises at the
    destructuring inside [generateTornadoEffect]; the [catch] block logs it
    and no connection receives anything. *)
Lemma C2_request_without_config :
  is_render_request bare_render_request = true /\
  outcome_of (fun _ => Some bare_render_request) (fun a => a) (fun a => a)
    None sample_server 1%nat "render" sample_host
    = Outputs [Console ParseError] /\
  received [Console ParseError] 1%nat = [] /\
  received [Console ParseError] 2%nat = [].
Proof. repeat split. Qed.

(** *** Zero counts *)

Lemma radius_zero_layers (parameters : Parameters) :
  spiralLayers parameters = 0 ->
  JS.sub (of_Z 8) (JS.mul (radiusScale_of NaN parameters) (of_Z 4)) = NaN.
Proof. intros HL. unfold radiusScale_of. rewrite HL. reflexivity. Qed.

(** Claim C3, as the code has it.  A render request whose configuration
    has a zero particle count or a zero layer count is not rejected: the
    sender gets its 'effect_rendered' reply.  With a zero particle count the
    particle list is empty, so no NaN reaches it; with a zero layer count
    every particle produced has NaN as [layer] and as [radius]. *)
Theorem C3_zero_counts_not_guarded (JSON_parse : string -> option JValue)
    (Math_cos Math_sin : num -> num) (env_PORT : option string)
    (st : Server) (ws : Conn) (data : string) (h : Host)
    (parsed : JValue) (config : EffectConfig) :
  JSON_parse data = Some parsed ->
  is_render_request parsed = true ->
  view_config (get parsed "config") = Typed config ->
  exists (out : list Output) (reply : RenderedReply),
    outcome_of JSON_parse Math_cos Math_sin env_PORT st ws data h = Outputs out /\
    received out ws = [MRendered reply] /\
    rr_data reply = fst (generateTornadoEffect Math_cos Math_sin config h) /\
    (particleCount (parameters config) = 0 ->
     re_particles (rr_data reply) = []) /\
    (spiralLayers (parameters config) = 0 ->
     length (re_particles (rr_data reply)) =
       Z.to_nat (particleCount (parameters config)) /\
     forall p : Particle,
       p ∈ re_particles (rr_data reply) -> layer p = NaN /\ radius p = NaN).
Proof.
  intros Hparse Hreq Hcfg.
  pose proof (on_message_render JSON_parse Math_cos Math_sin env_PORT
                st ws data h parsed config Hparse Hreq Hcfg) as Hout.
  eexists. exists (reply_of Math_cos Math_sin parsed config h).
  split; [exact Hout|].
  split; [|split; [reflexivity|]].
  { rewrite received_reply_head, bool_decide_eq_true_2 by reflexivity.
    rewrite broadcast_skips by auto. reflexivity. }
  unfold reply_of. cbn [rr_data]. split.
  - intros HN. rewrite generate_particles, HN. reflexivity.
  - intros HL. split; [apply generate_length|].
    intros p Hp. apply list_elem_of_lookup in Hp as [i Hp].
    apply generate_lookup in Hp as [_ ->].
    rewrite particle_at_layer, particle_at_radius.
    rewrite layerIndex_zero by assumption.
    split; [reflexivity|]. now apply radius_zero_layers.
Qed.

Lemma C3_zero_counts_not_guarded_witness :
  exists (out : list Output) (reply : RenderedReply),
    outcome_of (fun _ => Some (render_request 0 4)) (fun a => a) (fun a => a)
      None sample_server 1%nat "render" sample_host = Outputs out /\
    received out 1%nat = [MRendered reply] /\
    re_particles (rr_data reply) = [].
Proof.
  destruct (C3_zero_counts_not_guarded
              (fun _ => Some (render_request 0 4)) (fun a => a) (fun a => a)
              None sample_server 1%nat "render" sample_host
              (render_request 0 4) (sample_config 0 4)
              eq_refl eq_refl eq_refl)
    as (out & reply & Hout & Hws & _ & Hzero & _).
  exists out, reply. split; [exact Hout|]. split; [exact Hws|].
  apply Hzero. reflexivity.
Defined.

(** Claim C3 fails as stated: a request for two particles on zero layers
    is rendered, and the reply sent back carries particles whose [layer],
    [radius], [x] and [z] are NaN. *)
Lemma C3_zero_layers_reach_client :
  exists (rest : list Output) (reply : RenderedReply) (p1 p2 : Particle),
    spiralLayers (parameters (sample_config 2 0)) = 0 /\
    outcome_of (fun _ => Some (render_request 2 0)) (fun a => a) (fun a => a)
      None sample_server 1%nat "render" sample_host
      = Outputs (Send 1%nat (MRendered reply) :: rest) /\
    particles_in (MRendered reply) = Some [p1; p2] /\
    layer p1 = NaN /\ radius p1 = NaN /\ x p1 = NaN /\ z p1 = NaN /\
    layer p2 = NaN /\ radius p2 = NaN.
Proof.
  do 4 eexists. split; [reflexivity|].
  split; [vm_compute; reflexivity|].
  split; [vm_compute; reflexivity|].
  repeat split.
Qed.

(** ** The roster *)

Section RosterFacts.

Variable JSON_parse : string -> option JValue.
Variables Math_cos Math_sin : num -> num.
Variable env_PORT : option string.

Local Abbreviation state_after' :=
  (state_after JSON_parse Math_cos Math_sin env_PORT).
Local Abbreviation outcome_of' :=
  (outcome_of JSON_parse Math_cos Math_sin env_PORT).

Lemma step_state (st : Server) (ev : Event) (h : Host) :
  fst (fst (step JSON_parse Math_cos Math_sin env_PORT st ev h)) = next_state st ev.
Proof.
  destruct ev; try reflexivity. apply on_message_state.
Qed.

Lemma state_after_cons (st : Server) (ev : Event) (rest : list Event) (h : Host) :
  state_after' st (ev :: rest) h =
  state_after' (next_state st ev) rest
    (snd (step JSON_parse Math_cos Math_sin env_PORT st ev h)).
Proof.
  unfold state_after. cbn [run]. unfold bind at 1.
  rewrite <- step_state with (h := h).
  destruct (step JSON_parse Math_cos Math_sin env_PORT st ev h) as [[st1 o] h1].
  cbn [fst snd]. unfold bind.
  destruct (run JSON_parse Math_cos Math_sin env_PORT st1 rest h1) as [[st2 os] h2].
  reflexivity.
Qed.

Lemma roster_inv_connection (st : Server) (live gone : gset nat) (ws : Conn) :
  roster_inv st live gone ->
  ws ∉ live ->
  ws ∉ gone ->
  roster_inv (next_state st (Connection ws)) ({[ws]} ∪ live) gone.
Proof.
  intros (Hc & Hw & Hnd & Hg & Hd) Hlive Hws.
  assert (Hfresh : ws ∉ wss_clients st) by (rewrite Hw; assumption).
  split; [|split; [|split; [|split]]].
  - cbn. now rewrite Hc.
  - intros c. cbn. rewrite bool_decide_eq_false_2 by assumption.
    rewrite elem_of_app, list_elem_of_singleton, Hw. set_solver.
  - cbn. rewrite bool_decide_eq_false_2 by assumption.
    apply NoDup_app. split; [assumption|]. split; [|apply NoDup_singleton].
    intros c Hin Hc'. apply list_elem_of_singleton in Hc'. congruence.
  - intros c Hin. cbn. rewrite bool_decide_eq_false_2; [auto|].
    intros ->. contradiction.
  - set_solver.
Qed.

Lemma roster_inv_closing (st : Server) (live gone : gset nat) (ws : Conn) :
  roster_inv st live gone ->
  ws ∈ live ->
  roster_inv (next_state st (Closing ws)) live gone.
Proof.
  intros (Hc & Hw & Hnd & Hg & Hd) Hws.
  split; [|split; [|split; [|split]]]; try assumption.
  intros c Hin. cbn. rewrite bool_decide_eq_false_2; [auto|].
  intros ->. set_solver.
Qed.

Lemma roster_inv_close (st : Server) (live gone : gset nat) (ws : Conn) :
  roster_inv st live gone ->
  roster_inv (next_state st (Close ws)) (live ∖ {[ws]}) ({[ws]} ∪ gone).
Proof.
  intros (Hc & Hw & Hnd & Hg & Hd).
  split; [|split; [|split; [|split]]].
  - cbn. now rewrite Hc.
  - intros c. cbn. rewrite list_elem_of_filter, Hw. set_solver.
  - cbn. now apply NoDup_filter.
  - intros c Hin. cbn. destruct (decide (c = ws)) as [->|Hne].
    + now rewrite bool_decide_eq_true_2.
    + rewrite bool_decide_eq_false_2 by assumption. apply Hg. set_solver.
  - set_solver.
Qed.

(** A socket that is announced in a well-formed history was neither live
    nor closed before. *)
Lemma announced_is_fresh (evs : list Event) :
  forall (live gone : gset nat) (c : Conn),
    ws_protocol live gone evs = true ->
    accepted_in evs c ->
    (c ∉ live) /\ (c ∉ gone).
Proof.
  unfold accepted_in.
  induction evs as [|ev rest IH]; intros live gone c Hp Hin.
  - inversion Hin.
  - apply elem_of_cons in Hin as [Hin|Hin].
    + subst ev. cbn in Hp.
      apply andb_prop in Hp as [Hp _]. apply andb_prop in Hp as [H1 H2].
      apply bool_decide_eq_true in H1, H2. auto.
    + destruct ev as [d|d data|d|d|d]; cbn in Hp.
      * apply andb_prop in Hp as [_ Hp].
        destruct (IH _ _ c Hp Hin). set_solver.
      * eauto.
      * apply andb_prop in Hp as [_ Hp]. eauto.
      * apply andb_prop in Hp as [_ Hp].
        destruct (IH _ _ c Hp Hin). set_solver.
      * eauto.
Qed.

Lemma size_remove_member (live : gset nat) (ws : Conn) :
  ws ∈ live -> S (size (live ∖ {[ws]})) = size live.
Proof.
  intros Hin.
  assert (Heq : live = {[ws]} ∪ live ∖ {[ws]}).
  { apply set_eq. intros c. destruct (decide (c = ws)); set_solver. }
  rewrite Heq at 2.
  rewrite (size_union (C := gset nat) {[ws]} (live ∖ {[ws]})) by set_solver.
  now rewrite size_singleton.
Qed.

Lemma roster_after (evs : list Event) :
  forall (st : Server) (live gone : gset nat) (h : Host),
    roster_inv st live gone ->
    ws_protocol live gone evs = true ->
    (forall c, c ∈ clients (state_after' st evs h) <->
               (c ∈ live \/ accepted_in evs c) /\ ~ closed_in evs c) /\
    (size (clients (state_after' st evs h)) + closes evs =
     size live + accepts evs)%nat /\
    (forall c, c ∈ gone \/ closed_in evs c ->
               readyState (state_after' st evs h) c = CLOSED) /\
    (forall c, c ∈ wss_clients (state_after' st evs h) <->
               c ∈ clients (state_after' st evs h)) /\
    NoDup (wss_clients (state_after' st evs h)).
Proof.
  unfold accepted_in, closed_in.
  induction evs as [|ev rest IH]; intros st live gone h Hinv Hp.
  - destruct Hinv as (Hc & Hw & Hnd & Hg & Hd).
    unfold state_after. cbn. rewrite Hc. split; [|split; [|split; [|split]]].
    + intros c. rewrite !elem_of_nil. tauto.
    + reflexivity.
    + intros c [Hin|Hin]; [auto|inversion Hin].
    + exact Hw.
    + exact Hnd.
  - rewrite state_after_cons.
    set (h1 := snd (step JSON_parse Math_cos Math_sin env_PORT st ev h)).
    destruct ev as [d|d data|d|d|d]; cbn [ws_protocol] in Hp.
    + apply andb_prop in Hp as [Hp Hrest]. apply andb_prop in Hp as [H1 H2].
      apply bool_decide_eq_true in H1, H2.
      destruct (IH _ _ _ h1 (roster_inv_connection st live gone d Hinv H1 H2) Hrest)
        as (IHa & IHb & IHc & IHd).
      split; [|split; [|split]]; [| | |exact IHd].
      * intros c. rewrite IHa, !elem_of_cons. set_solver.
      * unfold accepts, closes in *. cbn [List.filter is_connection is_close length].
        rewrite IHb, (size_union (C := gset nat) {[d]} live) by set_solver.
        rewrite size_singleton. lia.
      * intros c Hc. apply IHc. rewrite elem_of_cons in Hc.
        destruct Hc as [Hc|[Hc|Hc]]; [auto|discriminate|auto].
    + destruct (IH (next_state st (Incoming d data)) live gone h1)
        as (IHa & IHb & IHc & IHd); [exact Hinv|exact Hp|].
      split; [|split; [|split]]; [| | |exact IHd].
      * intros c. rewrite IHa, !elem_of_cons. set_solver.
      * exact IHb.
      * intros c Hc. apply IHc. rewrite elem_of_cons in Hc.
        destruct Hc as [Hc|[Hc|Hc]]; [auto|discriminate|auto].
    + apply andb_prop in Hp as [H1 Hrest]. apply bool_decide_eq_true in H1.
      destruct (IH _ _ _ h1 (roster_inv_closing st live gone d Hinv H1) Hrest)
        as (IHa & IHb & IHc & IHd).
      split; [|split; [|split]]; [| | |exact IHd].
      * intros c. rewrite IHa, !elem_of_cons. set_solver.
      * exact IHb.
      * intros c Hc. apply IHc. rewrite elem_of_cons in Hc.
        destruct Hc as [Hc|[Hc|Hc]]; [auto|discriminate|auto].
    + apply andb_prop in Hp as [H1 Hrest]. apply bool_decide_eq_true in H1.
      destruct (IH _ _ _ h1 (roster_inv_close st live gone d Hinv) Hrest)
        as (IHa & IHb & IHc & IHd).
      split; [|split; [|split]]; [| | |exact IHd].
      * intros c. rewrite IHa, !elem_of_cons. split.
        -- intros [[Hl|Hacc] Hcl].
           ++ split; [set_solver|]. intros [[= ->]|Hcl']; set_solver.
           ++ destruct (announced_is_fresh rest _ _ c Hrest Hacc) as [_ Hfresh].
              split; [auto|]. intros [[= ->]|Hcl']; set_solver.
        -- intros [[Hl|[Hacc|Hacc]] Hcl]; [|discriminate|].
           ++ split; [|tauto]. left.
              apply elem_of_difference. split; [assumption|].
              rewrite elem_of_singleton. intros ->. apply Hcl. now left.
           ++ split; [|tauto]. now right.
      * unfold accepts, closes in *. cbn [List.filter is_connection is_close length].
        pose proof (size_remove_member live d H1). lia.
      * intros c Hc. apply IHc. rewrite elem_of_cons in Hc.
        destruct Hc as [Hc|[[= ->]|Hc]]; [left|left|right]; set_solver.
    + destruct (IH (next_state st (Error d)) live gone h1)
        as (IHa & IHb & IHc & IHd); [exact Hinv|exact Hp|].
      split; [|split; [|split]]; [| | |exact IHd].
      * intros c. rewrite IHa, !elem_of_cons. set_solver.
      * exact IHb.
      * intros c Hc. apply IHc. rewrite elem_of_cons in Hc.
        destruct Hc as [Hc|[Hc|Hc]]; [auto|discriminate|auto].
Qed.

(** The handler's outputs have one of three shapes. *)
Lemma on_message_shapes (st : Server) (ws : Conn) (data : string) (h : Host)
    (out : list Output) :
  outcome_of' st ws data h = Outputs out ->
  out = [Console ParseError] \/
  (exists e, out = [Send ws (MEcho e)]) \/
  (exists r line b, out = [Send ws (MRendered r); Console line]
                            ++ broadcast_all st ws b).
Proof.
  unfold outcome_of, on_message.
  destruct (JSON_parse data) as [parsed|]; [|cbn; intros [= <-]; auto].
  destruct (prop parsed "command") as [command|]; [|cbn; intros [= <-]; auto].
  destruct (strict_eq_str command "render_effect"
            && strict_eq_str (get parsed "effectType") "fire_tornado").
  - destruct (view_config (get parsed "config")) as [| |config|].
    + cbn; intros [= <-]; auto.
    + cbn; intros [= <-]; auto.
    + unfold bind, render_branch, bind.
      destruct (generateTornadoEffect Math_cos Math_sin config h) as [e h1].
      cbn. intros [= <-]. right; right. eauto.
    + discriminate.
  - cbn. intros [= <-]. right; left. eauto.
Qed.

(** A broadcast only ever goes to another connection that is in
    [wss.clients] and [OPEN]. *)
Lemma broadcast_only_to_open (st : Server) (ws : Conn) (data : string) (h : Host)
    (out : list Output) (c : Conn) (b : Broadcast) :
  outcome_of' st ws data h = Outputs out ->
  MBroadcast b ∈ received out c ->
  c <> ws /\ c ∈ wss_clients st /\ readyState st c = OPEN.
Proof.
  intros Hout Hin.
  destruct (on_message_shapes st ws data h out Hout)
    as [->|[[e ->]|(r & line & b0 & ->)]].
  - inversion Hin.
  - cbn in Hin. destruct (bool_decide (ws = c)); cbn in Hin.
    + apply list_elem_of_singleton in Hin. discriminate.
    + inversion Hin.
  - rewrite received_reply_head in Hin.
    destruct (decide (c = ws)) as [->|Hne].
    { rewrite broadcast_skips, app_nil_r in Hin by auto.
      rewrite bool_decide_eq_true_2 in Hin by reflexivity.
      apply list_elem_of_singleton in Hin. discriminate. }
    rewrite bool_decide_eq_false_2 in Hin by congruence. cbn [app] in Hin.
    destruct (decide (c ∈ wss_clients st)) as [Hmem|Hmem];
      [|rewrite broadcast_skips in Hin by auto; inversion Hin].
    destruct (decide (readyState st c = OPEN)) as [Hopen|Hopen];
      [|rewrite broadcast_skips in Hin by auto; inversion Hin].
    auto.
Qed.

End RosterFacts.

Lemma roster_inv_initial : roster_inv initial ∅ ∅.
Proof.
  split; [reflexivity|]. split; [|split; [|split]].
  - intros c. cbn. rewrite elem_of_nil. set_solver.
  - apply NoDup_nil_2.
  - intros c Hc. set_solver.
  - set_solver.
Qed.

(** Claim C7.  Along any history of the transport that starts from the
    empty server, the roster holds exactly the connections announced and
    not yet closed, the same ones as [wss.clients]; after [accepts]
    announcements (of distinct sockets) and [closes] closes its size is
    [accepts - closes]; and a connection that has closed receives no
    broadcast from any message handled afterwards. *)
Theorem C7_roster_bookkeeping (JSON_parse : string -> option JValue)
    (Math_cos Math_sin : num -> num) (env_PORT : option string)
    (evs : list Event) (h : Host) :
  ws_protocol ∅ ∅ evs = true ->
  let st := state_after JSON_parse Math_cos Math_sin env_PORT initial evs h in
  (forall c : Conn,
      c ∈ clients st <-> accepted_in evs c /\ ~ closed_in evs c) /\
  (forall c : Conn, c ∈ clients st <-> c ∈ wss_clients st) /\
  (closes evs <= accepts evs)%nat /\
  size (clients st) = (accepts evs - closes evs)%nat /\
  (forall (c ws : Conn) (data : string) (h' : Host) (out : list Output)
          (b : Broadcast),
      closed_in evs c ->
      outcome_of JSON_parse Math_cos Math_sin env_PORT st ws data h' = Outputs out ->
      MBroadcast b ∉ received out c).
Proof.
  intros Hp st.
  destruct (roster_after JSON_parse Math_cos Math_sin env_PORT evs
              initial ∅ ∅ h roster_inv_initial Hp) as (Ha & Hb & Hc & Hw & _).
  fold st in Ha, Hb, Hc, Hw. rewrite size_empty in Hb.
  split; [|split; [|split; [|split]]].
  - intros c. rewrite Ha. set_solver.
  - intros c. symmetry. apply Hw.
  - lia.
  - lia.
  - intros c ws data h' out b Hclosed Hout Hin.
    destruct (broadcast_only_to_open JSON_parse Math_cos Math_sin env_PORT
                st ws data h' out c b Hout Hin) as (_ & _ & Hopen).
    rewrite Hc in Hopen by auto. discriminate.
Qed.

Lemma C7_roster_bookkeeping_witness :
  size (clients (state_after (fun _ => None) (fun a => a) (fun a => a) None
                   initial sample_trace sample_host)) = 1%nat.
Proof.
  destruct (C7_roster_bookkeeping (fun _ => None) (fun a => a) (fun a => a) None
              sample_trace sample_host eq_refl) as (_ & _ & _ & Hsize & _).
  exact Hsize.
Defined.

(** ** Instances on the sample inputs *)

Lemma sample_host_unit (k : nat) : unit_sample (random_tape sample_host k).
Proof.
  exists (Z.of_nat (k mod 7) # 7)%Q. split; [reflexivity|].
  pose proof (Nat.mod_upper_bound k 7).
  unfold Qle, Qlt. simpl. lia.
Qed.

Lemma C1_count_and_layers_witness :
  length (re_particles (fst (generateTornadoEffect (fun a => a) (fun a => a)
                               (sample_config 5 3) sample_host))) = 5%nat /\
  exists p,
    re_particles (fst (generateTornadoEffect (fun a => a) (fun a => a)
                         (sample_config 5 3) sample_host)) !! 4%nat = Some p /\
    layer p = of_Z 1.
Proof.
  destruct (C1_count_and_layers (fun a => a) (fun a => a)
              (sample_config 5 3) sample_host 5 3)
    as [Hlen Hlayer]; [reflexivity|reflexivity|lia|lia|].
  split; [exact Hlen|].
  destruct (Hlayer 4%nat) as (p & Hp & Hl & _); [vm_compute; lia|].
  exists p. split; [exact Hp|exact Hl].
Defined.

Lemma C8_radii_by_layer_witness :
  exists p1 p2 : Particle,
    re_particles (fst (Tornado64.generateTornadoEffect (fun a => a) (fun a => a)
                         (sample_config 5 3) sample_host)) !! 0%nat = Some p1 /\
    re_particles (fst (Tornado64.generateTornadoEffect (fun a => a) (fun a => a)
                         (sample_config 5 3) sample_host)) !! 2%nat = Some p2 /\
    Tornado64.spiralRadius_of (layer p2) = of_Z 160 /\
    JS.lt (radius p2) (radius p1) = true.
Proof.
  destruct (C8_radii_by_layer (fun a => a) (fun a => a)
              (sample_config 5 3) sample_host 3 eq_refl) as [_ Hstrict];
    [lia|reflexivity|].
  destruct Hstrict as [Hone Hlt]; [discriminate|].
  do 2 eexists. split; [vm_compute; reflexivity|].
  split; [vm_compute; reflexivity|]. split.
  - refine (proj1 (proj2 (Hone 2%nat _ _))). vm_compute. reflexivity.
  - refine (proj2 (Hlt 0%nat 2%nat _ _ _ _ _)); vm_compute; reflexivity.
Defined.

Lemma C6_color_of_particle_witness :
  exists p,
    re_particles (fst (generateTornadoEffect (fun a => a) (fun a => a)
                         (sample_config 5 3) sample_host)) !! 1%nat = Some p /\
    color p ∈ five_colors.
Proof.
  eexists. split; [vm_compute; reflexivity|].
  refine (proj1 (C6_color_of_particle (fun a => a) (fun a => a)
                   (sample_config 5 3) sample_host 1 _ sample_host_unit _)).
  vm_compute. reflexivity.
Defined.

(** ** The handlers on the sample inputs *)

Example rem_examples :
  JS.rem (of_Z (-7)) (of_Z 3) = of_Z (-1) /\
  JS.rem (of_Z 7) (of_Z (-3)) = of_Z 1 /\
  JS.rem (lit 7.5) (of_Z 2) = lit 1.5 /\
  JS.rem (of_Z 7) (of_Z 0) = NaN /\
  JS.div (of_Z 7) (of_Z 0) = PosInf /\
  JS.div (of_Z 0) (of_Z 0) = NaN.
Proof. repeat split. Qed.

Example three_particles_two_layers :
  map (fun p => (id p, layer p, radius p, color p))
    (re_particles (fst (generateTornadoEffect (fun a => a) (fun a => a)
                          (sample_config 3 2) sample_host))) =
  [(of_Z 0, of_Z 0, of_Z 8, "#cc3300"%string);
   (of_Z 1, of_Z 1, of_Z 6, "#cc3300"%string);
   (of_Z 2, of_Z 0, of_Z 8, "#ffff99"%string)].
Proof. vm_compute. reflexivity. Qed.

Example render_with_three_sockets :
  exists reply b,
    outcome_of (fun _ => Some (render_request 3 2)) (fun a => a) (fun a => a)
      None sample_server 1%nat "render" sample_host =
    Outputs [Send 1%nat (MRendered reply);
             Console (TornadoRendered (of_Z 10) (of_Z 20));
             Send 2%nat (MBroadcast b)] /\
    rr_renderTime reply = of_Z 3 /\
    rr_timestamp reply = of_Z 1700000000006 /\
    bc_timestamp b = of_Z 1700000000009.
Proof.
  do 2 eexists. split; [vm_compute; reflexivity|]. repeat split.
Qed.

Example echo_of_other_payloads :
  outcome_of (fun _ => Some ping_payload) (fun a => a) (fun a => a)
    (Some "9000"%string) sample_server 2%nat "ping" sample_host =
  Outputs [Send 2%nat (MEcho {| echo_type := "response";
                                echo_original := ping_payload;
                                echo_processed := true;
                                echo_port := JStr "9000";
                                echo_timestamp := of_Z 1700000000000 |})] /\
  outcome_of (fun _ => Some other_effect_request) (fun a => a) (fun a => a)
    None sample_server 2%nat "other" sample_host =
  Outputs [Send 2%nat (MEcho {| echo_type := "response";
                                echo_original := other_effect_request;
                                echo_processed := true;
                                echo_port := JNum (of_Z 8765);
                                echo_timestamp := of_Z 1700000000000 |})] /\
  outcome_of (fun _ => Some (JArr [])) (fun a => a) (fun a => a)
    (Some ""%string) sample_server 2%nat "[]" sample_host =
  Outputs [Send 2%nat (MEcho {| echo_type := "response";
                                echo_original := JArr [];
                                echo_processed := true;
                                echo_port := JNum (of_Z 8765);
                                echo_timestamp := of_Z 1700000000000 |})].
Proof. repeat split. Qed.

Example roster_along_sample_trace :
  clients (state_after (fun _ => None) (fun a => a) (fun a => a) None
             initial sample_trace sample_host) = {[3%nat]} /\
  messageCount (state_after (fun _ => None) (fun a => a) (fun a => a) None
                  initial sample_trace sample_host) = 1%nat /\
  accepts sample_trace = 3%nat /\
  closes sample_trace = 2%nat.
Proof. repeat split. Qed.

(** ** Further properties of the generator *)

Lemma generate_host (Math_cos Math_sin : num -> num) (config : EffectConfig)
    (h : Host) :
  snd (generateTornadoEffect Math_cos Math_sin config h) =
  skip_clock 2
    (skip_random (5 * Z.to_nat (particleCount (parameters config))) h).
Proof.
  unfold generateTornadoEffect, bind. cbn [Date_now].
  rewrite tornado_loop_spec. reflexivity.
Qed.

(** One render draws exactly five random samples per particle and reads
    the clock exactly twice; it consumes nothing else of the host. *)
Theorem generator_reads (Math_cos Math_sin : num -> num)
    (config : EffectConfig) (h : Host) :
  let h' := snd (generateTornadoEffect Math_cos Math_sin config h) in
  random_calls h' =
    (random_calls h + 5 * Z.to_nat (particleCount (parameters config)))%nat /\
  clock_calls h' = (clock_calls h + 2)%nat /\
  random_tape h' = random_tape h /\
  clock_tape h' = clock_tape h.
Proof.
  intros h'. subst h'. rewrite generate_host. cbn. repeat split; lia.
Qed.

(** A non-positive particle count gives an empty particle list and draws
    no random sample, while the result still reports the count and the
    layer count it was given; so the reported count is the length of the
    list exactly when the count is not negative. *)
Theorem nonpositive_count_renders_nothing (Math_cos Math_sin : num -> num)
    (config : EffectConfig) (h : Host) :
  let g := generateTornadoEffect Math_cos Math_sin config h in
  (particleCount (parameters config) <= 0 ->
   re_particles (fst g) = [] /\ random_calls (snd g) = random_calls h) /\
  re_particleCount (fst g) = particleCount (parameters config) /\
  re_spiralLayers (fst g) = spiralLayers (parameters config) /\
  (Z.of_nat (length (re_particles (fst g))) = re_particleCount (fst g) <->
   0 <= particleCount (parameters config)).
Proof.
  intros g. subst g.
  assert (Hcount : re_particleCount
                     (fst (generateTornadoEffect Math_cos Math_sin config h)) =
                   particleCount (parameters config)).
  { unfold generateTornadoEffect, bind. cbn [Date_now].
    rewrite tornado_loop_spec. reflexivity. }
  assert (Hlayers : re_spiralLayers
                      (fst (generateTornadoEffect Math_cos Math_sin config h)) =
                    spiralLayers (parameters config)).
  { unfold generateTornadoEffect, bind. cbn [Date_now].
    rewrite tornado_loop_spec. reflexivity. }
  split; [|split; [exact Hcount|split; [exact Hlayers|]]].
  - intros HN. rewrite generate_particles, generate_host.
    replace (Z.to_nat (particleCount (parameters config))) with 0%nat by lia.
    split; reflexivity.
  - rewrite Hcount, generate_length. lia.
Qed.

Section ParticleFields.

Variables Math_cos Math_sin : num -> num.
Variable config : EffectConfig.

Lemma particle_at_y (h : Host) (i : nat) :
  y (particle_at Math_cos Math_sin config h i) =
  JS.add (pos_y (position config))
    (JS.sub (JS.mul (sample h (5 * i)) (of_Z 150)) (of_Z 75)).
Proof. reflexivity. Qed.

Lemma particle_at_vy (h : Host) (i : nat) :
  vy (particle_at Math_cos Math_sin config h i) =
  JS.mul (JS.sub (JS.mul (sample h (5 * i)) (of_Z 150)) (of_Z 75)) (of_Z 30).
Proof. reflexivity. Qed.

Lemma particle_at_rotation (h : Host) (i : nat) :
  rotation (particle_at Math_cos Math_sin config h i) =
  JS.mul (JS.mul (sample h (5 * i + 3)) Math_PI) (of_Z 2).
Proof.
  unfold particle_at, sample. cbn. do 3 f_equal. lia.
Qed.

Lemma particle_at_rotationSpeed (h : Host) (i : nat) :
  rotationSpeed (particle_at Math_cos Math_sin config h i) =
  JS.mul (JS.sub (sample h (5 * i + 4)) (lit 0.5)) (of_Z 10).
Proof.
  unfold particle_at, sample. cbn. do 3 f_equal. lia.
Qed.

End ParticleFields.

Lemma sample_skip_clock (k j : nat) (h : Host) :
  sample (skip_clock k h) j = sample h j.
Proof. reflexivity. Qed.

Lemma unit_sample_of_tape (h : Host) (j : nat) :
  (forall k : nat, unit_sample (random_tape h k)) -> unit_sample (sample h j).
Proof. intros H. apply H. Qed.

(** With samples in [0, 1) and a finite [position.y], a particle's
    height is [position.y] plus an offset between -75 and 75, rounded: it
    lies between the binary64 values of [position.y - 75] and of
    [position.y + 75], both included.  Its vertical velocity is thirty times
    the same offset, rounded, hence between -2250 and 2250. *)
Theorem height_within_jitter (Math_cos Math_sin : num -> num)
    (config : EffectConfig) (h : Host) (i : nat) (p : Particle) (py : Q) :
  (forall k : nat, unit_sample (random_tape h k)) ->
  pos_y (position config) = Fin py ->
  (- Number_MAX_VALUE <= py)%Q ->
  (py <= Number_MAX_VALUE)%Q ->
  re_particles (fst (Tornado64.generateTornadoEffect Math_cos Math_sin config h)) !! i
    = Some p ->
  exists hv v w lo hi : Q,
    (-75 <= hv)%Q /\ (hv <= 75)%Q /\
    y p = Fin v /\ B64.add (Fin py) (Fin hv) = Fin v /\
    vy p = Fin w /\ B64.mul (Fin hv) (of_Z 30) = Fin w /\
    B64.sub (Fin py) (of_Z 75) = Fin lo /\
    B64.add (Fin py) (of_Z 75) = Fin hi /\
    (lo <= v)%Q /\ (v <= hi)%Q /\
    (-2250 <= w)%Q /\ (w <= 2250)%Q.
Proof.
  intros Hunit Hpy Hmin Hmax Hp. apply generate64_lookup in Hp as [_ ->].
  rewrite particle64_y, particle64_vy, sample_skip_clock, Hpy.
  destruct (unit_sample_of_tape h (5 * i) Hunit) as (q & -> & Hq0 & Hq1).
  unfold of_Z. rewrite mul_fin.
  destruct (round64_between (q * inject_Z 150) 0 150) as (t & Ht & T0 & T1);
    [lia|lia|change (inject_Z 0) with 0%Q; change (inject_Z 150) with 150%Q; lra
    |change (inject_Z 150) with 150%Q; lra|].
  change (inject_Z 0) with 0%Q in T0. change (inject_Z 150) with 150%Q in T1.
  rewrite Ht, sub_fin.
  destruct (round64_between (t - inject_Z 75) (-75) 75) as (hv & Hhv & V0 & V1);
    [lia|lia|change (inject_Z (-75)) with (-75)%Q; change (inject_Z 75) with 75%Q; lra
    |change (inject_Z 75) with 75%Q; lra|].
  change (inject_Z (-75)) with (-75)%Q in V0. change (inject_Z 75) with 75%Q in V1.
  rewrite Hhv, add_fin, mul_fin, sub_fin.
  destruct (round64_finite (py + hv)) as (v & Hv); [lra|lra|].
  destruct (round64_finite (py - inject_Z 75)) as (lo & Hlo);
    [change (inject_Z 75) with 75%Q; lra|change (inject_Z 75) with 75%Q; lra|].
  destruct (round64_finite (py + inject_Z 75)) as (hi & Hhi);
    [change (inject_Z 75) with 75%Q; lra|change (inject_Z 75) with 75%Q; lra|].
  destruct (round64_between (hv * inject_Z 30) (-2250) 2250) as (w & Hw & W0 & W1);
    [lia|lia
    |change (inject_Z (-2250)) with (-2250)%Q; change (inject_Z 30) with 30%Q; lra
    |change (inject_Z 2250) with 2250%Q; change (inject_Z 30) with 30%Q; lra|].
  change (inject_Z (-2250)) with (-2250)%Q in W0.
  change (inject_Z 2250) with 2250%Q in W1.
  exists hv, v, w, lo, hi.
  repeat split; try assumption;
    try (unfold of_Z; rewrite ?add_fin, ?mul_fin, ?sub_fin; assumption).
  - apply (round64_mono (py - inject_Z 75) (py + hv)); try assumption.
    change (inject_Z 75) with 75%Q. lra.
  - apply (round64_mono (py + hv) (py + inject_Z 75)); try assumption.
    change (inject_Z 75) with 75%Q. lra.
Qed.

(** With samples in [0, 1), a particle's rotation lies in [0, 2 * Math.PI)
    and its rotation speed in [-5, 5). *)
Theorem rotation_ranges (Math_cos Math_sin : num -> num)
    (config : EffectConfig) (h : Host) (i : nat) (p : Particle) :
  (forall k : nat, unit_sample (random_tape h k)) ->
  re_particles (fst (generateTornadoEffect Math_cos Math_sin config h)) !! i
    = Some p ->
  exists r s : Q,
    rotation p = Fin r /\ rotationSpeed p = Fin s /\
    (0 <= r)%Q /\ (r < 2 * (884279719003555 # 281474976710656))%Q /\
    JS.lt (rotation p) (JS.mul Math_PI (of_Z 2)) = true /\
    (-5 <= s)%Q /\ (s < 5)%Q.
Proof.
  intros Hunit Hp. apply generate_lookup in Hp as [_ ->].
  rewrite particle_at_rotation, particle_at_rotationSpeed, !sample_skip_clock.
  destruct (unit_sample_of_tape h (5 * i + 3) Hunit) as (q4 & -> & H40 & H41).
  destruct (unit_sample_of_tape h (5 * i + 4) Hunit) as (q5 & -> & H50 & H51).
  unfold Math_PI, lit. cbn [JS.mul JS.sub of_Z]. do 2 eexists.
  split; [reflexivity|]. split; [reflexivity|].
  rewrite lt_Fin. rewrite !Qred_correct.
  change (inject_Z 2) with 2%Q. change (inject_Z 10) with 10%Q.
  assert (Hpi : (0 < 884279719003555 # 281474976710656)%Q) by reflexivity.
  assert (Hlo : (0 <= q4 * (884279719003555 # 281474976710656))%Q)
    by (apply Qmult_le_0_compat; [assumption|apply Qlt_le_weak, Hpi]).
  assert (Hhi : (q4 * (884279719003555 # 281474976710656)
                 < 1 * (884279719003555 # 281474976710656))%Q)
    by (apply Qmult_lt_compat_r; assumption).
  repeat split; lra.
Qed.

(** With a positive layer count, every particle's radius lies in (4, 8],
    a particle of layer 0 has radius exactly 8, and the spiral radius that
    places the particle lies between 40 and [40 + 60 * (L - 1)]. *)
Theorem radius_bounds (Math_cos Math_sin : num -> num)
    (config : EffectConfig) (h : Host) (L : Z) (i : nat) (p : Particle) :
  spiralLayers (parameters config) = L ->
  0 < L ->
  re_particles (fst (generateTornadoEffect Math_cos Math_sin config h)) !! i
    = Some p ->
  (exists q : Q, radius p = Fin q /\ (4 < q)%Q /\ (q <= 8)%Q) /\
  (layer p = of_Z 0 -> radius p = of_Z 8) /\
  (exists r : Z,
      spiralRadius_of (layer p) = of_Z r /\ 40 <= r <= 40 + 60 * (L - 1)).
Proof.
  intros HL HLpos Hp. apply generate_lookup in Hp as [_ ->].
  rewrite particle_at_layer, particle_at_radius.
  rewrite layerIndex_pos by lia. rewrite HL.
  pose proof (Z.mod_pos_bound (Z.of_nat i) L HLpos) as Hl.
  set (l := Z.of_nat i mod L) in *.
  split; [|split].
  - assert (HL0 : L <> 0) by lia.
    destruct (radius_of_layer l L (parameters config) HL HL0) as (q & Hq & Heq).
    exists q. split; [exact Hq|].
    destruct (fraction_of_layer l L Hl) as [H0 H1].
    rewrite Heq. split; lra.
  - intros H0. apply of_Z_inj in H0. rewrite H0.
    unfold radiusScale_of, of_Z. rewrite HL. cbn [JS.div].
    rewrite Qeq_bool_inject_Z_0 by lia. cbn [JS.mul JS.sub].
    apply (f_equal Fin). apply Qred_eq_inject_Z. rewrite !Qred_correct.
    change (inject_Z 8) with 8%Q. change (inject_Z 4) with 4%Q.
    change (inject_Z 0) with 0%Q. unfold Qdiv. ring.
  - exists (40 + 60 * l). split; [apply spiralRadius_of_Z|lia].
Qed.



(** *** How many particles each layer gets *)

Lemma layer_count_step (m l L : Z) :
  0 < L ->
  0 <= l < L ->
  0 <= m ->
  (m + 1 + L - 1 - l) / L =
  (m + L - 1 - l) / L + (if decide (m mod L = l) then 1 else 0).
Proof.
  intros HL Hl Hm.
  pose proof (Z.div_mod m L ltac:(lia)) as Hdm.
  pose proof (Z.mod_pos_bound m L HL) as Hr.
  set (q := m / L) in *. set (r := m mod L) in *.
  destruct (decide (r = l)) as [Heq|Hne].
  - rewrite <- (Z.div_unique (m + 1 + L - 1 - l) L (q + 1) 0) by lia.
    rewrite <- (Z.div_unique (m + L - 1 - l) L q (L - 1)) by lia.
    reflexivity.
  - destruct (Z_lt_le_dec r l) as [Hlt|Hge].
    + rewrite <- (Z.div_unique (m + 1 + L - 1 - l) L q (r + L - l)) by lia.
      rewrite <- (Z.div_unique (m + L - 1 - l) L q (r + L - 1 - l)) by lia.
      lia.
    + rewrite <- (Z.div_unique (m + 1 + L - 1 - l) L (q + 1) (r - l)) by lia.
      rewrite <- (Z.div_unique (m + L - 1 - l) L (q + 1) (r - 1 - l)) by lia.
      lia.
Qed.

Lemma count_residue (l L : Z) (n : nat) :
  0 < L ->
  0 <= l < L ->
  Z.of_nat (length (filter (fun i : nat => Z.of_nat i mod L = l) (seq 0 n))) =
  (Z.of_nat n + L - 1 - l) / L.
Proof.
  intros HL Hl. induction n as [|n IH].
  - cbn. symmetry. apply Z.div_small. lia.
  - rewrite seq_S, filter_app, length_app, Nat2Z.inj_add, IH. cbn [Nat.add].
    replace (Z.of_nat (S n) + L - 1 - l) with (Z.of_nat n + 1 + L - 1 - l) by lia.
    rewrite layer_count_step by lia. f_equal.
    rewrite filter_cons, filter_nil.
    destruct (decide (Z.of_nat n mod L = l)); reflexivity.
Qed.

Lemma length_filter_map {A B : Type} (f : A -> B)
    (P : B -> Prop) `{forall b, Decision (P b)}
    (R : A -> Prop) `{forall a, Decision (R a)} (l : list A) :
  (forall a, P (f a) <-> R a) ->
  length (filter P (map f l)) = length (filter R l).
Proof.
  intros HPR. induction l as [|a l IH]; [reflexivity|].
  cbn [map]. rewrite !filter_cons.
  destruct (decide (P (f a))) as [HP|HP], (decide (R a)) as [HR|HR];
    cbn [length]; try (rewrite IH; reflexivity).
  - exfalso. apply HR, HPR, HP.
  - exfalso. apply HP, HPR, HR.
Qed.

(** With [N] particles on [L > 0] layers, layer [l] receives
    [(N + L - 1 - l) / L] of them (integer division): the first [N mod L]
    layers one more than the others, so every layer holds either the floor
    or the floor plus one of [N / L]. *)
Theorem layers_balanced (Math_cos Math_sin : num -> num)
    (config : EffectConfig) (h : Host) (N L l : Z) :
  particleCount (parameters config) = N ->
  spiralLayers (parameters config) = L ->
  0 <= N ->
  0 < L ->
  0 <= l < L ->
  let particles :=
    re_particles (fst (generateTornadoEffect Math_cos Math_sin config h)) in
  Z.of_nat (length (on_layer l particles)) = (N + L - 1 - l) / L /\
  N / L <= Z.of_nat (length (on_layer l particles)) <= N / L + 1.
Proof.
  intros HN HL HNpos HLpos Hl particles. subst particles.
  assert (Hcount : Z.of_nat (length (on_layer l (re_particles
             (fst (generateTornadoEffect Math_cos Math_sin config h))))) =
           (N + L - 1 - l) / L).
  { unfold on_layer. rewrite generate_particles, HN.
    rewrite (length_filter_map _ _ (fun i : nat => Z.of_nat i mod L = l)).
    - rewrite count_residue by assumption. f_equal. lia.
    - intros i. rewrite particle_at_layer, layerIndex_pos by lia.
      rewrite HL. split; [apply of_Z_inj|congruence]. }
  split; [exact Hcount|]. rewrite Hcount. split.
  - apply Z.div_le_mono; lia.
  - replace (N / L + 1) with ((N + 1 * L) / L) by (rewrite Z.div_add; lia).
    apply Z.div_le_mono; lia.
Qed.

(** ** Further properties of the handlers *)

Section HandlerFacts.

Variable JSON_parse : string -> option JValue.
Variables Math_cos Math_sin : num -> num.
Variable env_PORT : option string.

Lemma broadcast_all_spec (st : Server) (ws : Conn) (b : Broadcast) :
  broadcast_all st ws b =
  map (fun c => Send c (MBroadcast b)) (open_others st ws).
Proof.
  unfold broadcast_all, open_others.
  induction (wss_clients st) as [|c l IH]; [reflexivity|].
  cbn [flat_map]. rewrite filter_cons, IH.
  destruct (decide (c ≠ ws /\ readyState st c = OPEN)) as [[H1 H2]|Hn].
  - rewrite !bool_decide_eq_true_2 by assumption. reflexivity.
  - destruct (bool_decide (c ≠ ws)) eqn:E1; [|reflexivity].
    destruct (bool_decide (readyState st c = OPEN)) eqn:E2; [|reflexivity].
    apply bool_decide_eq_true in E1, E2. tauto.
Qed.

Lemma on_message_render_host (st : Server) (ws : Conn) (data : string)
    (h : Host) (parsed : JValue) (config : EffectConfig) :
  JSON_parse data = Some parsed ->
  is_render_request parsed = true ->
  view_config (get parsed "config") = Typed config ->
  snd (on_message JSON_parse Math_cos Math_sin env_PORT st ws data h) =
  skip_clock 4
    (skip_random (5 * Z.to_nat (particleCount (parameters config))) h).
Proof.
  intros Hparse Hreq Hcfg. unfold on_message. rewrite Hparse.
  unfold is_render_request in Hreq.
  destruct (prop parsed "command") as [command|] eqn:Ec; [|discriminate].
  assert (Het : prop parsed "effectType" = Some (get parsed "effectType")).
  { unfold get. destruct (prop parsed "effectType"); [reflexivity|discriminate]. }
  rewrite Het in Hreq. rewrite Hreq, Hcfg.
  unfold bind, render_branch, bind.
  pose proof (generate_host Math_cos Math_sin config h) as Hh.
  destruct (generateTornadoEffect Math_cos Math_sin config h) as [e h1].
  cbn [snd] in Hh. subst h1. reflexivity.
Qed.

End HandlerFacts.

(** A render request is answered in a fixed order: the reply to the sender,
    the console line, then one broadcast per other open member of
    [wss.clients], in the order of that set and all carrying the same
    object.  The clock is read four times: start and end of the render
    (their difference is the render time), then the reply's timestamp, then
    the one timestamp shared by all broadcasts. *)
Theorem render_outputs_in_order (JSON_parse : string -> option JValue)
    (Math_cos Math_sin : num -> num) (env_PORT : option string)
    (st : Server) (ws : Conn) (data : string) (h : Host)
    (parsed : JValue) (config : EffectConfig) :
  JSON_parse data = Some parsed ->
  is_render_request parsed = true ->
  view_config (get parsed "config") = Typed config ->
  exists (reply : RenderedReply) (b : Broadcast),
    outcome_of JSON_parse Math_cos Math_sin env_PORT st ws data h =
      Outputs (Send ws (MRendered reply)
               :: Console (TornadoRendered (pos_x (position config))
                             (pos_y (position config)))
               :: map (fun c => Send c (MBroadcast b)) (open_others st ws)) /\
    rr_renderTime reply =
      JS.sub (clock_tape h (1 + clock_calls h)) (clock_tape h (clock_calls h)) /\
    rr_timestamp reply = clock_tape h (2 + clock_calls h) /\
    bc_timestamp b = clock_tape h (3 + clock_calls h) /\
    clock_calls
      (snd (on_message JSON_parse Math_cos Math_sin env_PORT st ws data h)) =
      (4 + clock_calls h)%nat.
Proof.
  intros Hparse Hreq Hcfg.
  exists (reply_of Math_cos Math_sin parsed config h),
         (broadcast_of Math_cos Math_sin config h).
  split; [|split; [|split; [|split]]].
  - rewrite (on_message_render JSON_parse Math_cos Math_sin env_PORT
               st ws data h parsed config Hparse Hreq Hcfg).
    now rewrite broadcast_all_spec.
  - unfold reply_of. cbn [rr_renderTime]. apply generate_renderTime.
  - unfold reply_of. cbn [rr_timestamp]. rewrite generate_host. reflexivity.
  - unfold broadcast_of. cbn [bc_timestamp]. rewrite generate_host. reflexivity.
  - rewrite (on_message_render_host JSON_parse Math_cos Math_sin env_PORT
               st ws data h parsed config Hparse Hreq Hcfg).
    reflexivity.
Qed.

Lemma render_outputs_in_order_witness :
  exists (reply : RenderedReply) (b : Broadcast),
    outcome_of (fun _ => Some (render_request 3 2)) (fun a => a) (fun a => a)
      None sample_server 1%nat "render" sample_host =
    Outputs [Send 1%nat (MRendered reply);
             Console (TornadoRendered (of_Z 10) (of_Z 20));
             Send 2%nat (MBroadcast b)] /\
    bc_timestamp b = of_Z 1700000000009.
Proof.
  destruct (render_outputs_in_order
              (fun _ => Some (render_request 3 2)) (fun a => a) (fun a => a)
              None sample_server 1%nat "render" sample_host
              (render_request 3 2) (sample_config 3 2)
              eq_refl eq_refl eq_refl)
    as (reply & b & Hout & _ & _ & Hb & _).
  exists reply, b. split; [exact Hout|exact Hb].
Defined.









(** A request for two and a half particles is not embedded; if its render
    completes, the sender gets the reply and the other open socket the
    broadcast, as for a request of the expected shape. *)
Example sends_for_fractional_count :
  outcome_of (fun _ => Some fractional_request) (fun a => a) (fun a => a) None
    sample_server 1%nat "render" sample_host = NotEmbedded /\
  message_sends (fun _ => Some fractional_request) (fun a => a) (fun a => a) None
    (fun _ => Completes) sample_server 1%nat "render" sample_host =
  [(1%nat, EffectRendered); (2%nat, EffectBroadcast)] /\
  message_sends (fun _ => Some (render_request 3 2)) (fun a => a) (fun a => a) None
    (fun _ => RaisesBeforeReply) sample_server 1%nat "render" sample_host =
  [(1%nat, EffectRendered); (2%nat, EffectBroadcast)].
Proof. repeat split. Qed.

(** Any decoded payload other than [null] that is not a fire-tornado
    render request is echoed once to its sender: same payload, processed
    flag set, the server's port (8765 when the PORT variable is unset or
    empty, else its text), one clock reading as timestamp.  Nobody else
    receives anything. *)
Theorem echo_round_trip (JSON_parse : string -> option JValue)
    (Math_cos Math_sin : num -> num) (env_PORT : option string)
    (st : Server) (ws : Conn) (data : string) (h : Host) (parsed : JValue) :
  JSON_parse data = Some parsed ->
  parsed <> JNull ->
  is_render_request parsed = false ->
  exists e : Echo,
    outcome_of JSON_parse Math_cos Math_sin env_PORT st ws data h =
      Outputs [Send ws (MEcho e)] /\
    echo_type e = "response"%string /\
    echo_original e = parsed /\
    echo_processed e = true /\
    echo_timestamp e = clock_tape h (clock_calls h) /\
    echo_port e =
      match env_PORT with
      | None | Some EmptyString => JNum (of_Z 8765)
      | Some s => JStr s
      end /\
    (forall c : Conn, c <> ws -> received [Send ws (MEcho e)] c = []).
Proof.
  intros Hparse Hnull Hreq.
  exists {| echo_type := "response";
            echo_original := parsed;
            echo_processed := true;
            echo_port := PORT env_PORT;
            echo_timestamp := fst (Date_now h) |}.
  split.
  { exact (on_message_echo JSON_parse Math_cos Math_sin env_PORT
             st ws data h parsed Hparse Hnull Hreq). }
  cbn. repeat split.
  - unfold PORT. destruct env_PORT as [[|a s]|]; reflexivity.
  - intros c Hc. rewrite bool_decide_eq_false_2 by congruence. reflexivity.
Qed.

Lemma echo_round_trip_witness :
  exists e : Echo,
    outcome_of (fun _ => Some other_effect_request) (fun a => a) (fun a => a)
      (Some "9000"%string) sample_server 2%nat "other" sample_host =
      Outputs [Send 2%nat (MEcho e)] /\
    echo_original e = other_effect_request /\
    echo_port e = JStr "9000".
Proof.
  destruct (echo_round_trip (fun _ => Some other_effect_request)
              (fun a => a) (fun a => a) (Some "9000"%string)
              sample_server 2%nat "other" sample_host other_effect_request
              eq_refl)
    as (e & Hout & _ & Horig & _ & _ & Hport & _);
    [discriminate|reflexivity|].
  exists e. split; [exact Hout|]. split; [exact Horig|exact Hport].
Defined.

(** A render request whose [config] is missing, null or not an object, or
    whose [config.parameters] is missing or null, raises inside
    [generateTornadoEffect].  The [catch] block logs it as a parse error:
    no message is sent to anyone, and the message is still counted. *)
Theorem request_without_config_dropped (JSON_parse : string -> option JValue)
    (Math_cos Math_sin : num -> num) (env_PORT : option string)
    (st : Server) (ws : Conn) (data : string) (h : Host) (parsed : JValue) :
  JSON_parse data = Some parsed ->
  is_render_request parsed = true ->
  get parsed "config" = None \/
  get parsed "config" = Some JNull \/
  (exists v, get parsed "config" = Some v /\
             forall fields, v <> JObj fields) \/
  (exists fields, get parsed "config" = Some (JObj fields) /\
                  (assoc "parameters" fields = None \/
                   assoc "parameters" fields = Some JNull)) ->
  outcome_of JSON_parse Math_cos Math_sin env_PORT st ws data h =
    Outputs [Console ParseError] /\
  (forall c : Conn, received [Console ParseError] c = []) /\
  messageCount
    (fst (fst (on_message JSON_parse Math_cos Math_sin env_PORT st ws data h))) =
    S (messageCount st).
Proof.
  intros Hparse Hreq Hcfg. split; [|split].
  - apply on_message_without_config with (parsed := parsed);
      [assumption|assumption|].
    destruct Hcfg as [->|[->|[(v & -> & Hv)|(fields & -> & [Hp|Hp])]]].
    + left; reflexivity.
    + left; reflexivity.
    + destruct v; try (right; reflexivity); try (left; reflexivity).
      exfalso. eapply Hv. reflexivity.
    + right. cbn. now rewrite Hp.
    + right. cbn. now rewrite Hp.
  - intros c. reflexivity.
  - rewrite on_message_state. reflexivity.
Qed.

Lemma request_without_config_dropped_witness :
  outcome_of (fun _ => Some bare_render_request) (fun a => a) (fun a => a)
    None sample_server 1%nat "render" sample_host =
  Outputs [Console ParseError].
Proof.
  apply (request_without_config_dropped (fun _ => Some bare_render_request)
           (fun a => a) (fun a => a) None sample_server 1%nat "render"
           sample_host bare_render_request eq_refl eq_refl).
  left. reflexivity.
Defined.

(** Along any history, the message counter grows by exactly the number of
    'message' events, whatever they contain; no other event touches it. *)
Theorem message_counter_counts_messages (JSON_parse : string -> option JValue)
    (Math_cos Math_sin : num -> num) (env_PORT : option string)
    (evs : list Event) (st : Server) (h : Host) :
  messageCount (state_after JSON_parse Math_cos Math_sin env_PORT st evs h) =
  (messageCount st + incoming evs)%nat.
Proof.
  revert st h. induction evs as [|ev rest IH]; intros st h.
  - unfold state_after, incoming. cbn. lia.
  - rewrite state_after_cons, IH. unfold incoming.
    destruct ev; cbn; lia.
Qed.

(** ** The bridge's event log *)

Lemma slice_from_last {A : Type} (k : nat) (l : list A) :
  (0 < k)%nat ->
  slice_from (- Z.of_nat k) l = drop (length l - k) l.
Proof.
  intros Hk. unfold slice_from.
  destruct (- Z.of_nat k <? 0) eqn:E; [|apply Z.ltb_ge in E; lia].
  f_equal. lia.
Qed.

Lemma logEvent_log (b : Bridge.T) (eventType : string) (eventData : JValue)
    (h : Host) :
  Bridge.eventLog (fst (Bridge.logEvent b eventType eventData h)) =
  let log := Bridge.eventLog b ++
             [{| Bridge.timestamp := clock_tape h (clock_calls h);
                 Bridge.type := eventType;
                 Bridge.data := eventData |}] in
  if (1000 <? length log)%nat then drop (length log - 500) log else log.
Proof.
  unfold Bridge.logEvent, bind. cbn [Date_now ret fst Bridge.eventLog
    Bridge.set_eventLog].
  match goal with
  | |- context [(1000 <? ?n)%nat] => destruct (1000 <? n)%nat
  end; [|reflexivity].
  apply (slice_from_last 500). lia.
Qed.

Lemma logEvent_rest (b : Bridge.T) (eventType : string) (eventData : JValue)
    (h : Host) :
  let b' := fst (Bridge.logEvent b eventType eventData h) in
  Bridge.modulesConnected b' = Bridge.modulesConnected b /\
  Bridge.vqInstances b' = Bridge.vqInstances b /\
  Bridge.currentInstanceIndex b' = Bridge.currentInstanceIndex b /\
  Bridge.performanceMetrics b' = Bridge.performanceMetrics b.
Proof. repeat split. Qed.

(** [logEvent] at the edge: the new entry is always the last one of the
    log; below 1000 entries the log just grows; with exactly 1000 entries
    before the call, the 501 oldest are dropped and 500 remain. *)
Theorem logEvent_trims_at_1000 (b : Bridge.T) (eventType : string)
    (eventData : JValue) (h : Host) :
  let entry := {| Bridge.timestamp := clock_tape h (clock_calls h);
                  Bridge.type := eventType;
                  Bridge.data := eventData |} in
  let log' := Bridge.eventLog (fst (Bridge.logEvent b eventType eventData h)) in
  last log' = Some entry /\
  ((length (Bridge.eventLog b) < 1000)%nat ->
   log' = Bridge.eventLog b ++ [entry]) /\
  (length (Bridge.eventLog b) = 1000%nat ->
   log' = drop 501 (Bridge.eventLog b) ++ [entry] /\ length log' = 500%nat).
Proof.
  intros entry log'. subst log'. rewrite logEvent_log. cbv zeta. fold entry.
  rewrite length_app. cbn [length].
  split; [|split].
  - destruct (1000 <? length (Bridge.eventLog b) + 1)%nat eqn:E.
    + apply Nat.ltb_lt in E. rewrite drop_app_le by lia.
      apply last_snoc.
    + apply last_snoc.
  - intros Hlen. rewrite (proj2 (Nat.ltb_ge _ _)) by lia. reflexivity.
  - intros Hlen. rewrite (proj2 (Nat.ltb_lt _ _)) by lia.
    rewrite Hlen. cbn [Nat.add Nat.sub]. rewrite drop_app_le by lia.
    split; [reflexivity|]. rewrite length_app, length_drop, Hlen. reflexivity.
Qed.

Lemma logEvent_bounded (b : Bridge.T) (eventType : string) (eventData : JValue)
    (h : Host) :
  (length (Bridge.eventLog b) <= 1000)%nat ->
  (length (Bridge.eventLog (fst (Bridge.logEvent b eventType eventData h)))
   <= 1000)%nat.
Proof.
  intros Hlen. rewrite logEvent_log. cbv zeta.
  match goal with
  | |- context [(1000 <? ?n)%nat] => destruct (1000 <? n)%nat eqn:E
  end.
  - rewrite length_drop, length_app. cbn. lia.
  - apply Nat.ltb_ge in E. exact E.
Qed.

Lemma call_log_bounded (b : Bridge.T) (c : Bridge.Call) (h : Host) :
  (length (Bridge.eventLog b) <= 1000)%nat ->
  (length (Bridge.eventLog (fst (Bridge.call b c h))) <= 1000)%nat.
Proof.
  intros Hlen. destruct c; cbn [Bridge.call].
  - now apply logEvent_bounded.
  - unfold Bridge.registerModule, bind. cbn [Date_now fst snd].
    match goal with
    | |- context [Bridge.logEvent ?b' ?t ?d ?h'] =>
        pose proof (logEvent_bounded b' t d h' Hlen) as H;
        destruct (Bridge.logEvent b' t d h') as [b2 h2]
    end.
    exact H.
  - unfold Bridge.unregisterModule. now apply logEvent_bounded.
  - unfold ret. cbn [fst]. unfold Bridge.getNextInstance.
    match goal with
    | |- context [(?n =? 0)%nat] => destruct (n =? 0)%nat
    end; exact Hlen.
  - exact Hlen.
Qed.

(** Whatever methods are called on a new bridge, in whatever order, its
    event log never holds more than 1000 entries. *)
Theorem event_log_never_exceeds_1000 (cs : list Bridge.Call) (h : Host) :
  (length (Bridge.eventLog (fst (Bridge.calls Bridge.fresh cs h))) <= 1000)%nat.
Proof.
  assert (Hgen : forall (b : Bridge.T) (h : Host),
             (length (Bridge.eventLog b) <= 1000)%nat ->
             (length (Bridge.eventLog (fst (Bridge.calls b cs h))) <= 1000)%nat).
  { induction cs as [|c rest IH]; intros b h0 Hlen; [exact Hlen|].
    cbn [Bridge.calls]. unfold bind.
    pose proof (call_log_bounded b c h0 Hlen) as Hc.
    destruct (Bridge.call b c h0) as [b1 h1]. now apply IH. }
  apply Hgen. cbn. lia.
Qed.

Lemma sublist_bool_filter {A : Type} (f : A -> bool) (l : list A) :
  sublist (List.filter f l) l.
Proof.
  induction l as [|a l IH]; [constructor|].
  cbn. destruct (f a); [now apply sublist_skip|now apply sublist_cons].
Qed.

Lemma slice_from_sublist {A : Type} (start : Z) (l : list A) :
  sublist (slice_from start l) l.
Proof.
  unfold slice_from. destruct (start <? 0); apply sublist_drop.
Qed.

Lemma elem_of_bool_filter {A : Type} (f : A -> bool) (l : list A) (a : A) :
  a ∈ List.filter f l <-> a ∈ l /\ f a = true.
Proof.
  rewrite !list_elem_of_In. apply filter_In.
Qed.

(** [getEventLog] returns entries of the log, in the order of the log.
    A type or a module id that is given (and not empty) is met by every
    entry returned.  Without those two, a positive limit [k] returns the
    last [k] entries, no limit or the limit 0 returns the whole log, and a
    negative limit [-k] drops the [k] oldest entries. *)
Theorem getEventLog_selects (b : Bridge.T) (f : Bridge.LogFilter) :
  let result := Bridge.getEventLog b f in
  sublist result (Bridge.eventLog b) /\
  (forall (e : Bridge.LogEntry) (t : string),
      e ∈ result -> Bridge.filter_type f = Some t -> t <> ""%string ->
      Bridge.type e = t) /\
  (forall (e : Bridge.LogEntry) (m : string),
      e ∈ result -> Bridge.filter_moduleId f = Some m -> m <> ""%string ->
      get (Bridge.data e) "moduleId" = Some (JStr m)) /\
  (forall k : Z,
      Bridge.filter_limit f = Some k -> 0 < k ->
      (length result <= Z.to_nat k)%nat) /\
  (Bridge.truthy_string (Bridge.filter_type f) = false ->
   Bridge.truthy_string (Bridge.filter_moduleId f) = false ->
   match Bridge.filter_limit f with
   | None | Some 0 => result = Bridge.eventLog b
   | Some (Z.pos k) =>
       result = drop (length (Bridge.eventLog b) - Pos.to_nat k)
                  (Bridge.eventLog b)
   | Some (Z.neg k) => result = drop (Pos.to_nat k) (Bridge.eventLog b)
   end).
Proof.
  intros result. subst result. unfold Bridge.getEventLog.
  set (log0 := Bridge.eventLog b).
  set (log1 := if Bridge.truthy_string (Bridge.filter_type f)
               then List.filter _ log0 else log0).
  set (log2 := if Bridge.truthy_string (Bridge.filter_moduleId f)
               then List.filter _ log1 else log1).
  set (log3 := if Bridge.truthy_integer (Bridge.filter_limit f)
               then slice_from _ log2 else log2).
  assert (H32 : sublist log3 log2).
  { subst log3. destruct (Bridge.truthy_integer _);
      [apply slice_from_sublist|reflexivity]. }
  assert (H21 : sublist log2 log1).
  { subst log2. destruct (Bridge.truthy_string (Bridge.filter_moduleId f));
      [apply sublist_bool_filter|reflexivity]. }
  assert (H10 : sublist log1 log0).
  { subst log1. destruct (Bridge.truthy_string (Bridge.filter_type f));
      [apply sublist_bool_filter|reflexivity]. }
  split; [etransitivity; [exact H32|etransitivity; eassumption]|].
  split; [|split; [|split]].
  - intros e t He Ht Hne.
    assert (He1 : e ∈ log1).
    { eapply sublist_subseteq; [exact H21|].
      eapply sublist_subseteq; [exact H32|exact He]. }
    subst log1. rewrite Ht in He1. cbn in He1.
    destruct (String.eqb_spec t "") as [->|_]; [congruence|]. cbn in He1.
    apply elem_of_bool_filter in He1 as [_ He1].
    now apply String.eqb_eq in He1.
  - intros e m He Hm Hne.
    assert (He2 : e ∈ log2).
    { eapply sublist_subseteq; [exact H32|exact He]. }
    subst log2. rewrite Hm in He2. cbn in He2.
    destruct (String.eqb_spec m "") as [->|_]; [congruence|]. cbn in He2.
    apply elem_of_bool_filter in He2 as [_ He2].
    unfold strict_eq_str in He2.
    destruct (get (Bridge.data e) "moduleId") as [[| | |s| |]|]; try discriminate.
    apply String.eqb_eq in He2. now subst s.
  - intros k Hk Hpos. subst log3. rewrite Hk. cbn.
    destruct (Z.eqb_spec k 0) as [->|_]; [lia|]. cbn.
    unfold slice_from. destruct (- k <? 0) eqn:E; [|apply Z.ltb_ge in E; lia].
    rewrite length_drop. lia.
  - intros Ht Hm. subst log3 log2 log1. rewrite Ht, Hm.
    destruct (Bridge.filter_limit f) as [[|k|k]|]; cbn; try reflexivity;
      unfold slice_from; cbn; f_equal; lia.
Qed.

Lemma getEventLog_selects_witness :
  Bridge.getEventLog sample_bridge
    {| Bridge.filter_type := Some "MODULE_EVENT"%string;
       Bridge.filter_moduleId := None;
       Bridge.filter_limit := Some 0 |} = [].
Proof.
  pose proof (getEventLog_selects sample_bridge
                {| Bridge.filter_type := Some "MODULE_EVENT"%string;
                   Bridge.filter_moduleId := None;
                   Bridge.filter_limit := Some 0 |}) as H.
  cbv zeta in H. destruct H as [H _].
  apply sublist_nil_r in H. exact H.
Defined.

(** ** The bridge's module registry *)

Lemma find_bool_filter_other {A : Type} (f g : A -> bool) (l : list A) :
  (forall a, f a = true -> g a = true) ->
  List.find f (List.filter g l) = List.find f l.
Proof.
  intros Hfg. induction l as [|a l IH]; [reflexivity|].
  cbn. destruct (g a) eqn:Eg.
  - cbn. now rewrite IH.
  - destruct (f a) eqn:Ef; [|exact IH].
    apply Hfg in Ef. congruence.
Qed.

Lemma find_bool_filter_none {A : Type} (f g : A -> bool) (l : list A) :
  (forall a, g a = true -> f a = false) ->
  List.find f (List.filter g l) = None.
Proof.
  intros Hfg. induction l as [|a l IH]; [reflexivity|].
  cbn. destruct (g a) eqn:Eg; [|exact IH].
  cbn. now rewrite (Hfg a Eg).
Qed.

Lemma find_snoc {A : Type} (f : A -> bool) (l : list A) (a : A) :
  List.find f (l ++ [a]) =
  match List.find f l with
  | Some m => Some m
  | None => if f a then Some a else None
  end.
Proof.
  induction l as [|c l IH]; [reflexivity|].
  cbn. destruct (f c); [reflexivity|exact IH].
Qed.

Lemma bool_filter_id {A : Type} (f : A -> bool) (l : list A) :
  (forall a, a ∈ l -> f a = true) -> List.filter f l = l.
Proof.
  intros Hf. induction l as [|a l IH]; [reflexivity|].
  cbn. rewrite (Hf a) by left. f_equal. apply IH.
  intros c Hc. apply Hf. now right.
Qed.

Lemma registerModule_modules (b : Bridge.T) (moduleId moduleName : string)
    (callbacks : nat) (h : Host) :
  let r := fst (Bridge.registerModule b moduleId moduleName callbacks h) in
  snd r = {| Bridge.id := moduleId;
             Bridge.name := moduleName;
             Bridge.registered := clock_tape h (clock_calls h);
             Bridge.callbacks := callbacks;
             Bridge.events := [] |} /\
  Bridge.modulesConnected (fst r) = Bridge.modulesConnected b ++ [snd r].
Proof. split; reflexivity. Qed.

(** [registerModule] appends the new context and returns it.  A lookup of
    the id then finds the context registered first under that id: an id
    that was already registered keeps answering with its old context, the
    new one sits behind it.  Lookups of other ids are unchanged. *)
Theorem registerModule_keeps_first (b : Bridge.T) (moduleId moduleName : string)
    (callbacks : nat) (h : Host) :
  let r := fst (Bridge.registerModule b moduleId moduleName callbacks h) in
  Bridge.id (snd r) = moduleId /\
  Bridge.name (snd r) = moduleName /\
  Bridge.events (snd r) = [] /\
  Bridge.modulesConnected (fst r) = Bridge.modulesConnected b ++ [snd r] /\
  Bridge.getModuleContext (fst r) moduleId =
    Some (default (snd r) (Bridge.getModuleContext b moduleId)) /\
  (forall other : string,
      other <> moduleId ->
      Bridge.getModuleContext (fst r) other = Bridge.getModuleContext b other).
Proof.
  intros r. destruct (registerModule_modules b moduleId moduleName callbacks h)
    as [Hctx Hmods].
  fold r in Hctx, Hmods.
  split; [now rewrite Hctx|]. split; [now rewrite Hctx|].
  split; [now rewrite Hctx|]. split; [exact Hmods|]. split.
  - unfold Bridge.getModuleContext. rewrite Hmods, find_snoc.
    destruct (find _ (Bridge.modulesConnected b)); [reflexivity|].
    rewrite Hctx. cbn. now rewrite String.eqb_refl.
  - intros other Hne. unfold Bridge.getModuleContext. rewrite Hmods, find_snoc.
    destruct (find _ (Bridge.modulesConnected b)); [reflexivity|].
    rewrite Hctx. cbn.
    destruct (String.eqb_spec moduleId other); [congruence|reflexivity].
Qed.

(** [unregisterModule] removes every context registered under the id, so
    that a lookup of the id finds nothing; lookups of other ids are
    unchanged; and unregistering an id right after registering it for the
    first time restores the registry. *)
Theorem unregisterModule_forgets (b : Bridge.T) (moduleId : string) (h : Host) :
  let b' := fst (Bridge.unregisterModule b moduleId h) in
  Bridge.getModuleContext b' moduleId = None /\
  (forall m : Bridge.ModuleContext,
      m ∈ Bridge.modulesConnected b' <->
      m ∈ Bridge.modulesConnected b /\ Bridge.id m <> moduleId) /\
  (forall other : string,
      other <> moduleId ->
      Bridge.getModuleContext b' other = Bridge.getModuleContext b other) /\
  (forall (moduleName : string) (callbacks : nat) (h0 h1 : Host),
      Bridge.getModuleContext b moduleId = None ->
      Bridge.modulesConnected
        (fst (Bridge.unregisterModule
                (fst (fst (Bridge.registerModule b moduleId moduleName
                             callbacks h0)))
                moduleId h1)) =
      Bridge.modulesConnected b).
Proof.
  intros b'.
  assert (Hmods : forall (c : Bridge.T) (h' : Host),
             Bridge.modulesConnected (fst (Bridge.unregisterModule c moduleId h')) =
             List.filter (fun m => negb (String.eqb (Bridge.id m) moduleId))
               (Bridge.modulesConnected c)) by reflexivity.
  split; [|split; [|split]].
  - unfold Bridge.getModuleContext. subst b'. rewrite Hmods.
    apply find_bool_filter_none. intros a Ha.
    now apply negb_true_iff in Ha.
  - intros m. subst b'. rewrite Hmods, elem_of_bool_filter, negb_true_iff.
    rewrite String.eqb_neq. reflexivity.
  - intros other Hne. unfold Bridge.getModuleContext. subst b'. rewrite Hmods.
    apply find_bool_filter_other. intros a Ha.
    apply String.eqb_eq in Ha. apply negb_true_iff, String.eqb_neq. congruence.
  - intros moduleName callbacks h0 h1 Hnone. rewrite Hmods.
    destruct (registerModule_modules b moduleId moduleName callbacks h0)
      as [Hctx ->].
    rewrite List.filter_app, Hctx. cbn. rewrite String.eqb_refl. cbn.
    rewrite app_nil_r. apply bool_filter_id. intros a Ha.
    apply negb_true_iff, String.eqb_neq. intros Heq.
    unfold Bridge.getModuleContext in Hnone.
    apply list_elem_of_In in Ha.
    apply (find_none _ _ Hnone) in Ha. rewrite Heq, String.eqb_refl in Ha.
    discriminate.
Qed.

(** ** Round-robin selection *)

Lemma getNextInstance_some (b : Bridge.T) :
  let H := Bridge.getHealthyInstances b in
  (0 < length H)%nat ->
  Bridge.getNextInstance b =
  (Bridge.set_currentInstanceIndex b
     ((Bridge.currentInstanceIndex b + 1) mod length H)%nat,
   H !! ((Bridge.currentInstanceIndex b + 1) mod length H)%nat).
Proof.
  intros H Hpos. unfold Bridge.getNextInstance. fold (Bridge.getHealthyInstances b).
  fold H. destruct (Nat.eqb_spec (length H) 0) as [E|E]; [lia|reflexivity].
Qed.

Lemma take_turns_spec (k : nat) :
  forall b : Bridge.T,
    let H := Bridge.getHealthyInstances b in
    (0 < length H)%nat ->
    snd (take_turns k b) =
    map (fun j => H !! ((Bridge.currentInstanceIndex b + j) mod length H)%nat)
      (seq 1 k) /\
    Bridge.vqInstances (fst (take_turns k b)) = Bridge.vqInstances b.
Proof.
  induction k as [|k IH]; intros b H Hpos; [split; reflexivity|].
  cbn [take_turns seq map fst snd].
  rewrite (getNextInstance_some b Hpos). cbn [fst snd]. fold H.
  set (b1 := Bridge.set_currentInstanceIndex b
               ((Bridge.currentInstanceIndex b + 1) mod length H)%nat).
  assert (HH : Bridge.getHealthyInstances b1 = H) by reflexivity.
  destruct (IH b1) as [IHs IHv]; [rewrite HH; exact Hpos|].
  rewrite HH in IHs. split; [|rewrite IHv; reflexivity].
  f_equal. rewrite IHs, <- (seq_shift k 1), map_map.
  apply map_ext. intros j. f_equal. subst b1. cbn.
  rewrite Nat.Div0.add_mod_idemp_l. f_equal. lia.
Qed.

Lemma shifted_residues_injective (c n j j' : nat) :
  (1 <= j <= n)%nat ->
  (1 <= j' <= n)%nat ->
  ((c + j) mod n = (c + j') mod n)%nat ->
  j = j'.
Proof.
  intros Hj Hj' Heq.
  assert (Hn : n <> 0%nat) by lia.
  pose proof (Nat.div_mod (c + j) n Hn) as H1.
  pose proof (Nat.div_mod (c + j') n Hn) as H2.
  rewrite Heq in H1.
  set (q := ((c + j) / n)%nat) in *. set (q' := ((c + j') / n)%nat) in *.
  set (r := ((c + j') mod n)%nat) in *.
  assert (Hq : q = q') by nia.
  subst q'. lia.
Qed.

Lemma shifted_residues_permutation (c n : nat) :
  map (fun j => ((c + j) mod n)%nat) (seq 1 n) ≡ₚ seq 0 n.
Proof.
  destruct (decide (n = 0%nat)) as [->|Hn]; [reflexivity|].
  apply submseteq_length_Permutation.
  - apply NoDup_submseteq.
    + apply NoDup_fmap_2_strong; [|apply NoDup_seq].
      intros j j' Hj Hj' Heq. apply elem_of_seq in Hj, Hj'.
      apply (shifted_residues_injective c n); [lia|lia|exact Heq].
    + intros r Hr. apply list_elem_of_fmap in Hr as (j & -> & _).
      apply elem_of_seq. pose proof (Nat.mod_upper_bound (c + j) n Hn). lia.
  - rewrite length_map, !length_seq. lia.
Qed.

Lemma lookups_in_order {A : Type} (l : list A) :
  map (fun i => l !! i) (seq 0 (length l)) = map Some l.
Proof.
  apply list_eq. intros i. rewrite !list_lookup_fmap.
  destruct (decide (i < length l)%nat) as [Hi|Hi].
  - rewrite lookup_seq_lt by assumption. cbn.
    destruct (lookup_lt_is_Some_2 l i Hi) as [a Ha]. now rewrite Ha.
  - rewrite lookup_seq_ge by lia. rewrite lookup_ge_None_2 by lia. reflexivity.
Qed.

(** Round-robin is fair: while the health flags stay as they are, as many
    successive calls of [getNextInstance] as there are healthy instances
    return each healthy instance exactly once, and no call ever returns an
    unhealthy one.  With no healthy instance the call returns null and
    leaves the bridge as it is. *)
Theorem round_robin_is_fair (b : Bridge.T) :
  let H := Bridge.getHealthyInstances b in
  ((0 < length H)%nat ->
   snd (take_turns (length H) b) ≡ₚ map Some H /\
   forall (k : nat) (r : option Bridge.VQInstance),
     r ∈ snd (take_turns k b) ->
     exists inst, r = Some inst /\ inst ∈ Bridge.vqInstances b /\
                  Bridge.healthy inst = true) /\
  (length H = 0%nat -> Bridge.getNextInstance b = (b, None)).
Proof.
  intros H. split.
  - intros Hpos. split.
    + destruct (take_turns_spec (length H) b Hpos) as [-> _]. fold H.
      rewrite <- lookups_in_order.
      rewrite <- (shifted_residues_permutation
                    (Bridge.currentInstanceIndex b) (length H)).
      now rewrite map_map.
    + intros k r Hr. destruct (take_turns_spec k b Hpos) as [Hs _].
      fold H in Hs. rewrite Hs in Hr.
      apply list_elem_of_fmap in Hr as (j & -> & _).
      assert (Hlt : ((Bridge.currentInstanceIndex b + j) mod length H
                     < length H)%nat)
        by (apply Nat.mod_upper_bound; lia).
      destruct (lookup_lt_is_Some_2 H _ Hlt) as [inst Hinst].
      exists inst. split; [exact Hinst|].
      apply list_elem_of_lookup_2 in Hinst. subst H.
      unfold Bridge.getHealthyInstances in Hinst.
      apply elem_of_bool_filter in Hinst. exact Hinst.
  - intros Hzero. unfold Bridge.getNextInstance.
    fold (Bridge.getHealthyInstances b). fold H. now rewrite Hzero.
Qed.

(** ** The running average of response times *)

Lemma report_instance_keeps (metrics : Bridge.Metrics) (inst : Bridge.VQInstance) :
  Bridge.requestsProcessed (Bridge.report_instance metrics inst) =
    Bridge.requestsProcessed metrics /\
  Bridge.avgResponseTime (Bridge.report_instance metrics inst) =
    Bridge.avgResponseTime metrics.
Proof.
  unfold Bridge.report_instance.
  destruct (0 <? Bridge.requestCount inst)%nat; [|split; reflexivity].
  destruct (includes _ "1" || includes _ "Primary"); [split; reflexivity|].
  destruct (includes _ "2" || includes _ "Secondary"); split; reflexivity.
Qed.

Lemma report_instances_keep (insts : list Bridge.VQInstance) :
  forall metrics : Bridge.Metrics,
    Bridge.requestsProcessed (fold_left Bridge.report_instance insts metrics) =
      Bridge.requestsProcessed metrics /\
    Bridge.avgResponseTime (fold_left Bridge.report_instance insts metrics) =
      Bridge.avgResponseTime metrics.
Proof.
  induction insts as [|inst rest IH]; intros metrics; [split; reflexivity|].
  cbn [fold_left]. destruct (IH (Bridge.report_instance metrics inst)) as [-> ->].
  apply report_instance_keeps.
Qed.

(** The three rounding errors of one update, added to the error so far. *)
Lemma step_arith (X dl n e1 e2 E3 W : Q) :
  (0 <= X)%Q -> (0 <= dl)%Q -> (dl <= X)%Q -> (0 <= n)%Q ->
  (- (X * n + dl) <= e1)%Q -> (e1 <= X * n + dl)%Q ->
  (- (X * (n + 1) + dl) <= e2)%Q -> (e2 <= X * (n + 1) + dl)%Q ->
  (- ((X + dl) * (n + 1)) <= E3)%Q -> (E3 <= (X + dl) * (n + 1))%Q ->
  (- (3 * X * n * (n + 1)) <= W)%Q -> (W <= 3 * X * n * (n + 1))%Q ->
  (- (3 * X * (n + 1) * (n + 1 + 1)) <= W + e1 + e2 + E3)%Q /\
  (W + e1 + e2 + E3 <= 3 * X * (n + 1) * (n + 1 + 1))%Q.
Proof.
  intros HX Hd HdX Hn A1 A2 B1 B2 C1 C2 D1 D2.
  assert (P1 : (0 <= X * n)%Q) by (apply Qmult_le_0_compat; assumption).
  assert (P2 : (dl * n <= X * n)%Q) by (apply Qmult_le_compat_r; assumption).
  assert (P3 : (0 <= dl * n)%Q) by (apply Qmult_le_0_compat; assumption).
  assert (P4 : (0 <= X * n * n)%Q) by (apply Qmult_le_0_compat; assumption).
  split; nra.
Qed.

(** One update: the new average stays between the bounds, and its
    distance to the sum of the durations, weighted by the count, grows by
    at most [6 * (n + 1) * D * 2^-53]. *)
Lemma next_average_step (lo D : Z) (n : nat) (a d total : Q) :
  0 <= lo -> lo <= D -> 1 <= D ->
  D * Z.of_nat (S n) < 2 ^ 53 ->
  (n = 0%nat \/ (inject_Z lo <= a /\ a <= inject_Z D)%Q) ->
  (inject_Z lo <= d)%Q -> (d <= inject_Z D)%Q ->
  let u := (pow2 (-53) * inject_Z D)%Q in
  let nq := inject_Z (Z.of_nat n) in
  (- (3 * u * nq * (nq + 1)) <= a * nq - total)%Q ->
  (a * nq - total <= 3 * u * nq * (nq + 1))%Q ->
  exists a',
    next_average (Fin a) (Fin d) (S n) = Fin a' /\
    (inject_Z lo <= a')%Q /\ (a' <= inject_Z D)%Q /\
    (- (3 * u * (nq + 1) * (nq + 1 + 1)) <= a' * (nq + 1) - (total + d))%Q /\
    (a' * (nq + 1) - (total + d) <= 3 * u * (nq + 1) * (nq + 1 + 1))%Q.
Proof.
  intros Hlo HloD HD Hbig Ha Hd1 Hd2 u nq W1 W2.
  assert (H53 : 2 ^ 53 = 9007199254740992) by reflexivity.
  assert (Hn0 : (0 <= nq)%Q) by (apply inject_Z_nonneg; lia).
  assert (Hlq : (0 <= inject_Z lo)%Q) by (apply inject_Z_nonneg; lia).
  assert (HDq : (1 <= inject_Z D)%Q)
    by (change 1%Q with (inject_Z 1); rewrite <- Zle_Qle; lia).
  pose proof (pow2_pos (-53)) as Hu. pose proof (pow2_pos (-1075)) as Hdl.
  assert (Hdu : (pow2 (-1075) <= u)%Q).
  { unfold u. apply Qle_trans with (pow2 (-53) * 1)%Q.
    - assert (pow2 (-1075) <= pow2 (-53))%Q by (apply pow2_le; lia). lra.
    - apply Qmult_le_l; assumption. }
  assert (HuD : (0 <= u)%Q).
  { unfold u. apply Qmult_le_0_compat; [lra|lra]. }
  unfold next_average, of_nat, of_Z.
  (* count - 1 *)
  rewrite sub_fin.
  assert (Ec : (inject_Z (Z.of_nat (S n)) - inject_Z 1 == nq)%Q).
  { rewrite Nat2Z.inj_succ. unfold Z.succ. rewrite inject_Z_plus.
    unfold nq. ring. }
  rewrite (round64_comp _ _ Ec). unfold nq at 1. rewrite round64_Z by lia.
  fold nq.
  (* prevAvg * (count - 1) *)
  rewrite mul_fin.
  assert (Han : (inject_Z (lo * Z.of_nat n) <= a * nq)%Q /\
                (a * nq <= inject_Z (D * Z.of_nat n))%Q).
  { rewrite !inject_Z_mult. fold nq. destruct Ha as [->|[A1 A2]].
    - unfold nq. change (inject_Z (Z.of_nat 0)) with 0%Q. split; lra.
    - split; apply Qmult_le_compat_r; assumption. }
  destruct Han as [An1 An2].
  destruct (round64_rel (a * nq) (lo * Z.of_nat n) (D * Z.of_nat n))
    as (t1 & Ht1 & T11 & T12 & T13 & T14); [lia|lia|assumption|assumption|].
  rewrite Ht1, add_fin.
  rewrite inject_Z_mult in An1, An2, T11, T12. fold nq in An1, An2, T11, T12.
  (* ... + duration *)
  destruct (round64_rel (t1 + d) (lo * Z.of_nat (S n)) (D * Z.of_nat (S n)))
    as (t2 & Ht2 & T21 & T22 & T23 & T24); [lia|lia| | |].
  { rewrite inject_Z_mult, Nat2Z.inj_succ. unfold Z.succ.
    rewrite inject_Z_plus. fold nq. change (inject_Z 1) with 1%Q. lra. }
  { rewrite inject_Z_mult, Nat2Z.inj_succ. unfold Z.succ.
    rewrite inject_Z_plus. fold nq. change (inject_Z 1) with 1%Q. lra. }
  rewrite inject_Z_mult, Nat2Z.inj_succ in T21, T22. unfold Z.succ in T21, T22.
  rewrite inject_Z_plus in T21, T22. fold nq in T21, T22.
  change (inject_Z 1) with 1%Q in T21, T22.
  rewrite Ht2.
  (* ... / count *)
  assert (Ecq : (inject_Z (Z.of_nat (S n)) == nq + 1)%Q).
  { rewrite Nat2Z.inj_succ. unfold Z.succ. rewrite inject_Z_plus. reflexivity. }
  assert (Hc0 : ~ (inject_Z (Z.of_nat (S n)) == 0)%Q) by (rewrite Ecq; lra).
  rewrite div_fin by assumption.
  assert (Eq3 : (t2 / inject_Z (Z.of_nat (S n)) == t2 / (nq + 1))%Q)
    by (rewrite Ecq; reflexivity).
  rewrite (round64_comp _ _ Eq3).
  set (q3 := (t2 / (nq + 1))%Q).
  assert (Hq3 : (q3 * (nq + 1) == t2)%Q) by (unfold q3; field; lra).
  assert (Q1 : (inject_Z lo <= q3)%Q).
  { unfold q3. apply Qle_shift_div_l; lra. }
  assert (Q2 : (q3 <= inject_Z D)%Q).
  { unfold q3. apply Qle_shift_div_r; lra. }
  destruct (round64_rel q3 lo D) as (a' & Ha' & T31 & T32 & T33 & T34);
    [lia|nia|assumption|assumption|].
  exists a'. split; [exact Ha'|]. split; [exact T31|]. split; [exact T32|].
  (* the three errors *)
  set (dl := pow2 (-1075)) in *. set (e := pow2 (-53)) in *.
  assert (U1 : (e * (a * nq) <= u * nq)%Q).
  { unfold u. rewrite <- Qmult_assoc. apply Qmult_le_l; assumption. }
  assert (U2 : (e * (t1 + d) <= u * (nq + 1))%Q).
  { unfold u. rewrite <- Qmult_assoc. apply Qmult_le_l; [assumption|lra]. }
  assert (U3 : (e * q3 <= u)%Q).
  { unfold u. apply Qmult_le_l; assumption. }
  assert (E31 : (- ((u + dl) * (nq + 1)) <= a' * (nq + 1) - t2)%Q).
  { rewrite <- Hq3.
    assert ((q3 - (u + dl)) * (nq + 1) <= a' * (nq + 1))%Q
      by (apply Qmult_le_compat_r; lra).
    lra. }
  assert (E32 : (a' * (nq + 1) - t2 <= (u + dl) * (nq + 1))%Q).
  { rewrite <- Hq3.
    assert (a' * (nq + 1) <= (q3 + (u + dl)) * (nq + 1))%Q
      by (apply Qmult_le_compat_r; lra).
    lra. }
  destruct (step_arith u dl nq (t1 - a * nq) (t2 - (t1 + d))
              (a' * (nq + 1) - t2) (a * nq - total))
    as [R1 R2]; lra.
Qed.

Lemma updateMetrics_metrics (b : Bridge.T) (duration : num) (success : bool) :
  let m := Bridge.performanceMetrics b in
  let m' := Bridge.performanceMetrics (Bridge.updateMetrics b duration success) in
  Bridge.requestsProcessed m' = S (Bridge.requestsProcessed m) /\
  Bridge.avgResponseTime m' =
    next_average (Bridge.avgResponseTime m) duration (S (Bridge.requestsProcessed m)).
Proof.
  intros m m'. subst m m'. unfold Bridge.updateMetrics.
  destruct b as [mods log insts idx mode metrics]. cbn.
  match goal with
  | |- context [fold_left Bridge.report_instance ?l ?m] =>
      destruct (report_instances_keep l m) as [-> ->]
  end.
  split; reflexivity.
Qed.

Lemma record_durations_near (lo D : Z) (durations : list Q) :
  0 <= lo -> lo <= D -> 1 <= D ->
  durations_within lo D durations ->
  forall (b : Bridge.T) (n : nat) (a total : Q),
    Bridge.requestsProcessed (Bridge.performanceMetrics b) = n ->
    Bridge.avgResponseTime (Bridge.performanceMetrics b) = Fin a ->
    D * Z.of_nat (n + length durations) < 2 ^ 53 ->
    (n = 0%nat \/ (inject_Z lo <= a /\ a <= inject_Z D)%Q) ->
    let u := (pow2 (-53) * inject_Z D)%Q in
    let nq := inject_Z (Z.of_nat n) in
    (- (3 * u * nq * (nq + 1)) <= a * nq - total)%Q ->
    (a * nq - total <= 3 * u * nq * (nq + 1))%Q ->
    let b' := record_durations b durations in
    let kq := inject_Z (Z.of_nat (n + length durations)) in
    Bridge.requestsProcessed (Bridge.performanceMetrics b') =
      (n + length durations)%nat /\
    exists a',
      Bridge.avgResponseTime (Bridge.performanceMetrics b') = Fin a' /\
      ((n + length durations = 0)%nat \/
       (inject_Z lo <= a' /\ a' <= inject_Z D)%Q) /\
      (- (3 * u * kq * (kq + 1)) <= a' * kq - (total + Qsum durations))%Q /\
      (a' * kq - (total + Qsum durations) <= 3 * u * kq * (kq + 1))%Q.
Proof.
  intros Hlo HloD HD Hall.
  induction Hall as [|d rest [Hd1 Hd2] Hrest IH];
    intros b n a total Hn Ha Hbig Hrange u nq W1 W2 b' kq.
  - subst b' kq. cbn [record_durations fold_left length Qsum fold_right].
    rewrite Nat.add_0_r. split; [exact Hn|].
    exists a. split; [exact Ha|]. split; [exact Hrange|].
    fold nq. split; lra.
  - subst b' kq. cbn [record_durations fold_left length].
    destruct (updateMetrics_metrics b (Fin d) true) as [Hc Havg].
    cbn zeta in Hc, Havg. rewrite Hn in Hc, Havg. rewrite Ha in Havg.
    destruct (next_average_step lo D n a d total Hlo HloD HD) as
      (a1 & Ha1 & A1 & A2 & E1 & E2);
      [cbn [length] in Hbig; lia|exact Hrange|exact Hd1|exact Hd2
      |exact W1|exact W2|].
    rewrite Ha1 in Havg.
    assert (Enq : (inject_Z (Z.of_nat (S n)) == nq + 1)%Q).
    { rewrite Nat2Z.inj_succ. unfold Z.succ. rewrite inject_Z_plus. reflexivity. }
    specialize (IH (Bridge.updateMetrics b (Fin d) true) (S n) a1 (total + d)%Q
                  Hc Havg).
    cbn zeta in IH.
    destruct IH as (Hcount & a2 & Ha2 & R2 & F1 & F2).
    + cbn [length] in Hbig. replace (S n + length rest)%nat
        with (n + S (length rest))%nat by lia. exact Hbig.
    + right. split; assumption.
    + rewrite Enq. fold u nq in E1. exact E1.
    + rewrite Enq. fold u nq in E2. exact E2.
    + replace (n + S (length rest))%nat with (S n + length rest)%nat by lia.
      split; [exact Hcount|]. exists a2. split; [exact Ha2|].
      split; [exact R2|].
      cbn [Qsum fold_right]. fold (Qsum rest). subst u.
      split; lra.
Qed.

(** The running average is the mean up to rounding.  On a bridge that has
    processed no request yet, after [updateMetrics] has been called with
    [k > 0] durations that lie between the whole numbers [lo >= 0] and
    [D >= 1], with [D * k < 2^53]: [requestsProcessed] is [k], and
    [avgResponseTime] lies between [lo] and [D] and within
    [3 * (k + 1) * D * 2^-53] of [(d1 + ... + dk) / k]. *)
Theorem average_near_the_mean (b : Bridge.T) (a0 : Q) (lo D : Z)
    (durations : list Q) :
  Bridge.requestsProcessed (Bridge.performanceMetrics b) = 0%nat ->
  Bridge.avgResponseTime (Bridge.performanceMetrics b) = Fin a0 ->
  durations <> [] ->
  0 <= lo -> lo <= D -> 1 <= D ->
  D * Z.of_nat (length durations) < 2 ^ 53 ->
  durations_within lo D durations ->
  let b' := record_durations b durations in
  let k := inject_Z (Z.of_nat (length durations)) in
  Bridge.requestsProcessed (Bridge.performanceMetrics b') = length durations /\
  exists a : Q,
    Bridge.avgResponseTime (Bridge.performanceMetrics b') = Fin a /\
    (inject_Z lo <= a)%Q /\ (a <= inject_Z D)%Q /\
    (Qabs (a - Qsum durations / k) <= 3 * (k + 1) * (inject_Z D * pow2 (-53)))%Q.
Proof.
  intros Hn Ha Hne Hlo HloD HD Hbig Hall b' k. subst b'.
  destruct (record_durations_near lo D durations Hlo HloD HD Hall b 0 a0 0%Q
              Hn Ha Hbig (or_introl eq_refl))
    as (Hc & a & Haa & Hr & E1 & E2).
  { change (inject_Z (Z.of_nat 0)) with 0%Q. lra. }
  { change (inject_Z (Z.of_nat 0)) with 0%Q. lra. }
  cbn [Nat.add] in Hc, Hr, E1, E2. fold k in E1, E2.
  split; [exact Hc|]. exists a. split; [exact Haa|].
  assert (Hlen : (0 < length durations)%nat)
    by (destruct durations; [congruence|cbn; lia]).
  destruct Hr as [Hr|[R1 R2]]; [lia|].
  split; [exact R1|]. split; [exact R2|].
  assert (Hk : (0 < k)%Q) by (apply inject_Z_pos; lia).
  set (u := (pow2 (-53) * inject_Z D)%Q) in *.
  assert (Ediv : (a - Qsum durations / k == (a * k - (0 + Qsum durations)) / k)%Q)
    by (field; lra).
  rewrite Ediv. apply Qabs_Qle_condition. split.
  - apply Qle_shift_div_l; [assumption|]. subst u. lra.
  - apply Qle_shift_div_r; [assumption|]. subst u. lra.
Qed.

Lemma average_near_the_mean_witness :
  exists a : Q,
    Bridge.avgResponseTime
      (Bridge.performanceMetrics (record_durations Bridge.fresh [10; 20; 60]%Q)) =
      Fin a /\
    (10 <= a)%Q /\ (a <= 60)%Q /\ (Qabs (a - 30) <= 1 # 1000000000)%Q.
Proof.
  destruct (average_near_the_mean Bridge.fresh 0%Q 10 60 [10; 20; 60]%Q
              eq_refl eq_refl)
    as (_ & a & Ha & H1 & H2 & H3);
    [discriminate|lia|lia|lia|reflexivity
    |repeat constructor; discriminate|].
  exists a. split; [exact Ha|]. split; [exact H1|]. split; [exact H2|].
  assert (E : (Qsum [10; 20; 60] / inject_Z (Z.of_nat (length [10; 20; 60]%Q)) == 30)%Q)
    by reflexivity.
  rewrite E in H3.
  eapply Qle_trans; [exact H3|]. vm_compute. discriminate.
Defined.

(** It is not the mean itself: eight whole durations whose mean, 31.25, is
    a binary64 value give an average one step below it. *)
Example average_misses_the_mean :
  (Qsum eight_durations / 8 == 125 # 4)%Q /\
  round64 (125 # 4) = Fin (125 # 4) /\
  Bridge.avgResponseTime
    (Bridge.performanceMetrics (record_durations Bridge.fresh eight_durations)) =
    Fin (8796093022207999 # 281474976710656) /\
  (8796093022207999 # 281474976710656 < 125 # 4)%Q.
Proof. repeat split. Qed.

(** Without the bound on the durations the average can overflow. *)
Example average_overflows :
  round64 Number_MAX_VALUE = Fin Number_MAX_VALUE /\
  Bridge.avgResponseTime
    (Bridge.performanceMetrics
       (record_durations Bridge.fresh [Number_MAX_VALUE; Number_MAX_VALUE])) =
    PosInf.
Proof. split; vm_compute; reflexivity. Qed.

(** ** Sharding *)

Lemma slices_cover {A : Type} (k : nat) (l : list A) (n : nat) :
  concat (map (fun idx => slice (idx * k) ((idx + 1) * k) l) (seq 0 n)) =
  take (n * k) l.
Proof.
  induction n as [|n IH]; [reflexivity|].
  rewrite seq_S, map_app, concat_app, IH. cbn [map concat Nat.add].
  rewrite app_nil_r. unfold slice.
  replace ((n + 1) * k - n * k)%nat with k by lia.
  rewrite take_take_drop. f_equal. lia.
Qed.

Lemma shards_fit {A : Type} (shards : list A) (instances : nat) :
  (0 < instances)%nat ->
  (length shards <= instances * Bridge.shardsPerInstance shards instances)%nat.
Proof.
  intros Hn. unfold Bridge.shardsPerInstance.
  pose proof (Nat.div_mod (length shards + instances - 1) instances
                ltac:(lia)) as Hdm.
  pose proof (Nat.mod_upper_bound (length shards + instances - 1) instances
                ltac:(lia)) as Hr.
  lia.
Qed.

(** Sharding loses nothing and duplicates nothing: with at least one
    instance, the slices handed to the instances of index 0, 1, ... are
    consecutive pieces of the shard list, each of at most
    [ceil (shards / instances)] shards, and put end to end they give the
    shard list back. *)
Theorem shards_are_partitioned {A : Type} (shards : list A) (instances : nat) :
  (0 < instances)%nat ->
  concat (map (Bridge.instanceShards shards instances) (seq 0 instances)) = shards /\
  (forall idx : nat,
      (length (Bridge.instanceShards shards instances idx)
       <= Bridge.shardsPerInstance shards instances)%nat) /\
  (forall idx : nat,
      Bridge.instanceShards shards instances idx =
      take (Bridge.shardsPerInstance shards instances)
        (drop (idx * Bridge.shardsPerInstance shards instances) shards)).
Proof.
  intros Hn.
  assert (Hslice : forall idx : nat,
             Bridge.instanceShards shards instances idx =
             take (Bridge.shardsPerInstance shards instances)
               (drop (idx * Bridge.shardsPerInstance shards instances) shards)).
  { intros idx. unfold Bridge.instanceShards, slice. f_equal. lia. }
  split; [|split; [|exact Hslice]].
  - unfold Bridge.instanceShards. rewrite slices_cover.
    apply take_ge. now apply shards_fit.
  - intros idx. rewrite Hslice, length_take. lia.
Qed.

Lemma shards_are_partitioned_witness :
  map (Bridge.instanceShards [1; 2; 3; 4; 5] 2) (seq 0 2) = [[1; 2; 3]; [4; 5]] /\
  concat (map (Bridge.instanceShards [1; 2; 3; 4; 5] 2) (seq 0 2)) = [1; 2; 3; 4; 5].
Proof.
  split; [reflexivity|].
  apply (shards_are_partitioned [1; 2; 3; 4; 5] 2). lia.
Defined.

(** ** From the connector to the relay *)

(** A security event sent by the connector is only ever echoed: whatever
    the event holds, even the fields of a render request, the relay
    answers the connector with one 'response' carrying the frame as it was
    sent, renders nothing and broadcasts nothing.  The connector counts the
    frame on the socket it used. *)
Theorem security_events_are_echoed (JSON_parse : string -> option JValue)
    (Math_cos Math_sin : num -> num) (env_PORT : option string)
    (which : Connector.Socket) (stats : Connector.Stats) (event : JValue)
    (st : Server) (ws : Conn) (data : string) (h : Host) :
  let sent := Connector.logSecurityEvent which stats event in
  JSON_parse data = Some (snd (snd sent)) ->
  (exists e : Echo,
      outcome_of JSON_parse Math_cos Math_sin env_PORT st ws data h =
        Outputs [Send ws (MEcho e)] /\
      echo_original e = Connector.security_event event /\
      echo_processed e = true) /\
  fst (snd sent) = which /\
  (Connector.vq1Messages (fst sent) + Connector.vq2Messages (fst sent) =
   S (Connector.vq1Messages stats + Connector.vq2Messages stats))%nat.
Proof.
  intros sent Hparse. subst sent. cbn [Connector.logSecurityEvent fst snd] in *.
  split; [|split; [reflexivity|destruct which; cbn; lia]].
  eexists. split.
  - exact (on_message_echo JSON_parse Math_cos Math_sin env_PORT st ws data h
             (Connector.security_event event) Hparse
             ltac:(discriminate) eq_refl).
  - split; reflexivity.
Qed.

Lemma security_events_are_echoed_witness :
  exists e : Echo,
    outcome_of (fun _ => Some (Connector.security_event (render_request 3 2)))
      (fun a => a) (fun a => a) None sample_server 1%nat "frame" sample_host =
      Outputs [Send 1%nat (MEcho e)] /\
    echo_original e = Connector.security_event (render_request 3 2).
Proof.
  destruct (security_events_are_echoed
              (fun _ => Some (Connector.security_event (render_request 3 2)))
              (fun a => a) (fun a => a) None Connector.VQ1
              (Connector.mkStats true true 0 0 (of_Z 0)) (render_request 3 2)
              sample_server 1%nat "frame" sample_host eq_refl)
    as ((e & Hout & Horig & _) & _).
  exists e. split; [exact Hout|exact Horig].
Defined.

(** ** Further instances on the sample inputs *)

Lemma sample_particle_1 :
  re_particles (fst (generateTornadoEffect (fun a => a) (fun a => a)
                       (sample_config 5 3) sample_host)) !! 1%nat =
  Some (particle_at (fun a => a) (fun a => a) (sample_config 5 3)
          (skip_clock 1 sample_host) 1).
Proof.
  apply generate_lookup. split; [vm_compute; lia|reflexivity].
Qed.

(** The upper end is reached: with the largest sample and
    [position.y = 1000] the height is 1075, while the velocity stays below
    2250. *)
Example height_reaches_upper_bound :
  unit_sample (Fin last_sample) /\
  exists p : Particle,
    re_particles
      (fst (Tornado64.generateTornadoEffect (fun a => a) (fun a => a)
              (config_at_height 1000 1 1) top_host)) = [p] /\
    y p = of_Z 1075 /\
    vy p = Fin (2473901162495999 # 1099511627776) /\
    JS.lt (vy p) (of_Z 2250) = true.
Proof.
  split.
  - exists last_sample. split; [reflexivity|]. split; [discriminate|reflexivity].
  - eexists. split; [vm_compute; reflexivity|]. repeat split.
Qed.

Lemma height_within_jitter_witness :
  exists (p : Particle) (v w : Q),
    re_particles (fst (Tornado64.generateTornadoEffect (fun a => a) (fun a => a)
                         (sample_config 5 3) sample_host)) !! 1%nat = Some p /\
    y p = Fin v /\ vy p = Fin w /\
    (-55 <= v)%Q /\ (v <= 95)%Q /\ (-2250 <= w)%Q /\ (w <= 2250)%Q.
Proof.
  assert (Hp : exists p,
    re_particles (fst (Tornado64.generateTornadoEffect (fun a => a) (fun a => a)
                         (sample_config 5 3) sample_host)) !! 1%nat = Some p)
    by (eexists; vm_compute; reflexivity).
  destruct Hp as (p & Hp).
  destruct (height_within_jitter (fun a => a) (fun a => a) (sample_config 5 3)
              sample_host 1 p 20 sample_host_unit eq_refl)
    as (hv & v & w & lo & hi & _ & _ & Hy & _ & Hvy & _ & Hlo & Hhi & H1 & H2 & H3 & H4);
    [discriminate|discriminate|exact Hp|].
  exists p, v, w. split; [exact Hp|]. split; [exact Hy|]. split; [exact Hvy|].
  assert (Elo : lo = (-55)%Q) by (apply Fin_inj; rewrite <- Hlo; vm_compute; reflexivity).
  assert (Ehi : hi = 95%Q) by (apply Fin_inj; rewrite <- Hhi; vm_compute; reflexivity).
  subst lo hi. repeat split; assumption.
Defined.

Lemma rotation_ranges_witness :
  exists r s : Q,
    rotation (particle_at (fun a => a) (fun a => a) (sample_config 5 3)
                (skip_clock 1 sample_host) 1) = Fin r /\
    rotationSpeed (particle_at (fun a => a) (fun a => a) (sample_config 5 3)
                     (skip_clock 1 sample_host) 1) = Fin s /\
    (0 <= r)%Q /\ (-5 <= s)%Q /\ (s < 5)%Q.
Proof.
  destruct (rotation_ranges (fun a => a) (fun a => a) (sample_config 5 3)
              sample_host 1 _ sample_host_unit sample_particle_1)
    as (r & s & Hr & Hs & Hr0 & _ & _ & Hs0 & Hs1).
  exists r, s. repeat split; assumption.
Defined.

Lemma radius_bounds_witness :
  exists q : Q,
    radius (particle_at (fun a => a) (fun a => a) (sample_config 5 3)
              (skip_clock 1 sample_host) 1) = Fin q /\
    (4 < q)%Q /\ (q <= 8)%Q.
Proof.
  destruct (radius_bounds (fun a => a) (fun a => a) (sample_config 5 3)
              sample_host 3 1 _ eq_refl ltac:(lia) sample_particle_1)
    as (Hq & _).
  exact Hq.
Defined.


Lemma layers_balanced_witness :
  Z.of_nat
    (length (on_layer 0
               (re_particles (fst (generateTornadoEffect (fun a => a) (fun a => a)
                                     (sample_config 5 3) sample_host))))) = 2 /\
  Z.of_nat
    (length (on_layer 2
               (re_particles (fst (generateTornadoEffect (fun a => a) (fun a => a)
                                     (sample_config 5 3) sample_host))))) = 1.
Proof.
  split.
  - apply (layers_balanced (fun a => a) (fun a => a) (sample_config 5 3)
             sample_host 5 3 0); [reflexivity|reflexivity|lia|lia|lia].
  - apply (layers_balanced (fun a => a) (fun a => a) (sample_config 5 3)
             sample_host 5 3 2); [reflexivity|reflexivity|lia|lia|lia].
Defined.
